(** * Bridge supervisor, message router and configuration engine

    A shallow embedding of the parts of the repository that the checked
    properties are about:

    - [Supervisor]: the [BridgeManager] class of the VSCode extension
      (start / stop / restart and the exit listener with its restart timer);
    - [Router]: [normalizeMessageType] of ai-bridge/server.js;
    - [Stores]: the favorites / session-titles handlers;
    - [Settings]: [mergeProviderSettingsIntoClaudeSettings] and the
      provider switch / delete handlers;
    - [Usage]: [processClaudeSessions] and [processCodexSessions];
    - [Stream]: [handleSendMessage];
    - [Toml]: ai-bridge/utils/toml-utils.js.

    Further modules state what else the code shows, over the same
    definitions: [TomlLaws], [Lifecycle] (supervisor invariants), [Framing]
    ([_handleData], [onMessage] and [offMessage]), [Dispatch] (the [switch]
    of [handleMessage]), [Titles], [Providers], [Mcp], [UsageLaws], [Hash],
    [Agents] and [Flags].

    Conventions.  JavaScript numbers that count things (tokens, delays,
    timestamps in milliseconds) are integers of [Z].  An object used as a
    dictionary is the finite map of its own properties; where the code
    looks a computed key up in such an object or assigns under one, the
    members inherited from [Object.prototype] and the setter of [__proto__]
    are modelled as well ([ObjectPrototype], [Json.assign]).  A JSON file
    is modelled by its parsed content; writes through [saveJsonFile]
    succeed. *)

From Stdlib Require Import ZArith QArith String Ascii List Bool Lia Sorted.
From Stdlib Require Import Decimal DecimalString DecimalZ DecimalPos.
From Stdlib Require HexadecimalString HexadecimalN.
From stdpp Require Import gmap strings list fin_maps pretty.

Local Open Scope Z_scope.

(* ===================================================================== *)
(** * The bridge supervisor (BridgeManager)                               *)
(* ===================================================================== *)

Module Supervisor.

(** The private fields of [BridgeManager] that the lifecycle code reads and
    writes.  [_process] is [Some pid] while the field holds a [ChildProcess]
    object; the exit listener never clears it, only [stop] does. *)
Record BridgeManager := mkManager {
  _process : option nat;
  _isRunning : bool;
  _restartCount : Z;
}.

Definition _maxRestarts : Z := 3.

(** What the manager does to its environment: children it spawned (the
    handle of the n-th child is n), children it killed, the delay of every
    [setTimeout(() => this.start(), ...)] it issued, the timers still
    pending, and how many times [showErrorMessage] was called from the exit
    listener. *)
Record World := mkWorld {
  mgr : BridgeManager;
  spawned : nat;
  killed : list nat;
  scheduled : list Z;
  pending : list Z;
  errorsShown : nat;
}.

Definition initial : World :=
  mkWorld (mkManager None false 0) 0 [] [] [] 0.

(** [start()]: a no-op when already running; otherwise spawn, attach the
    listeners, set [_isRunning] and reset [_restartCount] to 0. *)
Definition start (w : World) : World :=
  if _isRunning (mgr w) then w
  else
    mkWorld (mkManager (Some (spawned w)) true 0)
            (S (spawned w)) (killed w) (scheduled w) (pending w)
            (errorsShown w).

(** The ['exit'] listener.  [code] is [None] when the child was terminated
    by a signal (JavaScript [null], for which [code !== 0] holds). *)
Definition code_nonzero (code : option Z) : bool :=
  match code with
  | Some c => negb (c =? 0)
  | None => true
  end.

Definition on_exit (code : option Z) (w : World) : World :=
  let m := mgr w in
  if code_nonzero code && (_restartCount m <? _maxRestarts) then
    let n := _restartCount m + 1 in
    mkWorld (mkManager (_process m) false n)
            (spawned w) (killed w)
            (scheduled w ++ [1000 * n]) (pending w ++ [1000 * n])
            (errorsShown w)
  else if _maxRestarts <=? _restartCount m then
    mkWorld (mkManager (_process m) false (_restartCount m))
            (spawned w) (killed w) (scheduled w) (pending w)
            (S (errorsShown w))
  else
    mkWorld (mkManager (_process m) false (_restartCount m))
            (spawned w) (killed w) (scheduled w) (pending w)
            (errorsShown w).

(** The oldest pending restart timer fires: its callback calls [start()]. *)
Definition fire_timer (w : World) : World :=
  match pending w with
  | [] => w
  | _ :: rest =>
      start (mkWorld (mgr w) (spawned w) (killed w) (scheduled w) rest
                     (errorsShown w))
  end.

(** [stop()]: only acts when [_process] is set. *)
Definition stop (w : World) : World :=
  match _process (mgr w) with
  | Some p =>
      mkWorld (mkManager None false _maxRestarts)
              (spawned w) (killed w ++ [p]) (scheduled w) (pending w)
              (errorsShown w)
  | None => w
  end.

(** [restart()]: [stop()], reset the counter, [start()]. *)
Definition restart (w : World) : World :=
  let w1 := stop w in
  start (mkWorld (mkManager (_process (mgr w1)) (_isRunning (mgr w1)) 0)
                 (spawned w1) (killed w1) (scheduled w1) (pending w1)
                 (errorsShown w1)).

(** What can happen to a manager, and runs of such events. *)
Inductive event :=
| EStart
| EExit (code : option Z)
| ETimer
| EStop
| ERestart.

Definition step (w : World) (e : event) : World :=
  match e with
  | EStart => start w
  | EExit code => on_exit code w
  | ETimer => fire_timer w
  | EStop => stop w
  | ERestart => restart w
  end.

Definition run (es : list event) (w : World) : World := fold_left step es w.

(** One crash of the running child followed by the restart the exit
    listener scheduled for it. *)
Definition crash_cycle (code : Z) : list event := [EExit (Some code); ETimer].

Fixpoint crash_cycles (n : nat) (code : Z) : list event :=
  match n with
  | O => []
  | S k => crash_cycle code ++ crash_cycles k code
  end.

(** Strictly increasing lists of delays. *)
Fixpoint strictly_increasing (l : list Z) : bool :=
  match l with
  | a :: ((b :: _) as t) => (a <? b) && strictly_increasing t
  | _ => true
  end.

(** The state a manager is in between two crashes: a live child, the
    counter back at 0 and no timer pending. *)
Definition steady (w : World) : Prop :=
  _isRunning (mgr w) = true ∧ _restartCount (mgr w) = 0 ∧ pending w = [].

Lemma start_initial_steady : steady (start initial).
Proof. repeat split. Qed.

Lemma run_app es1 es2 w : run (es1 ++ es2) w = run es2 (run es1 w).
Proof. unfold run. apply fold_left_app. Qed.

(** A crash with a non-zero code in a steady state schedules a restart
    after 1000 ms, and the restart leads back to a steady state: the counter
    that bounds the retries never gets past 1. *)
Lemma crash_cycle_steady (code : Z) (w : World) :
  code ≠ 0 → steady w →
  let w' := run (crash_cycle code) w in
  steady w' ∧
  scheduled w' = scheduled w ++ [1000] ∧
  spawned w' = S (spawned w) ∧
  errorsShown w' = errorsShown w.
Proof.
  intros Hc (Hr & Hn & Hp). destruct w as [[p r n] sp k sc pe er].
  simpl in *. subst.
  assert (Hnz : negb (code =? 0) = true).
  { apply negb_true_iff, Z.eqb_neq, Hc. }
  unfold on_exit, fire_timer, start, steady; simpl. rewrite Hnz. simpl.
  repeat split.
Qed.

Lemma crash_cycles_steady (n : nat) (code : Z) :
  code ≠ 0 → ∀ w, steady w →
  let w' := run (crash_cycles n code) w in
  steady w' ∧
  scheduled w' = scheduled w ++ repeat 1000 n ∧
  spawned w' = (spawned w + n)%nat ∧
  errorsShown w' = errorsShown w.
Proof.
  intros Hc. induction n as [|n IH]; intros w Hs.
  - simpl. rewrite app_nil_r, Nat.add_0_r. auto.
  - cbn zeta. change (crash_cycles (S n) code)
      with (crash_cycle code ++ crash_cycles n code).
    rewrite run_app.
    destruct (crash_cycle_steady code w Hc Hs) as (Hs1 & Hsc1 & Hsp1 & He1).
    destruct (IH _ Hs1) as (Hs2 & Hsc2 & Hsp2 & He2).
    cbn zeta in Hs2, Hsc2, Hsp2, He2.
    split; [exact Hs2|]. split; [|split].
    + rewrite Hsc2, Hsc1, <- app_assoc. reflexivity.
    + rewrite Hsp2, Hsp1. lia.
    + rewrite He2, He1. reflexivity.
Qed.

(** ** C2: the restart policy *)

(** C2 (restart policy, evaluated on the code).  After [start()], any number
    [n] of consecutive crashes with a non-zero exit code, each followed by
    the restart that the exit listener scheduled, leaves the child running
    again: the child was restarted [n] times, every one of the [n] delays is
    1000 ms (so for [n >= 2] they are not strictly increasing), and no error
    was ever shown, however large [n] is: [start()] resets [_restartCount],
    so the maximum of 3 is never reached. *)
Theorem C2_restart_counter_reset_by_start (n : nat) (code : Z) :
  code ≠ 0 →
  let w := run (crash_cycles n code) (start initial) in
  _isRunning (mgr w) = true ∧
  spawned w = S n ∧
  scheduled w = repeat 1000 n ∧
  errorsShown w = 0%nat ∧
  ((2 <= n)%nat → strictly_increasing (scheduled w) = false).
Proof.
  intros Hc.
  destruct (crash_cycles_steady n code Hc _ start_initial_steady)
    as ((Hr & _ & _) & Hsc & Hsp & He).
  cbn zeta in *. simpl in Hsc, Hsp, He.
  repeat split; auto.
  intros Hn. rewrite Hsc.
  destruct n as [|[|n]]; [lia | lia | reflexivity].
Qed.

(** Five crashes in a row with exit code 1: five restarts, all after
    1000 ms, and no error message although the maximum is 3. *)
Lemma C2_restart_counter_reset_by_start_witness :
  let w := run (crash_cycles 5 1) (start initial) in
  _isRunning (mgr w) = true ∧
  spawned w = 6%nat ∧
  scheduled w = [1000; 1000; 1000; 1000; 1000] ∧
  errorsShown w = 0%nat ∧
  ((2 <= 5)%nat → strictly_increasing (scheduled w) = false).
Proof. apply (C2_restart_counter_reset_by_start 5 1). lia. Defined.

(** ** C3: an explicit stop and the pending restart timer *)

(** What [stop()] does prevent: the exit of the child it killed schedules
    nothing (the counter is at the maximum). *)
Lemma stop_then_exit_schedules_nothing (w : World) (code : option Z) :
  is_Some (_process (mgr w)) →
  pending (run [EStop; EExit code] w) = pending w ∧
  _isRunning (mgr (run [EStop; EExit code] w)) = false.
Proof.
  intros [p Hp]. destruct w as [[q r n] sp k sc pe er]. simpl in Hp.
  subst q. unfold run; simpl. unfold stop, on_exit; simpl.
  rewrite andb_false_r. simpl. auto.
Qed.

(** C3 (stop and a pending restart, evaluated on the code).  The child
    crashes, the exit listener schedules a restart, [stop()] is called while
    the timer is pending, then the timer fires: [start()] runs, a second
    child is spawned and the manager is running again, although neither
    [start()] nor [restart()] was called after [stop()]. *)
Theorem C3_pending_restart_survives_stop :
  let w := run [EStart; EExit (Some 1); EStop; ETimer] initial in
  _isRunning (mgr w) = true ∧
  _process (mgr w) = Some 1%nat ∧
  spawned w = 2%nat ∧
  pending (run [EStart; EExit (Some 1); EStop] initial) = [1000].
Proof. repeat split. Qed.

End Supervisor.

(* ===================================================================== *)
(** * What every object inherits: Object.prototype                        *)
(* ===================================================================== *)

Module ObjectPrototype.

Local Open Scope string_scope.

(** The own properties of [Object.prototype] in Node.  An object made by a
    literal or by [JSON.parse] has it as its prototype, so [obj[k]] finds
    these members when [obj] has no own property [k]: eleven functions and
    the accessor [__proto__], whose getter returns the prototype and whose
    setter replaces it. *)
Inductive member :=
| Constructor
| DefineGetter
| DefineSetter
| HasOwnProperty
| LookupGetter
| LookupSetter
| IsPrototypeOf
| PropertyIsEnumerable
| ToString
| ValueOf
| Proto
| ToLocaleString.

#[global] Instance member_eq_dec : EqDecision member.
Proof. solve_decision. Defined.

Definition allMembers : list member :=
  [Constructor; DefineGetter; DefineSetter; HasOwnProperty; LookupGetter;
   LookupSetter; IsPrototypeOf; PropertyIsEnumerable; ToString; ValueOf;
   Proto; ToLocaleString].

Definition memberName (m : member) : string :=
  match m with
  | Constructor => "constructor"
  | DefineGetter => "__defineGetter__"
  | DefineSetter => "__defineSetter__"
  | HasOwnProperty => "hasOwnProperty"
  | LookupGetter => "__lookupGetter__"
  | LookupSetter => "__lookupSetter__"
  | IsPrototypeOf => "isPrototypeOf"
  | PropertyIsEnumerable => "propertyIsEnumerable"
  | ToString => "toString"
  | ValueOf => "valueOf"
  | Proto => "__proto__"
  | ToLocaleString => "toLocaleString"
  end.

(** The member a property name denotes, if any. *)
Definition memberOf (k : string) : option member :=
  List.find (λ m, bool_decide (memberName m = k)) allMembers.

(** [obj[k]] is an inherited member when [obj] has no own property [k].
    All of them are truthy: functions, or, for [__proto__], the prototype
    object itself. *)
Definition inherited (k : string) : bool :=
  match memberOf k with
  | Some _ => true
  | None => false
  end.

(** [String(value)] of a member, as Node prints it: the source text of a
    native function, or [[object Object]] for the prototype object. *)
Definition memberText (m : member) : string :=
  match m with
  | Proto => "[object Object]"
  | Constructor => "function Object() { [native code] }"
  | _ => "function " ++ memberName m ++ "() { [native code] }"
  end.

Lemma memberOf_name (m : member) : memberOf (memberName m) = Some m.
Proof. destruct m; vm_compute; reflexivity. Qed.

Lemma memberOf_Some (k : string) (m : member) :
  memberOf k = Some m → k = memberName m.
Proof.
  unfold memberOf. intros Hf. apply find_some in Hf as [_ Hm].
  by apply bool_decide_eq_true in Hm.
Qed.

Lemma inherited_proto : inherited "__proto__" = true.
Proof. reflexivity. Qed.

Lemma memberText_plain (m : member) : memberOf (memberText m) = None.
Proof. destruct m; vm_compute; reflexivity. Qed.

End ObjectPrototype.

(* ===================================================================== *)
(** * The message router: type normalization                              *)
(* ===================================================================== *)

Module Router.

Import ObjectPrototype.
Local Open Scope string_scope.

(** The entries of the object literal [typeMap], in source order
    (legacy spelling, canonical spelling). *)
Definition typeMap_entries : list (string * string) :=
  [
   ("send_message", "sendMessage");
   ("send_message_with_attachments", "sendMessageWithAttachments");
   ("get_history", "getHistory");
   ("load_history_data", "getHistory");
   ("load_session", "loadSession");
   ("delete_session", "deleteSession");
   ("create_new_session", "createNewSession");
   ("interrupt_session", "interruptSession");
   ("export_session", "exportSession");
   ("toggle_favorite", "toggleFavorite");
   ("update_title", "updateTitle");
   ("create_new_tab", "createNewTab");
   ("get_settings", "getSettings");
   ("update_settings", "updateSettings");
   ("get_streaming_enabled", "getStreamingEnabled");
   ("set_streaming_enabled", "setStreamingEnabled");
   ("get_send_shortcut", "getSendShortcut");
   ("set_send_shortcut", "setSendShortcut");
   ("get_thinking_enabled", "getThinkingEnabled");
   ("set_thinking_enabled", "setThinkingEnabled");
   ("get_provider_config", "getProviderConfig");
   ("update_provider_config", "updateProviderConfig");
   ("get_current_claude_config", "getCurrentClaudeConfig");
   ("update_current_claude_config", "updateCurrentClaudeConfig");
   ("get_active_provider", "getActiveProvider");
   ("set_active_provider", "setActiveProvider");
   ("set_provider", "setProvider");
   ("get_providers", "getProviders");
   ("add_provider", "addProvider");
   ("update_provider", "updateProvider");
   ("switch_provider", "switchProvider");
   ("delete_provider", "deleteProvider");
   ("get_codex_providers", "getCodexProviders");
   ("add_codex_provider", "addCodexProvider");
   ("update_codex_provider", "updateCodexProvider");
   ("switch_codex_provider", "switchCodexProvider");
   ("delete_codex_provider", "deleteCodexProvider");
   ("set_model", "setModel");
   ("set_mode", "setMode");
   ("set_reasoning_effort", "setReasoningEffort");
   ("permission_response", "permissionResponse");
   ("permission_decision", "permissionDecision");
   ("ask_user_question_response", "askUserQuestionResponse");
   ("plan_approval_response", "planApprovalResponse");
   ("get_mcp_servers", "getMcpServers");
   ("add_mcp_server", "addMcpServer");
   ("update_mcp_server", "updateMcpServer");
   ("delete_mcp_server", "deleteMcpServer");
   ("toggle_mcp_server", "toggleMcpServer");
   ("get_mcp_server_status", "getMcpServerStatus");
   ("get_codex_mcp_servers", "getCodexMcpServers");
   ("add_codex_mcp_server", "addCodexMcpServer");
   ("update_codex_mcp_server", "updateCodexMcpServer");
   ("delete_codex_mcp_server", "deleteCodexMcpServer");
   ("toggle_codex_mcp_server", "toggleCodexMcpServer");
   ("get_global_mcp_servers", "getMcpServers");
   ("add_global_mcp_server", "addMcpServer");
   ("update_global_mcp_server", "updateMcpServer");
   ("delete_global_mcp_server", "deleteMcpServer");
   ("toggle_global_mcp_server", "toggleMcpServer");
   ("get_skills", "getSkills");
   ("get_all_skills", "getSkills");
   ("import_skill", "importSkill");
   ("open_skill", "openSkill");
   ("delete_skill", "deleteSkill");
   ("toggle_skill", "toggleSkill");
   ("get_agents", "getAgents");
   ("get_selected_agent", "getSelectedAgent");
   ("set_selected_agent", "setSelectedAgent");
   ("add_agent", "addAgent");
   ("update_agent", "updateAgent");
   ("delete_agent", "deleteAgent");
   ("get_dependencies", "getDependencies");
   ("get_dependency_status", "getDependencies");
   ("get_sdk_status", "getSdkStatus");
   ("install_dependency", "installDependency");
   ("uninstall_dependency", "uninstallDependency");
   ("check_node_environment", "checkNodeEnvironment");
   ("get_usage_statistics", "getUsageStatistics");
   ("open_file", "openFile");
   ("open_browser", "openBrowser");
   ("refresh_file", "refreshFile");
   ("show_diff", "showDiff");
   ("show_multi_edit_diff", "showMultiEditDiff");
   ("rewind_files", "rewindFiles");
   ("list_files", "listFiles");
   ("save_json", "saveJson");
   ("frontend_ready", "frontendReady");
   ("refresh_slash_commands", "refreshSlashCommands");
   ("get_node_path", "getNodePath");
   ("set_node_path", "setNodePath");
   ("get_working_directory", "getWorkingDirectory");
   ("set_working_directory", "setWorkingDirectory");
   ("get_editor_font_config", "getEditorFontConfig");
   ("open_file_chooser_for_cc_switch", "openFileChooserForCcSwitch");
   ("save_imported_providers", "saveImportedProviders");
   ("preview_cc_switch_import", "previewCcSwitchImport")
  ].

Definition typeMap : gmap string string := list_to_map typeMap_entries.

(** What [normalizeMessageType] receives and returns: a string, or a member
    of [Object.prototype] that a lookup in [typeMap] has found. *)
Inductive messageType :=
| Str (s : string)
| Inherited (m : member).

#[global] Instance messageType_eq_dec : EqDecision messageType.
Proof. solve_decision. Defined.

(** The property key a value is converted to, and [String(value)]. *)
Definition propertyKey (type : messageType) : string :=
  match type with
  | Str s => s
  | Inherited m => memberText m
  end.

(** [typeMap[key]]: the own property, else the inherited member, else
    [undefined]. *)
Definition typeMapAt (key : string) : option messageType :=
  match typeMap !! key with
  | Some canonical => Some (Str canonical)
  | None =>
      match memberOf key with
      | Some m => Some (Inherited m)
      | None => None
      end
  end.

(** The empty string is the only falsy value among them. *)
Definition truthy (v : messageType) : bool :=
  match v with
  | Str s => negb (String.eqb s "")
  | Inherited _ => true
  end.

(** [typeMap[type] || type]. *)
Definition normalizeMessageType (type : messageType) : messageType :=
  match typeMapAt (propertyKey type) with
  | Some found => if truthy found then found else type
  | None => type
  end.

(** The names the table maps to. *)
Definition canonical_names : list string := snd <$> typeMap_entries.

Lemma typeMap_lookup_entry (k c : string) :
  typeMap !! k = Some c → (k, c) ∈ typeMap_entries.
Proof. apply elem_of_list_to_map_2. Qed.




(** A string that is not a key of the table: the lookup finds the member
    of [Object.prototype] of that name, if there is one. *)
Lemma normalize_unknown (t : string) :
  typeMap !! t = None →
  normalizeMessageType (Str t)
  = match memberOf t with
    | Some m => Inherited m
    | None => Str t
    end.
Proof.
  intros Ht. unfold normalizeMessageType, typeMapAt. cbn [propertyKey].
  rewrite Ht. by destruct (memberOf t).
Qed.




Example normalize_send_message :
  normalizeMessageType (Str "send_message") = Str "sendMessage".
Proof. vm_compute. reflexivity. Qed.

Example normalize_load_history_data :
  normalizeMessageType (Str "load_history_data") = Str "getHistory".
Proof. vm_compute. reflexivity. Qed.

Example normalize_passthrough :
  normalizeMessageType (Str "streamChunk") = Str "streamChunk".
Proof. vm_compute. reflexivity. Qed.

End Router.

(* ===================================================================== *)
(** * Favorites and custom titles of sessions                             *)
(* ===================================================================== *)

Module Stores.

Import ObjectPrototype.
Local Open Scope string_scope.

(** The entries the handlers write: [{ favoritedAt }] in favorites.json and
    [{ customTitle, updatedAt }] in session-titles.json.  Both are objects,
    hence truthy. *)
Record favorite := mkFavorite { favoritedAt : Z }.
Record title := mkTitle { customTitle : string; updatedAt : Z }.

(** A project directory below ~/.claude/projects: the session ids that have
    a [<id>.jsonl] file in it, and whether entries can be removed from the
    directory ([unlinkSync] throws otherwise). *)
Record projectDir := mkProjectDir {
  dirName : string;
  sessionFiles : gset string;
  writable : bool;
}.

(** The part of the disk the session handlers touch.  A JSON file is [None]
    when it is missing or does not parse, in which case [loadJsonFile]
    returns its default, the empty object. *)
Record Disk := mkDisk {
  projectsDir : option (list projectDir);
  favoritesFile : option (gmap string favorite);
  titlesFile : option (gmap string title);
}.

Definition loadFavorites (d : Disk) : gmap string favorite :=
  default ∅ (favoritesFile d).

Definition loadTitles (d : Disk) : gmap string title :=
  default ∅ (titlesFile d).

(** The request payload of the session handlers: a bare string, or an
    object that may carry a [sessionId]. *)
Inductive content :=
| ContentString (s : string)
| ContentObject (sessionId : option string)
| ContentMissing.

(** [(typeof content === 'string' ? content : content?.sessionId) || null]:
    the empty string is falsy. *)
Definition requestedSessionId (c : content) : option string :=
  match c with
  | ContentString s => if decide (s = "") then None else Some s
  | ContentObject (Some s) => if decide (s = "") then None else Some s
  | ContentObject None => None
  | ContentMissing => None
  end.

(** The envelopes the two handlers send. *)
Inductive reply :=
| ReplyError (message : string)
| SessionDeleted (sessionId : string)
| FavoriteToggled (sessionId : string) (favorite : bool).

(** The loop over the project directories: delete the first
    [<sessionId>.jsonl] found and stop; [None] when [unlinkSync] throws. *)
Fixpoint unlinkSession (sid : string) (dirs : list projectDir)
  : option (list projectDir) :=
  match dirs with
  | [] => Some []
  | d :: rest =>
      if decide (sid ∈ sessionFiles d) then
        if writable d then
          Some (mkProjectDir (dirName d) (sessionFiles d ∖ {[sid]}) true
                  :: rest)
        else None
      else
        match unlinkSession sid rest with
        | Some rest' => Some (d :: rest')
        | None => None
        end
  end.

(** [store[k]] is truthy: the store has an entry of its own, or [k] names
    a member of [Object.prototype]. *)
Definition found {V} (store : gmap string V) (k : string) : bool :=
  bool_decide (is_Some (store !! k)) || inherited k.

(** [if (store[sid]) { delete store[sid]; saveJsonFile(file, store); }]:
    the file is written when the lookup finds something, also when that is
    an inherited member and [delete] removes nothing. *)
Definition purged {V} (sid : string) (store : gmap string V)
    (file : option (gmap string V)) : option (gmap string V) :=
  if found store sid then Some (delete sid store) else file.

Definition handleDeleteSession (c : content) (d : Disk) : Disk * reply :=
  match requestedSessionId c with
  | None => (d, ReplyError "Session not found")
  | Some sid =>
      let unlinked :=
        match projectsDir d with
        | Some dirs =>
            match unlinkSession sid dirs with
            | Some dirs' => Some (Some dirs')
            | None => None
            end
        | None => Some None
        end in
      match unlinked with
      | None => (d, ReplyError "unlink failed")
      | Some projects' =>
          let favorites := loadFavorites d in
          let favoritesFile' := purged sid favorites (favoritesFile d) in
          let titles := loadTitles d in
          let titlesFile' := purged sid titles (titlesFile d) in
          (mkDisk projects' favoritesFile' titlesFile', SessionDeleted sid)
      end
  end.

(** [handleToggleFavorite]; [now] is the value of [Date.now()].
    [currentlyFavorited] is [!!favorites?.[sessionId]], which is also true
    for a session id that names an inherited member; [delete] then removes
    nothing. *)
Definition handleToggleFavorite (c : content) (now : Z) (d : Disk)
  : Disk * reply :=
  match requestedSessionId c with
  | None => (d, ReplyError "Session not found")
  | Some sid =>
      let favorites := loadFavorites d in
      let currentlyFavorited := found favorites sid in
      let favorites' :=
        if currentlyFavorited then delete sid favorites
        else <[sid := mkFavorite now]> favorites in
      (mkDisk (projectsDir d) (Some favorites') (titlesFile d),
       FavoriteToggled sid (negb currentlyFavorited))
  end.

(** ** C9: deleting a session *)

Lemma deleted_entry_gone {V} (m : gmap string V) (file : option (gmap string V))
    (sid : string) :
  default ∅ file = m → default ∅ (purged sid m file) !! sid = None.
Proof.
  intros Hm. unfold purged, found. destruct (m !! sid) eqn:Hs.
  - rewrite bool_decide_eq_true_2 by eauto. simpl. apply lookup_delete_eq.
  - destruct (_ || _); simpl; [apply lookup_delete_eq|].
    rewrite Hm. exact Hs.
Qed.

Lemma deleted_entry_frame {V} (m : gmap string V)
    (file : option (gmap string V)) (sid other : string) :
  default ∅ file = m → other ≠ sid →
  default ∅ (purged sid m file) !! other = m !! other.
Proof.
  intros Hm Hne. unfold purged. destruct (found m sid); simpl.
  - apply lookup_delete_ne. congruence.
  - rewrite Hm. reflexivity.
Qed.

(** C9 (no dangling auxiliary state).  When [handleDeleteSession] answers
    [sessionDeleted] for a session id, that id has no entry in favorites.json
    and none in session-titles.json afterwards, and the entries of every other
    session id in both stores are what they were. *)
Theorem C9_delete_session_purges_stores (c : content) (d d' : Disk)
    (sid : string) :
  handleDeleteSession c d = (d', SessionDeleted sid) →
  loadFavorites d' !! sid = None ∧
  loadTitles d' !! sid = None ∧
  ∀ other : string, other ≠ sid →
    loadFavorites d' !! other = loadFavorites d !! other ∧
    loadTitles d' !! other = loadTitles d !! other.
Proof.
  unfold handleDeleteSession.
  destruct (requestedSessionId c) as [s|]; [|discriminate].
  intros H.
  assert (∃ p, d' = mkDisk p
      (purged s (loadFavorites d) (favoritesFile d))
      (purged s (loadTitles d) (titlesFile d)) ∧ s = sid) as (p & -> & ->).
  { destruct (projectsDir d) as [dirs|].
    - destruct (unlinkSession s dirs); [|discriminate].
      injection H as <- <-. eauto.
    - injection H as <- <-. eauto. }
  unfold loadFavorites at 1, loadTitles at 1. simpl.
  split; [|split].
  - by apply deleted_entry_gone.
  - by apply deleted_entry_gone.
  - intros other Hne. unfold loadFavorites at 1, loadTitles at 1. simpl.
    split; by apply deleted_entry_frame.
Qed.

Definition sampleDisk : Disk :=
  mkDisk (Some [mkProjectDir "-home-u-proj" {["s1"; "s2"]} true])
         (Some {["s1" := mkFavorite 10; "s2" := mkFavorite 20]})
         (Some {["s1" := mkTitle "first" 11]}).

Lemma C9_delete_session_purges_stores_witness :
  loadFavorites (handleDeleteSession (ContentString "s1") sampleDisk).1
    !! "s1" = None ∧
  loadTitles (handleDeleteSession (ContentString "s1") sampleDisk).1
    !! "s1" = None ∧
  ∀ other : string, other ≠ "s1" →
    loadFavorites (handleDeleteSession (ContentString "s1") sampleDisk).1
      !! other = loadFavorites sampleDisk !! other ∧
    loadTitles (handleDeleteSession (ContentString "s1") sampleDisk).1
      !! other = loadTitles sampleDisk !! other.
Proof.
  apply (C9_delete_session_purges_stores (ContentString "s1") sampleDisk _ "s1").
  vm_compute. reflexivity.
Defined.

(** ** C10: toggling a favorite *)




Example toggle_twice_restores :
  loadFavorites
    (handleToggleFavorite (ContentString "s3") 31
       (handleToggleFavorite (ContentString "s3") 30 sampleDisk).1).1
  = loadFavorites sampleDisk.
Proof. apply map_eq. intros i. vm_compute. reflexivity. Qed.

End Stores.

(* ===================================================================== *)
(** * JSON values                                                         *)
(* ===================================================================== *)

Module Json.

Local Open Scope string_scope.

(** What [JSON.parse] returns.  [JNull] also stands for [undefined] where a
    function receives a missing argument. *)
#[warnings="-register-all"]
Inductive json :=
| JNull
| JBool (b : bool)
| JNum (n : Z)
| JStr (s : string)
| JArr (l : list json)
| JObj (m : gmap string json).

(** JavaScript truthiness. *)
Definition truthy (v : json) : bool :=
  match v with
  | JNull => false
  | JBool b => b
  | JNum n => negb (n =? 0)%Z
  | JStr s => negb (String.eqb s "")
  | JArr _ | JObj _ => true
  end.

(** [v && typeof v === 'object'] (arrays included). *)
Definition isObject (v : json) : bool :=
  match v with
  | JObj _ | JArr _ => true
  | _ => false
  end.

(** [v && typeof v === 'object' && !Array.isArray(v)]. *)
Definition isPlainObject (v : json) : bool :=
  match v with
  | JObj _ => true
  | _ => false
  end.

(** The own enumerable properties that [{ ...v }] and [Object.entries(v)]
    see: the members of an object, the indexed elements of an array. *)
Definition ownProperties (v : json) : gmap string json :=
  match v with
  | JObj m => m
  | JArr l => list_to_map (imap (λ i x, (pretty i, x)) l)
  | _ => ∅
  end.

(** [v.k] on a parsed value, for a fixed name [k] that [Object.prototype]
    and [Array.prototype] do not have (no member of a scalar is ever read
    by name in the modelled code). *)
Definition prop (v : json) (k : string) : option json :=
  ownProperties v !! k.

(** ** Objects built by assignment *)

(** An object that the code fills by assignments [obj[key] = value] with
    computed keys: its own properties and, once the setter of [__proto__]
    has run, the value that replaced [Object.prototype] as its prototype
    (an object, or [null]).  [JSON.stringify] writes the own properties
    only. *)
Record object := mkObject {
  members : gmap string json;
  prototype : option json;
}.

(** [{ ...m }]: a fresh object with the given own properties. *)
Definition newObject (m : gmap string json) : object := mkObject m None.

(** Whether the property [__proto__] that an assignment finds on the
    prototype chain of [o] is the accessor of [Object.prototype]: not when
    the prototype was replaced by [null] (no chain) or by an object that has
    [__proto__] as an own data property, as [JSON.parse] and the spread
    syntax create it. *)
Definition reachesSetter (o : object) : bool :=
  match prototype o with
  | None => true
  | Some JNull => false
  | Some p => negb (bool_decide (is_Some (ownProperties p !! "__proto__")))
  end.

(** [o[key] = value].  An assignment creates or updates an own property,
    except that [__proto__] on an object without such an own property
    reaches the setter, which replaces the prototype when the value is an
    object or [null] and does nothing otherwise. *)
Definition assign (o : object) (key : string) (value : json) : object :=
  if bool_decide (key = "__proto__")
     && negb (bool_decide (is_Some (members o !! key)))
     && reachesSetter o
  then
    match value with
    | JObj _ | JArr _ | JNull => mkObject (members o) (Some value)
    | _ => o
    end
  else mkObject (<[key := value]> (members o)) (prototype o).

(** [o[key]] for a name that [Object.prototype] and [Array.prototype] do
    not have: the own property, else the own property of a replaced
    prototype. *)
Definition get (o : object) (key : string) : option json :=
  match members o !! key with
  | Some v => Some v
  | None =>
      match prototype o with
      | Some p => ownProperties p !! key
      | None => None
      end
  end.

Lemma assign_members_ne (o : object) (key k : string) (value : json) :
  k ≠ key → members (assign o key value) !! k = members o !! k.
Proof.
  intros Hne. unfold assign. destruct (_ && _).
  - by destruct value.
  - simpl. by rewrite lookup_insert_ne.
Qed.

Lemma assign_members_eq (o : object) (key : string) (value : json) :
  key ≠ "__proto__" ∨ is_Some (members o !! key) →
  members (assign o key value) !! key = Some value.
Proof.
  intros Hk. unfold assign.
  destruct (bool_decide (key = "__proto__")) eqn:Hp; simpl.
  - apply bool_decide_eq_true in Hp. destruct Hk as [?|Hown]; [done|].
    rewrite bool_decide_eq_true_2 by done. simpl.
    by rewrite lookup_insert_eq.
  - by rewrite lookup_insert_eq.
Qed.




End Json.

(* ===================================================================== *)
(** * Provider settings: merge, switch, delete                            *)
(* ===================================================================== *)

Module Settings.

Import ObjectPrototype Json.
Local Open Scope string_scope.

(** ** mergeProviderSettingsIntoClaudeSettings *)

(** The environment map the loop body reads from [next]:
    [(next.env && typeof next.env === 'object') ? next.env : {}]. *)
Definition envOf (next : object) : gmap string json :=
  match get next "env" with
  | Some e => if isObject e then ownProperties e else ∅
  | None => ∅
  end.

(** One iteration of [for (const [key, value] of Object.entries(incoming))].
    [{ ...baseEnv, ...value }] is the union in which [value] wins. *)
Definition mergeStep (next : object) (entry : string * json) : object :=
  let '(key, value) := entry in
  if bool_decide (key = "env") && isPlainObject value then
    assign next "env" (JObj (ownProperties value ∪ envOf next))
  else
    assign next key value.

Arguments mergeStep : simpl never.

(** [const next = { ...base }] and the loop over the entries of the patch,
    in the order [Object.entries] lists them. *)
Definition mergeEntries (base : gmap string json)
    (entries : list (string * json)) : object :=
  foldl mergeStep (newObject base) entries.

(** The own properties of the object the function returns: what
    [JSON.stringify] writes to ~/.claude/settings.json.  The model of a
    JSON object keeps no insertion order, so the entries of the patch are
    visited in the order of the map; the properties proved below hold for
    every order. *)
Definition mergeProviderSettingsIntoClaudeSettings
    (baseSettings providerSettings : json) : gmap string json :=
  let base := if isObject baseSettings then baseSettings else JObj ∅ in
  let incoming :=
    if isObject providerSettings then providerSettings else JObj ∅ in
  members (mergeEntries (ownProperties base)
             (map_to_list (ownProperties incoming))).









Definition sampleBase : gmap string json :=
  {[ "model" := JStr "opus";
     "theme" := JStr "dark";
     "env" := JObj {[ "A" := JStr "1"; "B" := JStr "2" ]} ]}.

Definition samplePatch : gmap string json :=
  {[ "model" := JStr "sonnet";
     "env" := JObj {[ "B" := JStr "3"; "C" := JStr "4" ]} ]}.

Example merge_sample :
  mergeProviderSettingsIntoClaudeSettings (JObj sampleBase) (JObj samplePatch)
  = {[ "model" := JStr "sonnet";
       "theme" := JStr "dark";
       "env" := JObj {[ "A" := JStr "1"; "B" := JStr "3"; "C" := JStr "4" ]} ]}.
Proof. vm_compute. reflexivity. Qed.



(** ** The active Claude provider *)

Definition localProviderId : string := "__local_settings_json__".

(** [config.claude] of ~/.codemoss/config.json.  [current] is [None] when
    the field is missing or not a string. *)
Record ClaudeSection := mkClaude {
  current : option string;
  providers : gmap string json;
}.

(** config.json: the Claude section ([None] when missing or not an object)
    and every other top-level key. *)
Record CodemossConfig := mkConfig {
  claude : option ClaudeSection;
  otherSections : gmap string json;
}.

(** ~/.codemoss/settings.json: the legacy active-provider hint ([None] when
    missing or not a string) and every other key. *)
Record CodemossSettings := mkSettings {
  activeClaudeProviderId : option string;
  otherSettings : gmap string json;
}.

(** The three files the provider handlers read and write; [None] is a file
    that is missing or does not parse. *)
Record Files := mkFiles {
  configFile : option CodemossConfig;
  settingsFile : option CodemossSettings;
  claudeSettingsFile : option json;
}.

Definition loadCodemossConfig (f : Files) : CodemossConfig :=
  default (mkConfig None ∅) (configFile f).

Definition loadSettings (f : Files) : CodemossSettings :=
  default (mkSettings None ∅) (settingsFile f).

(** [readClaudeSettings() || {}]. *)
Definition readClaudeSettingsOrEmpty (f : Files) : json :=
  match claudeSettingsFile f with
  | Some v => if truthy v then v else JObj ∅
  | None => JObj ∅
  end.

(** A string that is present and not empty ([typeof x === 'string' && x]). *)
Definition nonEmpty (x : option string) : option string :=
  match x with
  | Some s => if decide (s = "") then None else Some s
  | None => None
  end.

(** [ensureClaudeSection]: the section exists, and [current] is a non-empty
    string, the local entry by default. *)
Definition ensureClaudeSection (c : CodemossConfig) : CodemossConfig :=
  let section := default (mkClaude None ∅) (claude c) in
  mkConfig
    (Some (mkClaude (Some (default localProviderId (nonEmpty (current section))))
                    (providers section)))
    (otherSections c).

Definition claudeOf (c : CodemossConfig) : ClaudeSection :=
  default (mkClaude None ∅) (claude c).

Definition setCurrent (id : string) (c : CodemossConfig) : CodemossConfig :=
  mkConfig (Some (mkClaude (Some id) (providers (claudeOf c))))
           (otherSections c).

Definition saveCodemossConfig (c : CodemossConfig) (f : Files) : Files :=
  mkFiles (Some c) (settingsFile f) (claudeSettingsFile f).

Definition saveSettings (s : CodemossSettings) (f : Files) : Files :=
  mkFiles (configFile f) (Some s) (claudeSettingsFile f).

Definition writeClaudeSettings (v : json) (f : Files) : Files :=
  mkFiles (configFile f) (settingsFile f) (Some v).

(** An entry of the list sent as [providersLoaded]. *)
Record ProviderView := mkView {
  viewId : string;
  isActive : bool;
  isLocalProvider : bool;
}.

(** [getClaudeProvidersFromConfig]: the entries with a non-empty id. *)
Definition getClaudeProvidersFromConfig (c : CodemossConfig) : list string :=
  filter (λ id, id ≠ "") (map_to_list (providers (claudeOf c))).*1.

(** [getClaudeProvidersWithActiveFlag]: the active id, the list with the
    local entry first, and the files (config.json is rewritten when the
    pointer had to be taken from the legacy hint). *)
Definition getClaudeProvidersWithActiveFlag (f : Files)
  : string * list ProviderView * Files :=
  let config := ensureClaudeSection (loadCodemossConfig f) in
  let codemossSettings := loadSettings f in
  let activeFromConfig := nonEmpty (current (claudeOf config)) in
  let activeFromLegacy := nonEmpty (activeClaudeProviderId codemossSettings) in
  let activeId :=
    match activeFromConfig, activeFromLegacy with
    | Some a, _ => a
    | None, Some l => l
    | None, None => localProviderId
    end in
  let '(config', f') :=
    match activeFromConfig, activeFromLegacy with
    | None, Some l =>
        let c' := setCurrent l config in (c', saveCodemossConfig c' f)
    | _, _ => (config, f)
    end in
  let views :=
    (λ id, mkView id (bool_decide (id = activeId)) false)
      <$> getClaudeProvidersFromConfig config' in
  let localEntry :=
    mkView localProviderId (bool_decide (activeId = localProviderId)) true in
  (activeId, localEntry :: views, f').

(** The envelopes of the provider handlers, with the fields that identify
    the provider. *)
Inductive reply :=
| ReplyError (message : string)
| BackendNotification (message : string)
| ShowSwitchSuccess
| ProvidersLoaded (views : list ProviderView)
| CurrentClaudeConfigLoaded (providerId : string)
| ActiveProviderLoaded (provider : option string).

(** [handleGetCurrentClaudeConfig]: the provider id comes from the legacy
    hint in settings.json. *)
Definition handleGetCurrentClaudeConfig (f : Files) : reply :=
  CurrentClaudeConfigLoaded
    (default localProviderId (activeClaudeProviderId (loadSettings f))).

(** [handleGetActiveClaudeProvider]: the local provider, or the entry of the
    list whose id is the active id ([null] when there is none). *)
Definition handleGetActiveClaudeProvider (f : Files) : Files * reply :=
  let '(activeId, views, f') := getClaudeProvidersWithActiveFlag f in
  if decide (activeId = localProviderId) then
    (f', ActiveProviderLoaded (Some localProviderId))
  else
    (f', ActiveProviderLoaded
           (viewId <$> List.find (λ p, bool_decide (viewId p = activeId)) views)).

(** [config.claude.providers[id]], as the switch uses it: [None] when the
    value is falsy, else [provider.settingsConfig || {}].  For an id that
    names a member of [Object.prototype] and has no entry of its own the
    lookup finds that member, which is truthy and has no
    [settingsConfig]. *)
Definition providerAt (ps : gmap string json) (id : string) : option json :=
  match ps !! id with
  | Some provider =>
      if truthy provider then
        match prop provider "settingsConfig" with
        | Some sc => Some (if truthy sc then sc else JObj ∅)
        | None => Some (JObj ∅)
        end
      else None
  | None => if inherited id then Some (JObj ∅) else None
  end.

(** [handleSwitchClaudeProvider]; [id] is [None] when the payload carries
    none.  The empty string is falsy and rejected. *)
Definition handleSwitchClaudeProvider (id : option string) (f : Files)
  : Files * list reply :=
  match nonEmpty id with
  | None => (f, [ReplyError "Missing provider id"])
  | Some id =>
      let config := setCurrent id (ensureClaudeSection (loadCodemossConfig f)) in
      let f1 := saveCodemossConfig config f in
      let codemossSettings :=
        mkSettings (Some id) (otherSettings (loadSettings f1)) in
      let f2 := saveSettings codemossSettings f1 in
      let '(f3, first) :=
        if decide (id = localProviderId) then (f2, ShowSwitchSuccess)
        else
          match providerAt (providers (claudeOf config)) id with
          | Some settingsConfig =>
              let current := readClaudeSettingsOrEmpty f2 in
              let next :=
                mergeProviderSettingsIntoClaudeSettings current settingsConfig in
              (writeClaudeSettings (JObj next) f2, ShowSwitchSuccess)
          | None => (f2, BackendNotification id)
          end in
      let '(_, refreshed, f4) := getClaudeProvidersWithActiveFlag f3 in
      let r2 := handleGetCurrentClaudeConfig f4 in
      let '(f5, r3) := handleGetActiveClaudeProvider f4 in
      (f5, [first; ProvidersLoaded refreshed; r2; r3])
  end.

(** The active id as [handleDeleteProvider] computes it. *)
Definition activeIdForDelete (config : CodemossConfig)
    (codemossSettings : CodemossSettings) : string :=
  match nonEmpty (current (claudeOf config)) with
  | Some a => a
  | None => default localProviderId (activeClaudeProviderId codemossSettings)
  end.

(** [handleDeleteProvider]; [id] is [None] when [content.id] is not a
    string. *)
Definition handleDeleteProvider (id : option string) (f : Files)
  : Files * list reply :=
  match id with
  | None => (f, [ReplyError "Invalid delete_provider payload"])
  | Some id =>
      let ensured := ensureClaudeSection (loadCodemossConfig f) in
      let config :=
        mkConfig (Some (mkClaude (current (claudeOf ensured))
                                 (delete id (providers (claudeOf ensured)))))
                 (otherSections ensured) in
      let codemossSettings := loadSettings f in
      let activeId := activeIdForDelete config codemossSettings in
      if decide (activeId = id) then
        let config' := setCurrent localProviderId config in
        let settings' :=
          mkSettings (Some localProviderId) (otherSettings codemossSettings) in
        let f1 := saveSettings settings' f in
        let f2 := saveCodemossConfig config' f1 in
        let r1 := handleGetCurrentClaudeConfig f2 in
        let '(f3, r2) := handleGetActiveClaudeProvider f2 in
        let '(_, views, f4) := getClaudeProvidersWithActiveFlag f3 in
        (f4, [ShowSwitchSuccess; r1; r2; ProvidersLoaded views])
      else
        let f1 := saveCodemossConfig config f in
        let '(_, views, f2) := getClaudeProvidersWithActiveFlag f1 in
        (f2, [ProvidersLoaded views])
  end.

(** The active pointer of the canonical store, as every handler reads it. *)
Definition activePointer (f : Files) : string :=
  default localProviderId
    (nonEmpty (current (claudeOf (ensureClaudeSection (loadCodemossConfig f))))).

(** What the two stores hold as the active id. *)
Definition canonicalCurrent (f : Files) : option string :=
  current (claudeOf (loadCodemossConfig f)).

Definition legacyCurrent (f : Files) : option string :=
  activeClaudeProviderId (loadSettings f).

Lemma nonEmpty_Some (id : string) : id ≠ "" → nonEmpty (Some id) = Some id.
Proof. intros H. unfold nonEmpty. by destruct (decide (id = "")). Qed.

Lemma nonEmpty_ne (x : option string) (s : string) :
  nonEmpty x = Some s → x = Some s ∧ s ≠ "".
Proof.
  destruct x as [y|]; simpl; [|done].
  destruct (decide (y = "")); [done|]. intros [= ->]. done.
Qed.

Lemma localProviderId_ne : localProviderId ≠ "".
Proof. done. Qed.

Lemma ensure_current (c : CodemossConfig) :
  current (claudeOf (ensureClaudeSection c)) =
  Some (default localProviderId (nonEmpty (current (claudeOf c)))).
Proof. reflexivity. Qed.

Lemma ensure_providers_list (c : CodemossConfig) :
  getClaudeProvidersFromConfig (ensureClaudeSection c) =
  getClaudeProvidersFromConfig c.
Proof. reflexivity. Qed.

(** Reading the provider list when the canonical pointer is set: the active
    id is that pointer and no file is written. *)
Lemma getClaudeProvidersWithActiveFlag_current (f : Files) (id : string) :
  id ≠ "" → canonicalCurrent f = Some id →
  ∃ views,
    getClaudeProvidersWithActiveFlag f = (id, views, f) ∧
    (∀ k, k ≠ "" → is_Some (providers (claudeOf (loadCodemossConfig f)) !! k) →
       mkView k (bool_decide (k = id)) false ∈ views) ∧
    mkView localProviderId (bool_decide (id = localProviderId)) true ∈ views.
Proof.
  intros Hid Hc. unfold getClaudeProvidersWithActiveFlag, canonicalCurrent in *.
  rewrite ensure_current, Hc.
  rewrite (nonEmpty_Some id Hid). simpl default.
  rewrite (nonEmpty_Some id Hid). cbv iota beta zeta.
  rewrite ensure_providers_list.
  eexists. split; [reflexivity|]. split.
  - intros k Hk [v Hv]. apply list_elem_of_further.
    apply list_elem_of_fmap. exists k. split; [done|].
    unfold getClaudeProvidersFromConfig.
    apply list_elem_of_filter. split; [done|].
    apply list_elem_of_fmap. exists (k, v). split; [done|].
    by apply elem_of_map_to_list.
  - apply list_elem_of_here.
Qed.

Lemma find_view (views : list ProviderView) (v : ProviderView) :
  v ∈ views →
  viewId <$> List.find (λ p, bool_decide (viewId p = viewId v)) views
  = Some (viewId v).
Proof.
  intros Hin.
  destruct (List.find _ views) as [p|] eqn:Hf; simpl.
  - apply find_some in Hf as [_ Hp]. apply bool_decide_eq_true in Hp.
    by rewrite Hp.
  - exfalso. apply list_elem_of_In in Hin.
    pose proof (find_none _ _ Hf v Hin) as Hn. simpl in Hn.
    by apply bool_decide_eq_false in Hn.
Qed.

Lemma handleGetActiveClaudeProvider_current (f : Files) (id : string) :
  id ≠ "" → canonicalCurrent f = Some id →
  (id = localProviderId ∨
   is_Some (providers (claudeOf (loadCodemossConfig f)) !! id)) →
  handleGetActiveClaudeProvider f = (f, ActiveProviderLoaded (Some id)).
Proof.
  intros Hid Hc Hknown. unfold handleGetActiveClaudeProvider.
  destruct (getClaudeProvidersWithActiveFlag_current f id Hid Hc)
    as (views & -> & Hviews & _).
  destruct (decide (id = localProviderId)) as [->|Hne]; [done|].
  destruct Hknown as [?|Hsome]; [done|].
  pose proof (find_view views _ (Hviews id Hid Hsome)) as Hf. simpl in Hf.
  by rewrite Hf.
Qed.

Lemma ensured_pointer_nonEmpty (c : CodemossConfig) :
  default localProviderId (nonEmpty (current (claudeOf c))) ≠ "".
Proof.
  destruct (nonEmpty (current (claudeOf c))) as [s|] eqn:Hn; simpl.
  - by apply nonEmpty_ne in Hn as [_ ?].
  - apply localProviderId_ne.
Qed.

(** After [ensureClaudeSection] the legacy fallback of [handleDeleteProvider]
    is never taken: its active id is the canonical pointer. *)
Lemma activeIdForDelete_pointer (f : Files) (ps : gmap string json)
    (others : gmap string json) (codemossSettings : CodemossSettings) :
  activeIdForDelete
    (mkConfig
       (Some (mkClaude
                (current (claudeOf (ensureClaudeSection (loadCodemossConfig f))))
                ps))
       others)
    codemossSettings
  = activePointer f.
Proof.
  unfold activeIdForDelete, activePointer. rewrite ensure_current.
  change (current (claudeOf (mkConfig (Some (mkClaude ?c ps)) others))) with c.
  by rewrite nonEmpty_Some by apply ensured_pointer_nonEmpty.
Qed.

(** The files right after the pointer writes of a switch: both stores hold
    the id, whatever is then synchronised into ~/.claude/settings.json. *)
Lemma switch_files (id : string) (f : Files) :
  id ≠ "" →
  ∃ cs replies,
    handleSwitchClaudeProvider (Some id) f =
    (mkFiles
       (Some (setCurrent id (ensureClaudeSection (loadCodemossConfig f))))
       (Some (mkSettings (Some id) (otherSettings (loadSettings f))))
       cs, replies).
Proof.
  intros Hid. unfold handleSwitchClaudeProvider.
  rewrite (nonEmpty_Some id Hid). cbn zeta.
  set (config := setCurrent id (ensureClaudeSection (loadCodemossConfig f))).
  set (f2 := saveSettings _ (saveCodemossConfig config f)).
  assert (∃ cs first,
    (if decide (id = localProviderId) then (f2, ShowSwitchSuccess)
     else match providerAt (providers (claudeOf config)) id with
          | Some settingsConfig =>
              (writeClaudeSettings
                 (JObj (mergeProviderSettingsIntoClaudeSettings
                          (readClaudeSettingsOrEmpty f2) settingsConfig)) f2,
               ShowSwitchSuccess)
          | None => (f2, BackendNotification id)
          end) =
    (mkFiles (Some config)
             (Some (mkSettings (Some id) (otherSettings (loadSettings f))))
             cs, first)) as (cs & first & ->).
  { destruct (decide (id = localProviderId)); [by eexists _, _|].
    destruct (providerAt (providers (claudeOf config)) id);
      by eexists _, _. }
  set (f3 := mkFiles _ _ cs).
  assert (canonicalCurrent f3 = Some id) as Hc by reflexivity.
  destruct (getClaudeProvidersWithActiveFlag_current f3 id Hid Hc)
    as (views & -> & _).
  unfold handleGetActiveClaudeProvider.
  destruct (getClaudeProvidersWithActiveFlag_current f3 id Hid Hc)
    as (views' & -> & _).
  destruct (decide (id = localProviderId)); by eexists _, _.
Qed.

(** C7 (switch then read; delete the active provider).
    Switch: for every non-empty provider id, after
    [handleSwitchClaudeProvider] the canonical pointer and the legacy hint
    both hold the id, the provider list reports it as the active id,
    [handleGetCurrentClaudeConfig] answers with it, and, when the id is the
    local entry or the id of a stored provider, [handleGetActiveClaudeProvider]
    answers with that provider.
    Delete: when the id passed to [handleDeleteProvider] is the active
    pointer, afterwards the pointer of config.json and the hint of
    settings.json are both [__local_settings_json__]. *)
Theorem C7_switch_then_read_and_delete_active (f : Files) (id : string) :
  (id ≠ "" →
   let f' := (handleSwitchClaudeProvider (Some id) f).1 in
   canonicalCurrent f' = Some id ∧
   legacyCurrent f' = Some id ∧
   (getClaudeProvidersWithActiveFlag f').1.1 = id ∧
   handleGetCurrentClaudeConfig f' = CurrentClaudeConfigLoaded id ∧
   ((id = localProviderId ∨
     is_Some (providers (claudeOf (loadCodemossConfig f)) !! id)) →
    (handleGetActiveClaudeProvider f').2 = ActiveProviderLoaded (Some id))) ∧
  (activePointer f = id →
   let f' := (handleDeleteProvider (Some id) f).1 in
   canonicalCurrent f' = Some localProviderId ∧
   legacyCurrent f' = Some localProviderId ∧
   providers (claudeOf (loadCodemossConfig f')) !! id = None).
Proof.
  split.
  - intros Hid. destruct (switch_files id f Hid) as (cs & replies & ->).
    cbn zeta. simpl fst.
    set (f' := mkFiles _ _ cs).
    assert (canonicalCurrent f' = Some id) as Hc by reflexivity.
    split; [done|]. split; [done|].
    destruct (getClaudeProvidersWithActiveFlag_current f' id Hid Hc)
      as (views & Hg & _).
    split; [by rewrite Hg|]. split; [done|].
    intros Hknown.
    rewrite (handleGetActiveClaudeProvider_current f' id Hid Hc); [done|].
    destruct Hknown as [?|?]; [by left|by right].
  - intros Hact. unfold handleDeleteProvider. cbn zeta.
    set (ensured := ensureClaudeSection (loadCodemossConfig f)).
    assert (activeIdForDelete
              (mkConfig (Some (mkClaude (current (claudeOf ensured))
                                 (delete id (providers (claudeOf ensured)))))
                        (otherSections ensured))
              (loadSettings f) = id) as ->.
    { rewrite <- Hact. apply activeIdForDelete_pointer. }
    rewrite decide_True by done.
    set (f2 := saveCodemossConfig _ _).
    assert (canonicalCurrent f2 = Some localProviderId) as Hc by reflexivity.
    unfold handleGetActiveClaudeProvider.
    destruct (getClaudeProvidersWithActiveFlag_current f2 localProviderId
                localProviderId_ne Hc) as (views & -> & _).
    rewrite decide_True by done.
    destruct (getClaudeProvidersWithActiveFlag_current f2 localProviderId
                localProviderId_ne Hc) as (views' & -> & _).
    simpl. split; [done|]. split; [done|]. apply lookup_delete_eq.
Qed.

Definition sampleFiles : Files :=
  mkFiles
    (Some (mkConfig
             (Some (mkClaude (Some "p1")
                      {[ "p1" := JObj {[ "name" := JStr "One" ]};
                         "p2" := JObj {[ "name" := JStr "Two";
                                         "settingsConfig" :=
                                           JObj {[ "model" := JStr "sonnet" ]} ]} ]}))
             ∅))
    (Some (mkSettings (Some "p1") ∅))
    (Some (JObj {[ "theme" := JStr "dark" ]})).

Lemma C7_switch_then_read_and_delete_active_witness :
  (let f' := (handleSwitchClaudeProvider (Some "p2") sampleFiles).1 in
   canonicalCurrent f' = Some "p2" ∧
   (handleGetActiveClaudeProvider f').2 = ActiveProviderLoaded (Some "p2")) ∧
  (let f' := (handleDeleteProvider (Some "p1") sampleFiles).1 in
   canonicalCurrent f' = Some localProviderId ∧
   legacyCurrent f' = Some localProviderId).
Proof.
  split.
  - destruct (C7_switch_then_read_and_delete_active sampleFiles "p2")
      as [Hswitch _].
    destruct Hswitch as (Hc & _ & _ & _ & Hactive); [done|].
    split; [exact Hc|]. apply Hactive. right. vm_compute. eauto.
  - destruct (C7_switch_then_read_and_delete_active sampleFiles "p1")
      as [_ Hdelete].
    destruct Hdelete as (Hc & Hl & _); [vm_compute; reflexivity|].
    split; [exact Hc | exact Hl].
Defined.

Example switch_sample_claude_settings :
  claudeSettingsFile (handleSwitchClaudeProvider (Some "p2") sampleFiles).1
  = Some (JObj {[ "theme" := JStr "dark"; "model" := JStr "sonnet" ]}).
Proof. vm_compute. reflexivity. Qed.

End Settings.

(* ===================================================================== *)
(** * The usage statistics aggregator                                     *)
(* ===================================================================== *)

Module Usage.

Local Open Scope string_scope.
Local Open Scope Z_scope.

(** Token counts and timestamps (milliseconds) are integers; costs are the
    exact rationals that the doubles of the source stand for.  The source
    adds with [+] on doubles: its sums of token counts are the sums of
    integers below as long as they stay within [2 ^ 53], and its sums and
    quotients of costs are rounded where the rationals below are not. *)
Record UsageData := mkUsage {
  inputTokens : Z;
  outputTokens : Z;
  cacheWriteTokens : Z;
  cacheReadTokens : Z;
  totalTokens : Z;
}.

Definition createUsageData : UsageData := mkUsage 0 0 0 0 0.

(** What [parseClaudeSessionFile] and [parseCodexSessionSummary] return for
    a log that counts. *)
Record Session := mkSession {
  sessionId : string;
  timestamp : Z;
  model : string;
  usage : UsageData;
  cost : Q;
  summary : option string;
}.

(** [date] is the UTC day of the timestamp: the day number stands for the
    [YYYY-MM-DD] prefix of [toISOString()], which it orders the same way. *)
Record DailyUsage := mkDaily {
  date : Z;
  dailySessions : Z;
  dailyUsageData : UsageData;
  dailyCost : Q;
  modelsUsed : list string;
}.

Record ModelStat := mkModelStat {
  statModel : string;
  totalCost : Q;
  statTotalTokens : Z;
  statInputTokens : Z;
  statOutputTokens : Z;
  cacheCreationTokens : Z;
  statCacheReadTokens : Z;
  sessionCount : Z;
}.

Record Week := mkWeek { weekSessions : Z; weekCost : Q; weekTokens : Z }.

Record Trends := mkTrends { trendSessions : Q; trendCost : Q; trendTokens : Q }.

Record Stats := mkStats {
  totalSessions : Z;
  totalUsage : UsageData;
  estimatedCost : Q;
  sessions : list Session;
  dailyUsage : list DailyUsage;
  currentWeek : Week;
  lastWeek : Week;
  trends : Trends;
  byModel : list ModelStat;
}.

Definition emptyWeek : Week := mkWeek 0 0 0.

(** [buildEmptyStats] (project name and time stamp left out). *)
Definition buildEmptyStats : Stats :=
  mkStats 0 createUsageData 0 [] [] emptyWeek emptyWeek (mkTrends 0 0 0) [].

(** [new Date(ts).toISOString().slice(0, 10)].  For a timestamp of the
    years 0000 to 9999 the ten characters are the date [YYYY-MM-DD], which
    the number of the UTC day stands for.  Outside these years
    [toISOString] writes a sign and six digits for the year, the prefix
    stops inside the month or the day, and the day number no longer stands
    for it. *)
Definition dateKey (ts : Z) : Z := ts `div` 86400000.

(** [Array.prototype.sort] with a comparator is stable; [le a b] is
    [compare(a, b) <= 0]. *)
Section Sort.
Context {A : Type} (le : A → A → bool).

Fixpoint insertSorted (x : A) (l : list A) : list A :=
  match l with
  | [] => [x]
  | y :: rest => if le x y then x :: l else y :: insertSorted x rest
  end.

Fixpoint sortBy (l : list A) : list A :=
  match l with
  | [] => []
  | x :: rest => insertSorted x (sortBy rest)
  end.

Lemma insertSorted_length x l : length (insertSorted x l) = S (length l).
Proof.
  induction l as [|y rest IH]; simpl; [done|].
  destruct (le x y); simpl; by rewrite ?IH.
Qed.

Lemma sortBy_length l : length (sortBy l) = length l.
Proof.
  induction l as [|x rest IH]; simpl; [done|].
  by rewrite insertSorted_length, IH.
Qed.

Lemma insertSorted_perm x l : insertSorted x l ≡ₚ x :: l.
Proof.
  induction l as [|y rest IH]; simpl; [done|].
  destruct (le x y); [done|]. rewrite IH. apply Permutation_swap.
Qed.

Lemma sortBy_perm l : sortBy l ≡ₚ l.
Proof.
  induction l as [|x rest IH]; simpl; [done|].
  by rewrite insertSorted_perm, IH.
Qed.
End Sort.

(** A JavaScript [Map] keeps insertion order: an entry found is updated in
    place, a new key is appended with [f] applied to its initial value. *)
Fixpoint mapUpsert {K V : Type} `{EqDecision K} (key : K) (init : V)
    (f : V → V) (m : list (K * V)) : list (K * V) :=
  match m with
  | [] => [(key, f init)]
  | (k, v) :: rest =>
      if decide (k = key) then (k, f v) :: rest
      else (k, v) :: mapUpsert key init f rest
  end.

Definition addUsage (total : UsageData) (u : UsageData) : UsageData :=
  mkUsage (inputTokens total + inputTokens u)
          (outputTokens total + outputTokens u)
          (cacheWriteTokens total + cacheWriteTokens u)
          (cacheReadTokens total + cacheReadTokens u)
          (totalTokens total + totalTokens u).

Definition pushModel (m : string) (used : list string) : list string :=
  if bool_decide (m ∈ used) then used else used ++ [m].

Definition addToModelStat (s : Session) (st : ModelStat) : ModelStat :=
  mkModelStat (statModel st)
    (totalCost st + cost s)%Q
    (statTotalTokens st + totalTokens (usage s))
    (statInputTokens st + inputTokens (usage s))
    (statOutputTokens st + outputTokens (usage s))
    (cacheCreationTokens st + cacheWriteTokens (usage s))
    (statCacheReadTokens st + cacheReadTokens (usage s))
    (sessionCount st + 1).

Definition newModelStat (m : string) : ModelStat :=
  mkModelStat m 0 0 0 0 0 0 0.

Definition addToWeek (s : Session) (w : Week) : Week :=
  mkWeek (weekSessions w + 1) (weekCost w + cost s)%Q
         (weekTokens w + totalTokens (usage s)).

Definition newDaily (d : Z) : DailyUsage := mkDaily d 0 createUsageData 0 [].

(** The daily rollup of the Claude path adds input and output tokens only. *)
Definition addToDailyClaude (s : Session) (d : DailyUsage) : DailyUsage :=
  mkDaily (date d) (dailySessions d + 1)
    (mkUsage (inputTokens (dailyUsageData d) + inputTokens (usage s))
             (outputTokens (dailyUsageData d) + outputTokens (usage s))
             (cacheWriteTokens (dailyUsageData d))
             (cacheReadTokens (dailyUsageData d))
             (totalTokens (dailyUsageData d)))
    (dailyCost d + cost s)%Q
    (pushModel (model s) (modelsUsed d)).

Definition addToDailyCodex (s : Session) (d : DailyUsage) : DailyUsage :=
  mkDaily (date d) (dailySessions d + 1)
    (addUsage (dailyUsageData d) (usage s))
    (dailyCost d + cost s)%Q
    (pushModel (model s) (modelsUsed d)).

Definition newestFirst (a b : Session) : bool := timestamp b <=? timestamp a.
Definition byDate (a b : DailyUsage) : bool := date a <=? date b.
Definition costliestFirst (a b : ModelStat) : bool :=
  Qle_bool (totalCost b) (totalCost a).

Definition percentChange (cur last : Q) : Q := (((cur - last) / last) * 100)%Q.

Definition weekMs : Z := 7 * 24 * 60 * 60 * 1000.

(** ** processClaudeSessions *)

Record ClaudeAcc := mkClaudeAcc {
  accUsage : UsageData;
  accCost : Q;
  accDaily : list (Z * DailyUsage);
  accModels : list (string * ModelStat);
  accCurrent : Week;
  accLast : Week;
}.

Definition claudeLoopBody (now : Z) (acc : ClaudeAcc) (s : Session)
  : ClaudeAcc :=
  let oneWeekAgo := now - weekMs in
  let twoWeeksAgo := now - 2 * weekMs in
  mkClaudeAcc
    (addUsage (accUsage acc) (usage s))
    (accCost acc + cost s)%Q
    (mapUpsert (dateKey (timestamp s)) (newDaily (dateKey (timestamp s)))
               (addToDailyClaude s) (accDaily acc))
    (mapUpsert (model s) (newModelStat (model s)) (addToModelStat s)
               (accModels acc))
    (if oneWeekAgo <? timestamp s then addToWeek s (accCurrent acc)
     else accCurrent acc)
    (if oneWeekAgo <? timestamp s then accLast acc
     else if twoWeeksAgo <? timestamp s then addToWeek s (accLast acc)
     else accLast acc).

Definition capSessions (l : list Session) : list Session :=
  if (200 <? length l)%nat then take 200 l else l.

Definition processClaudeSessions (now : Z) (ss : list Session) (stats : Stats)
  : Stats :=
  let acc :=
    foldl (claudeLoopBody now)
          (mkClaudeAcc (totalUsage stats) (estimatedCost stats) [] []
                       emptyWeek emptyWeek) ss in
  let cw := accCurrent acc in
  let lw := accLast acc in
  mkStats (totalSessions stats) (accUsage acc) (accCost acc)
    (capSessions (sortBy newestFirst ss))
    (sortBy byDate (accDaily acc).*2)
    cw lw
    (mkTrends
       (if weekSessions lw =? 0 then 0
        else percentChange (inject_Z (weekSessions cw)) (inject_Z (weekSessions lw)))
       (if Qeq_bool (weekCost lw) 0 then 0
        else percentChange (weekCost cw) (weekCost lw))
       (if weekTokens lw =? 0 then 0
        else percentChange (inject_Z (weekTokens cw)) (inject_Z (weekTokens lw))))
    (sortBy costliestFirst (accModels acc).*2).

(** [getClaudeProjectStatistics], from the sessions read from the project
    directories. *)
Definition getClaudeProjectStatistics (now : Z) (scanned : list Session)
  : Stats :=
  let stats := buildEmptyStats in
  processClaudeSessions now scanned
    (mkStats (Z.of_nat (length scanned)) (totalUsage stats)
       (estimatedCost stats) (sessions stats) (dailyUsage stats)
       (currentWeek stats) (lastWeek stats) (trends stats) (byModel stats)).

(** ** processCodexSessions *)

Definition codexTotals (acc : UsageData * Q) (s : Session) : UsageData * Q :=
  (addUsage acc.1 (usage s), (acc.2 + cost s)%Q).

Definition codexRollup (acc : list (Z * DailyUsage) * list (string * ModelStat))
    (s : Session) : list (Z * DailyUsage) * list (string * ModelStat) :=
  (mapUpsert (dateKey (timestamp s)) (newDaily (dateKey (timestamp s)))
             (addToDailyCodex s) acc.1,
   mapUpsert (model s) (newModelStat (model s)) (addToModelStat s) acc.2).

Definition codexWeeks (now : Z) (acc : Week * Week) (s : Session)
  : Week * Week :=
  let oneWeekAgo := now - weekMs in
  let twoWeeksAgo := now - 2 * weekMs in
  if oneWeekAgo <=? timestamp s then (addToWeek s acc.1, acc.2)
  else if twoWeeksAgo <=? timestamp s then (acc.1, addToWeek s acc.2)
  else acc.

Definition processCodexSessions (now : Z) (ss : list Session) (stats : Stats)
  : Stats :=
  let totals := foldl codexTotals (totalUsage stats, estimatedCost stats) ss in
  let rollup := foldl codexRollup ([], []) ss in
  let weeks := foldl (codexWeeks now) (currentWeek stats, lastWeek stats) ss in
  let cw := weeks.1 in
  let lw := weeks.2 in
  mkStats (totalSessions stats) totals.1 totals.2
    ss
    (sortBy byDate rollup.1.*2)
    cw lw
    (mkTrends
       (if 0 <? weekSessions lw
        then percentChange (inject_Z (weekSessions cw)) (inject_Z (weekSessions lw))
        else trendSessions (trends stats))
       (if Qle_bool (weekCost lw) 0 then trendCost (trends stats)
        else percentChange (weekCost cw) (weekCost lw))
       (if 0 <? weekTokens lw
        then percentChange (inject_Z (weekTokens cw)) (inject_Z (weekTokens lw))
        else trendTokens (trends stats)))
    (sortBy costliestFirst rollup.2.*2).

(** [readCodexSessionSummaries] sorts what it parsed, newest first. *)
Definition readCodexSessionSummaries (parsed : list Session) : list Session :=
  sortBy newestFirst parsed.

Definition getCodexProjectStatistics (now : Z) (parsed : list Session)
  : Stats :=
  let stats := buildEmptyStats in
  let ss := readCodexSessionSummaries parsed in
  processCodexSessions now ss
    (mkStats (Z.of_nat (length ss)) (totalUsage stats)
       (estimatedCost stats) (sessions stats) (dailyUsage stats)
       emptyWeek emptyWeek (mkTrends 0 0 0) (byModel stats)).

(** [handleGetUsageStatistics]: the statistics sent as
    [usageStatisticsLoaded]. *)
Inductive provider := Claude | Codex.

Definition handleGetUsageStatistics (p : provider) (now : Z)
    (scanned : list Session) : Stats :=
  match p with
  | Codex => getCodexProjectStatistics now scanned
  | Claude => getClaudeProjectStatistics now scanned
  end.

(** ** Properties of the two paths *)

Section SortSorted.
Context {A : Type} (le : A → A → bool).
Hypothesis le_total : ∀ a b, le a b = false → le b a = true.

Lemma insertSorted_HdRel (a x : A) (l : list A) :
  le a x = true → HdRel (λ u v, le u v = true) a l →
  HdRel (λ u v, le u v = true) a (insertSorted le x l).
Proof.
  intros Hax Hal. destruct l as [|y rest]; simpl.
  - by constructor.
  - destruct (le x y); constructor; [done|]. by inversion Hal.
Qed.

Lemma insertSorted_Sorted (x : A) (l : list A) :
  Sorted (λ u v, le u v = true) l →
  Sorted (λ u v, le u v = true) (insertSorted le x l).
Proof.
  induction 1 as [|y rest Hs IH Hd]; simpl.
  - repeat constructor.
  - destruct (le x y) eqn:Hxy.
    + constructor; [by constructor|]. by constructor.
    + constructor; [exact IH|].
      apply insertSorted_HdRel; [by apply le_total|done].
Qed.

Lemma sortBy_Sorted (l : list A) :
  Sorted (λ u v, le u v = true) (sortBy le l).
Proof.
  induction l as [|x rest IH]; simpl; [constructor|].
  by apply insertSorted_Sorted.
Qed.
End SortSorted.

Lemma newestFirst_total (a b : Session) :
  newestFirst a b = false → newestFirst b a = true.
Proof. unfold newestFirst. lia. Qed.

Lemma Sorted_take {A} (R : A → A → Prop) (n : nat) (l : list A) :
  Sorted R l → Sorted R (take n l).
Proof.
  intros Hs. revert n. induction Hs as [|x l Hs IH Hd]; intros [|n]; simpl;
    try constructor.
  - apply IH.
  - destruct Hd; destruct n; simpl; by constructor.
Qed.

Lemma Sorted_weaken {A} (R R' : A → A → Prop) (l : list A) :
  (∀ a b, R a b → R' a b) → Sorted R l → Sorted R' l.
Proof.
  intros HR. induction 1 as [|x l Hs IH Hd]; constructor; [done|].
  destruct Hd; constructor. by apply HR.
Qed.

Lemma capSessions_length (l : list Session) :
  (length (capSessions l) <= 200)%nat.
Proof.
  unfold capSessions. destruct (200 <? length l)%nat eqn:H.
  - rewrite length_take. lia.
  - apply Nat.ltb_ge in H. lia.
Qed.

Lemma capSessions_take (l : list Session) : capSessions l = take 200 l.
Proof.
  unfold capSessions. destruct (200 <? length l)%nat eqn:H; [done|].
  apply Nat.ltb_ge in H. by rewrite take_ge.
Qed.

(** The totals of the Claude loop are sums over every session given. *)
Lemma claude_loop_totals (now : Z) (ss : list Session) (acc : ClaudeAcc) :
  accUsage (foldl (claudeLoopBody now) acc ss)
    = foldl addUsage (accUsage acc) (usage <$> ss) ∧
  accCost (foldl (claudeLoopBody now) acc ss)
    = foldl Qplus (accCost acc) (cost <$> ss).
Proof.
  revert acc. induction ss as [|s rest IH]; intros acc; simpl; [done|].
  destruct (IH (claudeLoopBody now acc s)) as [-> ->]. done.
Qed.

Lemma codex_loop_totals (ss : list Session) (acc : UsageData * Q) :
  foldl codexTotals acc ss
  = (foldl addUsage acc.1 (usage <$> ss), foldl Qplus acc.2 (cost <$> ss)).
Proof.
  revert acc. induction ss as [|s rest IH]; intros [u c]; simpl; [done|].
  by rewrite IH.
Qed.

(** The Claude path: the list is the 200 first sessions of all the scanned
    ones ordered newest first, and the totals range over all of them. *)
Lemma claude_sessions_capped_sorted (now : Z) (scanned : list Session) :
  let stats := handleGetUsageStatistics Claude now scanned in
  sessions stats = take 200 (sortBy newestFirst scanned) ∧
  (length (sessions stats) <= 200)%nat ∧
  Sorted (λ a b, timestamp b <= timestamp a) (sessions stats) ∧
  totalUsage stats = foldl addUsage createUsageData (usage <$> scanned) ∧
  estimatedCost stats = foldl Qplus 0%Q (cost <$> scanned) ∧
  totalSessions stats = Z.of_nat (length scanned).
Proof.
  cbn zeta. unfold handleGetUsageStatistics, getClaudeProjectStatistics,
    processClaudeSessions. simpl.
  split; [apply capSessions_take|]. split; [apply capSessions_length|].
  split.
  - rewrite capSessions_take. apply Sorted_take.
    eapply Sorted_weaken; [|apply (sortBy_Sorted newestFirst newestFirst_total)].
    intros a b H. unfold newestFirst in H. lia.
  - pose proof (claude_loop_totals now scanned
      (mkClaudeAcc createUsageData 0 [] [] emptyWeek emptyWeek)) as [Hu Hc].
    simpl in Hu, Hc. rewrite Hu, Hc. done.
Qed.

(** The Codex path returns every session it was given. *)
Lemma codex_sessions_all (now : Z) (parsed : list Session) :
  let stats := handleGetUsageStatistics Codex now parsed in
  sessions stats = sortBy newestFirst parsed ∧
  Sorted (λ a b, timestamp b <= timestamp a) (sessions stats) ∧
  totalUsage stats = foldl addUsage createUsageData
                       (usage <$> sortBy newestFirst parsed) ∧
  totalSessions stats = Z.of_nat (length parsed).
Proof.
  cbn zeta. unfold handleGetUsageStatistics, getCodexProjectStatistics,
    processCodexSessions, readCodexSessionSummaries. simpl.
  split; [done|]. split; [|split].
  - eapply Sorted_weaken; [|apply (sortBy_Sorted newestFirst newestFirst_total)].
    intros a b H. unfold newestFirst in H. lia.
  - by rewrite codex_loop_totals.
  - by rewrite sortBy_length.
Qed.

(** C4 (result cap, evaluated on the code).  For the Codex provider the
    list of sessions sent to the host has as many entries as there are
    scanned sessions: with more than 200 scanned sessions it has more than
    200 entries.  ([processClaudeSessions] cuts the list to 200,
    [processCodexSessions] assigns [stats.sessions = sessions].) *)
Theorem C4_codex_sessions_not_capped (now : Z) (parsed : list Session) :
  (200 < length parsed)%nat →
  (200 < length (sessions (handleGetUsageStatistics Codex now parsed)))%nat ∧
  (length (sessions (handleGetUsageStatistics Claude now parsed)) <= 200)%nat.
Proof.
  intros Hlen. split.
  - destruct (codex_sessions_all now parsed) as [-> _].
    by rewrite sortBy_length.
  - apply (claude_sessions_capped_sorted now parsed).
Qed.

(** 201 Codex sessions, one per minute, each with 10 input tokens. *)
Definition codexLog (n : nat) : list Session :=
  (λ i : nat, mkSession (pretty i) (1700000000000 + 60000 * Z.of_nat i)
                "gpt-5.1" (mkUsage 10 0 0 0 10) 0 None) <$> seq 0 n.

Lemma C4_codex_sessions_not_capped_witness :
  (200 < length (sessions
     (handleGetUsageStatistics Codex 1700100000000 (codexLog 201))))%nat ∧
  (length (sessions
     (handleGetUsageStatistics Claude 1700100000000 (codexLog 201))) <= 200)%nat.
Proof.
  apply (C4_codex_sessions_not_capped 1700100000000 (codexLog 201)).
  unfold codexLog. rewrite length_fmap, length_seq. lia.
Defined.

Example codex_201_sessions :
  length (sessions (handleGetUsageStatistics Codex 1700100000000 (codexLog 201)))
  = 201%nat.
Proof.
  destruct (codex_sessions_all 1700100000000 (codexLog 201)) as [-> _].
  rewrite sortBy_length. unfold codexLog. by rewrite length_fmap, length_seq.
Qed.

End Usage.

(* ===================================================================== *)
(** * Streaming replies: handleSendMessage                                *)
(* ===================================================================== *)

Module Stream.

Import Json.
Local Open Scope string_scope.

(** ** Envelopes and standard output *)

(** The [content] member of the envelopes that [handleSendMessage] sends. *)
Inductive payload :=
| PSession (sessionId : option string)
| PDelta (delta : json) (sessionId : option string)
| PMessage (message : json) (sessionId : option string).

(** [{ type, content, requestId }]. *)
Record envelope := mkEnvelope {
  etype : string;
  econtent : payload;
  requestId : option string;
}.

(** A line on the standard output of the bridge: an envelope serialized by
    [sendToHost], or a line of the SDK printed as it is. *)
Inductive line :=
| LEnvelope (e : envelope)
| LRaw (text : string).

(** An argument of [console.log] made by the SDK channel: the text, and
    what [JSON.parse] makes of the part of it that the interceptor parses
    (the trimmed remainder after a marker, or the whole text when it starts
    with a brace); [None] when [JSON.parse] throws. *)
Record sdkOutput := mkOutput {
  text : string;
  parsed : option json;
}.

(** What a thrown value shows as [error.message]; reading [.message] of
    [null] or [undefined] throws itself. *)
Inductive thrown :=
| ThrownWithMessage (message : string)
| ThrownNullish.

Inductive outcome :=
| Returned
| Threw (e : thrown).

(** ** Strings *)

Fixpoint dropChars (n : nat) (s : string) : string :=
  match n, s with
  | O, _ => s
  | S k, String _ rest => dropChars k rest
  | S _, EmptyString => EmptyString
  end.

(** The white space that [trim] removes, among the code units below 256
    that the strings of this module are made of. *)
Definition isWhitespace (c : ascii) : bool :=
  match nat_of_ascii c with
  | 9 | 10 | 11 | 12 | 13 | 32 | 160 => true
  | _ => false
  end%nat.

Fixpoint trimStart (s : string) : string :=
  match s with
  | String c rest => if isWhitespace c then trimStart rest else s
  | EmptyString => EmptyString
  end.

Fixpoint trimEnd (s : string) : string :=
  match s with
  | String c rest =>
      match trimEnd rest with
      | EmptyString => if isWhitespace c then EmptyString
                       else String c EmptyString
      | t => String c t
      end
  | EmptyString => EmptyString
  end.

(** [s.trim()]. *)
Definition trim (s : string) : string := trimEnd (trimStart s).

Definition startsWith (s marker : string) : bool := String.prefix marker s.

(** [let t = output.substring(marker.length);
     if (t.startsWith(' ')) t = t.slice(1);] *)
Definition afterMarker (marker output : string) : string :=
  match dropChars (String.length marker) output with
  | String " " rest => rest
  | t => t
  end.

(** ** The console interceptor of the Claude branch *)

(** What the handler reads from the request: [content.sessionId] and the
    request id, which are only copied into the envelopes, and
    [content.provider].  [reqProvider] is [None] when the payload has no
    [provider], in which case the default [currentProvider] applies; the
    handler only compares the provider with ['codex'] and ['openai'], so a
    provider that is [null] or not a string behaves as a name that is
    neither. *)
Record Request := mkRequest {
  sessionId : option string;
  reqProvider : option string;
  rid : option string;
}.

(** The closure variables of the interceptor, and the lines written to the
    real standard output so far. *)
Record Capture := mkCapture {
  bufferedContent : string;
  capturedStructuredError : option string;
  structuredErrorEmitted : bool;
}.

(** [sendToHost] while [console.log] is replaced: the serialized envelope is
    handed to the interceptor, starts with a brace, parses to an object with
    a string [type] and no [success] member, and is therefore printed with
    [originalConsoleLog]. *)
Definition sendToHost (type : string) (c : payload) (requestId : option string)
  : list line :=
  [LEnvelope (mkEnvelope type c requestId)].

(** The text of an assistant message that the non-streaming mode collects:
    [msg.message?.content ?? msg.content], an array of blocks or a string. *)
Definition nullish (v : option json) : bool :=
  match v with
  | None | Some JNull => true
  | _ => false
  end.

Definition blockText (b : json) : string :=
  match b with
  | JObj m =>
      match m !! "type", m !! "text" with
      | Some (JStr "text"), Some (JStr t) => t
      | _, _ => ""
      end
  | _ => ""
  end.

Definition assistantText (msg : json) : string :=
  match prop msg "type" with
  | Some (JStr "assistant") =>
      let inner :=
        match prop msg "message" with
        | Some m => prop m "content"
        | None => None
        end in
      let blocks := if nullish inner then prop msg "content" else inner in
      match blocks with
      | Some (JArr bs) => foldl (λ acc b, acc ++ blockText b) "" bs
      | Some (JStr s) => s
      | _ => ""
      end
  | _ => ""
  end.

Definition errorDelta (message : string) : json :=
  JStr (String "010" (String "010" ("Error: " ++ message))).

(** One call of the interceptor: the new closure state and the lines that
    reach the standard output. *)
Definition interceptor (streamingEnabled thinkingEnabled : bool)
    (r : Request) (st : Capture) (o : sdkOutput) : Capture * list line :=
  let output := text o in
  if startsWith output "[CONTENT_DELTA]" then
    let deltaJson := trim (dropChars 15 output) in
    match parsed o with
    | Some delta =>
        (st, sendToHost "streamChunk" (PDelta delta (sessionId r)) (rid r))
    | None =>
        (st, sendToHost "streamChunk" (PDelta (JStr deltaJson) (sessionId r))
               (rid r))
    end
  else if startsWith output "[CONTENT]" then
    let textChunk := afterMarker "[CONTENT]" output in
    if streamingEnabled then
      (st, sendToHost "streamChunk" (PDelta (JStr textChunk) (sessionId r))
             (rid r))
    else
      (mkCapture (bufferedContent st ++ textChunk)
                 (capturedStructuredError st) (structuredErrorEmitted st), [])
  else if startsWith output "[THINKING_DELTA]" then
    if negb thinkingEnabled then (st, [])
    else
      let deltaJson := trim (dropChars 16 output) in
      match parsed o with
      | Some delta =>
          (st, sendToHost "thinkingChunk" (PDelta delta (sessionId r)) (rid r))
      | None =>
          (st, sendToHost "thinkingChunk"
                 (PDelta (JStr deltaJson) (sessionId r)) (rid r))
      end
  else if startsWith output "[THINKING]" then
    if negb thinkingEnabled then (st, [])
    else
      let thinkingChunk := afterMarker "[THINKING]" output in
      if decide (thinkingChunk = "") then (st, [])
      else (st, sendToHost "thinkingChunk"
                  (PDelta (JStr thinkingChunk) (sessionId r)) (rid r))
  else if startsWith output "[MESSAGE]" then
    match parsed o with
    | Some msg =>
        (mkCapture
           (if negb streamingEnabled && truthy msg
            then bufferedContent st ++ assistantText msg
            else bufferedContent st)
           (capturedStructuredError st) (structuredErrorEmitted st),
         sendToHost "messageUpdate" (PMessage msg (sessionId r)) (rid r))
    | None => (st, [])
    end
  else if startsWith output "[STREAM_START]" then (st, [])
  else if startsWith output "[STREAM_END]" then (st, [])
  else if startsWith output "{" then
    match parsed o with
    | Some maybeJson =>
        if isObject maybeJson then
          match prop maybeJson "success", prop maybeJson "error" with
          | Some (JBool false), Some (JStr err) =>
              (mkCapture (bufferedContent st) (Some err) true,
               if structuredErrorEmitted st then []
               else sendToHost "streamChunk"
                      (PDelta (errorDelta err) (sessionId r)) (rid r))
          | _, _ =>
              match prop maybeJson "type" with
              | Some (JStr _) => (st, [LRaw output])
              | _ => (st, [])
              end
          end
        else (st, [])
    | None => (st, [])
    end
  else (st, []).

(** The interceptor over the outputs of one SDK call, in order. *)
Fixpoint intercept (streamingEnabled thinkingEnabled : bool) (r : Request)
    (st : Capture) (outputs : list sdkOutput) : Capture * list line :=
  match outputs with
  | [] => (st, [])
  | o :: rest =>
      let '(st1, lines1) := interceptor streamingEnabled thinkingEnabled r st o in
      let '(st2, lines2) := intercept streamingEnabled thinkingEnabled r st1 rest in
      (st2, (lines1 ++ lines2)%list)
  end.

(** ** handleSendMessage *)

(** One call of an SDK channel: what it prints and how it ends. *)
Record ClaudeRun := mkClaudeRun {
  claudeOutputs : list sdkOutput;
  claudeOutcome : outcome;
}.

(** [handleCodexCommand] runs with the real [console.log]: its lines reach
    the standard output as they are. *)
Record CodexRun := mkCodexRun {
  codexLines : list string;
  codexOutcome : outcome;
}.

(** What the handler reads from its surroundings: the module variable
    [currentProvider], the two flags of settings.json, the availability of
    the SDKs, what the SDK call does when made, and the diagnostic lines of
    the remediation text. *)
Record Env := mkEnv {
  currentProvider : string;
  streamingEnabled : bool;
  thinkingEnabled : bool;
  claudeSdkAvailable : bool;
  codexSdkAvailable : bool;
  claudeRun : ClaudeRun;
  codexRun : CodexRun;
  diagnostics : string;
}.

Definition isCodexProvider (r : Request) (env : Env) : bool :=
  let provider := default (currentProvider env) (reqProvider r) in
  bool_decide (provider = "codex") || bool_decide (provider = "openai").

Definition nl : string := String "010" EmptyString.

Definition claudeManual : string :=
  "mkdir -p ~/.codemoss/dependencies/claude-sdk" ++ nl ++
  "cd ~/.codemoss/dependencies/claude-sdk" ++ nl ++
  "npm init -y" ++ nl ++
  "npm install @anthropic-ai/claude-agent-sdk @anthropic-ai/sdk @anthropic-ai/bedrock-sdk".

Definition codexManual : string :=
  "mkdir -p ~/.codemoss/dependencies/codex-sdk" ++ nl ++
  "cd ~/.codemoss/dependencies/codex-sdk" ++ nl ++
  "npm init -y" ++ nl ++
  "npm install @openai/codex-sdk".

(** The remediation text of the last branch; [diag] stands for the lines
    listing the provider, the home directory and the dependency paths.  The
    characters of the source text that are beyond 255 stand here as their
    UTF-8 bytes. *)
Definition remediation (codex : bool) (diag : string) : string :=
  "⚠️ " ++ (if codex then "Codex SDK" else "Claude Code SDK") ++
  " 未安装（或未被检测到），当前无法提问/获取回复。" ++ nl ++ nl ++
  "你可以在插件设置里打开「SDK 依赖」并点击安装；或者手动执行：" ++ nl ++
  "```bash" ++ nl ++ (if codex then codexManual else claudeManual) ++ nl ++
  "```" ++ nl ++
  "诊断信息：" ++ nl ++ diag ++ nl ++ nl ++
  "安装完成后回到面板重试即可。".

(** How a call of the handler ends: normally, or with the [TypeError] of
    the [catch] block escaping to the router. *)
Inductive completion := Completed | Escaped.

(** The [catch] block: an inline error chunk. *)
Definition catchBlock (r : Request) (e : thrown) : option (list line) :=
  match e with
  | ThrownWithMessage message =>
      Some [LEnvelope (mkEnvelope "streamChunk"
                         (PDelta (errorDelta message) (sessionId r)) (rid r))]
  | ThrownNullish => None
  end.

(** The body of the [try] statement together with its [catch]: the lines
    written, or [None] when the [catch] block itself throws. *)
Definition tryBlock (r : Request) (env : Env) : list line * bool :=
  let codex := isCodexProvider r env in
  if negb codex && claudeSdkAvailable env then
    let '(st, lines) :=
      intercept (streamingEnabled env) (thinkingEnabled env) r
                (mkCapture "" None false) (claudeOutputs (claudeRun env)) in
    match claudeOutcome (claudeRun env) with
    | Returned =>
        let final :=
          if negb (streamingEnabled env)
             && negb (String.eqb (bufferedContent st) "")
          then [LEnvelope (mkEnvelope "streamChunk"
                  (PDelta (JStr (bufferedContent st)) (sessionId r)) (rid r))]
          else
            match capturedStructuredError st with
            | Some err =>
                if negb (streamingEnabled env)
                   && negb (String.eqb err "")
                   && negb (structuredErrorEmitted st)
                then [LEnvelope (mkEnvelope "streamChunk"
                        (PDelta (errorDelta err) (sessionId r)) (rid r))]
                else []
            | None => []
            end in
        ((lines ++ final)%list, true)
    | Threw e =>
        match catchBlock r e with
        | Some chunk => ((lines ++ chunk)%list, true)
        | None => (lines, false)
        end
    end
  else if codex && codexSdkAvailable env then
    let lines := LRaw <$> codexLines (codexRun env) in
    match codexOutcome (codexRun env) with
    | Returned => (lines, true)
    | Threw e =>
        match catchBlock r e with
        | Some chunk => ((lines ++ chunk)%list, true)
        | None => (lines, false)
        end
    end
  else
    ([LEnvelope (mkEnvelope "streamChunk"
        (PDelta (JStr (remediation codex (diagnostics env))) (sessionId r))
        (rid r))], true).

Definition streamStart (r : Request) : line :=
  LEnvelope (mkEnvelope "streamStart" (PSession (sessionId r)) (rid r)).

Definition streamEnd (r : Request) : line :=
  LEnvelope (mkEnvelope "streamEnd" (PSession (sessionId r)) (rid r)).

(** The lines the call writes to the standard output, and how it ends. *)
Definition handleSendMessage (r : Request) (env : Env)
  : list line * completion :=
  let '(middle, caught) := tryBlock r env in
  if caught then ((streamStart r :: middle ++ [streamEnd r])%list, Completed)
  else ((streamStart r :: middle)%list, Escaped).

(** ** The shape of a reply stream *)













(** ** Runs of the Claude branch *)

Definition dq : string := String "034" EmptyString.

(** The SDK prints a text delta and then the assistant message. *)
Definition assistantMessage : json :=
  JObj {[ "type" := JStr "assistant";
          "message" := JObj {[ "content" := JArr [JObj {[ "type" := JStr "text";
                                                        "text" := JStr "hello" ]}] ]} ]}.

Definition assistantMessageText : string :=
  "[MESSAGE] {" ++ dq ++ "type" ++ dq ++ ":" ++ dq ++ "assistant" ++ dq ++ ","
  ++ dq ++ "message" ++ dq ++ ":{" ++ dq ++ "content" ++ dq ++ ":[{"
  ++ dq ++ "type" ++ dq ++ ":" ++ dq ++ "text" ++ dq ++ ","
  ++ dq ++ "text" ++ dq ++ ":" ++ dq ++ "hello" ++ dq ++ "}]}}".

Definition sampleRequest : Request :=
  mkRequest (Some "s1") (Some "claude") (Some "req-1").

Definition sampleEnv (available : bool) (result : outcome) : Env :=
  mkEnv "claude" true true available false
    (mkClaudeRun [mkOutput "[CONTENT] hello" None;
                  mkOutput assistantMessageText (Some assistantMessage)]
                 result)
    (mkCodexRun [] Returned)
    "- provider: claude".






(** A thrown error is reported inline and [streamEnd] still follows. *)
Example sample_stream_error :
  handleSendMessage sampleRequest
    (sampleEnv true (Threw (ThrownWithMessage "boom")))
  = ([streamStart sampleRequest;
      LEnvelope (mkEnvelope "streamChunk"
                   (PDelta (JStr "hello") (Some "s1")) (Some "req-1"));
      LEnvelope (mkEnvelope "messageUpdate"
                   (PMessage assistantMessage (Some "s1")) (Some "req-1"));
      LEnvelope (mkEnvelope "streamChunk"
                   (PDelta (errorDelta "boom") (Some "s1")) (Some "req-1"));
      streamEnd sampleRequest], Completed).
Proof. vm_compute. reflexivity. Qed.

End Stream.


(* ===================================================================== *)
(** * TOML documents (ai-bridge/utils/toml-utils.js)                      *)
(* ===================================================================== *)

Module Toml.

(** Texts are strings of code units below 256; the functions below are the
    string methods the module uses.  [trim] removes the white space of
    ECMAScript in that range: TAB, LF, VT, FF, CR, space and the no-break
    space. *)
Abbreviation text := (list ascii).

Definition lit (s : string) : text := list_ascii_of_string s.

Definition cBackslash : ascii := "\"%char.
Definition cQuote : ascii := "034"%char.
Definition cApostrophe : ascii := "'"%char.
Definition cNewline : ascii := "010"%char.
Definition cTab : ascii := "009"%char.
Definition cReturn : ascii := "013"%char.

Definition isWhitespace (c : ascii) : bool :=
  match nat_of_ascii c with
  | 9 | 10 | 11 | 12 | 13 | 32 | 160 => true
  | _ => false
  end%nat.

Fixpoint trimStart (s : text) : text :=
  match s with
  | c :: rest => if isWhitespace c then trimStart rest else s
  | [] => []
  end.

Definition trimEnd (s : text) : text := reverse (trimStart (reverse s)).

Definition trim (s : text) : text := trimEnd (trimStart s).

Definition startsWith (c : ascii) (s : text) : bool :=
  match s with
  | x :: _ => Ascii.eqb x c
  | [] => false
  end.

Definition endsWith (c : ascii) (s : text) : bool :=
  match last s with
  | Some x => Ascii.eqb x c
  | None => false
  end.

(** [s.slice(1, -1)]. *)
Definition sliceInner (s : text) : text := removelast (tail s).

(** [s.indexOf(c)], [None] for -1. *)
Fixpoint indexOf (c : ascii) (s : text) : option nat :=
  match s with
  | [] => None
  | x :: rest =>
      if Ascii.eqb x c then Some O else S <$> indexOf c rest
  end.

(** [s.split(c)]. *)
Fixpoint splitOn (c : ascii) (s : text) : list text :=
  match s with
  | [] => [[]]
  | x :: rest =>
      if Ascii.eqb x c then [] :: splitOn c rest
      else
        match splitOn c rest with
        | piece :: pieces => (x :: piece) :: pieces
        | [] => [[x]]
        end
  end.

(** [parts.join(sep)]. *)
Fixpoint joinWith (sep : text) (parts : list text) : text :=
  match parts with
  | [] => []
  | [p] => p
  | p :: rest => p ++ sep ++ joinWith sep rest
  end.

(** ** Escaping *)

(** [value.replace(/c/g, by)]. *)
Definition replaceAll (c : ascii) (by_ : text) (value : text) : text :=
  flat_map (λ x, if Ascii.eqb x c then by_ else [x]) value.

Definition escapeTomlString (value : text) : text :=
  replaceAll cReturn [cBackslash; "r"%char]
    (replaceAll cTab [cBackslash; "t"%char]
       (replaceAll cNewline [cBackslash; "n"%char]
          (replaceAll cQuote [cBackslash; cQuote]
             (replaceAll cBackslash [cBackslash; cBackslash] value)))).

(** The [switch] of [unescapeTomlString]. *)
Definition unescapeChar (ch : ascii) : text :=
  if Ascii.eqb ch "n" then [cNewline]
  else if Ascii.eqb ch "t" then [cTab]
  else if Ascii.eqb ch "r" then [cReturn]
  else if Ascii.eqb ch cBackslash then [cBackslash]
  else if Ascii.eqb ch cQuote then [cQuote]
  else if Ascii.eqb ch cApostrophe then [cApostrophe]
  else [cBackslash; ch].

Fixpoint unescapeFrom (escaped : bool) (value : text) : text :=
  match value with
  | [] => if escaped then [cBackslash] else []
  | ch :: rest =>
      if escaped then unescapeChar ch ++ unescapeFrom false rest
      else if Ascii.eqb ch cBackslash then unescapeFrom true rest
      else ch :: unescapeFrom false rest
  end.

Definition unescapeTomlString (value : text) : text := unescapeFrom false value.

(** ** Numbers *)

(** [String(n)] for an integer. *)
Definition numberToText (n : Z) : text :=
  lit (NilEmpty.string_of_int (Z.to_int n)).

(** [Number(s)] on a text without surrounding white space: exact on the
    decimal numerals of safe integers, which is all that [String(n)] writes
    for them; [None] stands for [NaN].  Fractions, exponents, radix prefixes
    and [Infinity] are outside the model and read as [NaN]. *)
Definition digitsToZ (s : text) : option Z :=
  match s with
  | [] => None
  | _ => Z.of_uint <$> NilEmpty.uint_of_string (string_of_list_ascii s)
  end.

Definition Number (s : text) : option Z :=
  match s with
  | [] => Some 0
  | c :: rest =>
      if Ascii.eqb c "-" then Z.opp <$> digitsToZ rest
      else if Ascii.eqb c "+" then digitsToZ rest
      else digitsToZ s
  end.

(** ** Values *)

(** A configuration as [generateToml] receives it: the entries of an object
    in the order of [Object.entries]. *)
#[warnings="-register-all"]
Inductive cfg :=
| CBool (b : bool)
| CNum (n : Z)
| CStr (s : text)
| CArr (l : list cfg)
| CTab (entries : list (text * cfg)).

(** A parsed document: objects as finite maps. *)
#[warnings="-register-all"]
Inductive tval :=
| TBool (b : bool)
| TNum (n : Z)
| TStr (s : text)
| TArr (l : list tval)
| TTab (m : gmap text tval).

(** The value a configuration stands for, with objects compared as maps. *)
Fixpoint denote (v : cfg) : tval :=
  match v with
  | CBool b => TBool b
  | CNum n => TNum n
  | CStr s => TStr s
  | CArr l => TArr (map denote l)
  | CTab entries =>
      TTab (list_to_map (map (λ kv, (kv.1, denote kv.2)) entries))
  end.

Definition denoteEntries (entries : list (text * cfg)) : gmap text tval :=
  list_to_map (map (λ kv, (kv.1, denote kv.2)) entries).

(** [typeof value === 'object' && !Array.isArray(value)] (no [null] here). *)
Definition isTable (v : cfg) : bool :=
  match v with
  | CTab _ => true
  | _ => false
  end.

(** ** Generation *)

Fixpoint toTomlValue (value : cfg) : text :=
  match value with
  | CBool b => if b then lit "true" else lit "false"
  | CNum n => numberToText n
  | CArr l => lit "[" ++ joinWith (lit ", ") (map toTomlValue l) ++ lit "]"
  | CTab entries =>
      lit "{ " ++
      joinWith (lit ", ")
        (map (λ kv, [cQuote] ++ escapeTomlString kv.1 ++ [cQuote] ++ lit " = "
                    ++ toTomlValue kv.2) entries)
      ++ lit " }"
  | CStr s => [cQuote] ++ escapeTomlString s ++ [cQuote]
  end.

Definition assignmentLine (kv : text * cfg) : text :=
  kv.1 ++ lit " = " ++ toTomlValue kv.2.

Definition simpleEntries (entries : list (text * cfg)) : list (text * cfg) :=
  filter (λ kv, isTable kv.2 = false) entries.

Definition nestedEntries (entries : list (text * cfg)) : list (text * cfg) :=
  filter (λ kv, isTable kv.2 = true) entries.

(** [writeTomlSection(lines, sectionPath, section)]: the lines it pushes. *)
Fixpoint writeTomlSection (sectionPath : text) (section : cfg) : list text :=
  match section with
  | CTab entries =>
      (match simpleEntries entries with
       | [] => []
       | simple => (lit "[" ++ sectionPath ++ lit "]")
                     :: map assignmentLine simple
       end)
      ++ flat_map (λ kv, if isTable kv.2
                         then writeTomlSection (sectionPath ++ lit "." ++ kv.1) kv.2
                         else [])
                  entries
  | _ => []
  end.

Definition generateLines (config : list (text * cfg)) : list text :=
  map assignmentLine (simpleEntries config)
  ++ flat_map (λ kv, if isTable kv.2 then writeTomlSection kv.1 kv.2 else [])
              config.

(** [lines.join('\n') + (lines.length ? '\n' : '')]. *)
Definition generateToml (config : list (text * cfg)) : text :=
  match generateLines config with
  | [] => []
  | lines => joinWith [cNewline] lines ++ [cNewline]
  end.

(** ** Parsing *)

Record SplitState := mkSplit {
  pieces : list text;
  current : text;
  depth : Z;
  inDouble : bool;
  inSingle : bool;
  escaped : bool;
}.

Definition isOpen (ch : ascii) : bool :=
  Ascii.eqb ch "[" || Ascii.eqb ch "{".

Definition isClose (ch : ascii) : bool :=
  Ascii.eqb ch "]" || Ascii.eqb ch "}".

(** The body of the loop of [splitTomlElements]. *)
Definition splitStep (delimiter : ascii) (st : SplitState) (ch : ascii)
  : SplitState :=
  let keep := current st ++ [ch] in
  if escaped st then
    mkSplit (pieces st) keep (depth st) (inDouble st) (inSingle st) false
  else if Ascii.eqb ch cBackslash then
    mkSplit (pieces st) keep (depth st) (inDouble st) (inSingle st) true
  else if Ascii.eqb ch cQuote && negb (inSingle st) then
    mkSplit (pieces st) keep (depth st) (negb (inDouble st)) (inSingle st) false
  else if Ascii.eqb ch cApostrophe && negb (inDouble st) then
    mkSplit (pieces st) keep (depth st) (inDouble st) (negb (inSingle st)) false
  else if negb (inDouble st) && negb (inSingle st) then
    if isOpen ch then
      mkSplit (pieces st) keep (depth st + 1) false false false
    else if isClose ch then
      mkSplit (pieces st) keep (depth st - 1) false false false
    else if Ascii.eqb ch delimiter && (depth st =? 0) then
      mkSplit (pieces st ++ [current st]) [] (depth st) false false false
    else
      mkSplit (pieces st) keep (depth st) false false false
  else
    mkSplit (pieces st) keep (depth st) (inDouble st) (inSingle st) false.

Definition splitFinish (st : SplitState) : list text :=
  match current st with
  | [] => pieces st
  | cur => pieces st ++ [cur]
  end.

Definition splitTomlElements (content : text) (delimiter : ascii)
  : list text :=
  splitFinish (foldl (splitStep delimiter) (mkSplit [] [] 0 false false false)
                     content).

Definition nonEmptyText (s : text) : bool :=
  match s with
  | [] => false
  | _ => true
  end.

Definition quoted (s : text) : bool :=
  (startsWith cQuote s && endsWith cQuote s)
  || (startsWith cApostrophe s && endsWith cApostrophe s).

(** One pair of an inline table: [None] when it is skipped
    ([eqIndex <= 0]). *)
Definition splitPair (pair : text) : option (text * text) :=
  let trimmed := trim pair in
  match indexOf "=" trimmed with
  | Some (S n) =>
      let key := trim (take (S n) trimmed) in
      let valueStr := trim (drop (S (S n)) trimmed) in
      Some (if quoted key then sliceInner key else key, valueStr)
  | _ => None
  end.

(** [parseTomlValue] with its two helpers.  The recursion of the source is
    on pieces of the text; [fuel] bounds its depth and [None] is an
    exhausted bound. *)
Fixpoint parseTomlValueFuel (fuel : nat) (valueStr : text) : option tval :=
  match fuel with
  | O => None
  | S fuel' =>
      if negb (nonEmptyText valueStr) then Some (TStr [])
      else if bool_decide (valueStr = lit "true") then Some (TBool true)
      else if bool_decide (valueStr = lit "false") then Some (TBool false)
      else if startsWith "[" valueStr && endsWith "]" valueStr then
        (* parseTomlArray *)
        let content := trim (sliceInner valueStr) in
        if negb (nonEmptyText content) then Some (TArr [])
        else
          TArr <$> mapM (parseTomlValueFuel fuel')
                     (filter (λ e, nonEmptyText e = true)
                        (map trim (splitTomlElements content ",")))
      else if startsWith "{" valueStr && endsWith "}" valueStr then
        (* parseTomlInlineTable *)
        let content := trim (sliceInner valueStr) in
        if negb (nonEmptyText content) then Some (TTab ∅)
        else
          TTab <$>
            foldl (λ result pair,
                     m ← result;
                     match splitPair pair with
                     | Some (key, valueStr') =>
                         v ← parseTomlValueFuel fuel' valueStr';
                         Some (<[key := v]> m)
                     | None => Some m
                     end)
                  (Some ∅) (splitTomlElements content ",")
      else if quoted valueStr then
        Some (TStr (unescapeTomlString (sliceInner valueStr)))
      else
        match Number valueStr with
        | Some num => Some (TNum num)
        | None => Some (TStr valueStr)
        end
  end.

Definition parseTomlValue (valueStr : text) : option tval :=
  parseTomlValueFuel (S (length valueStr)) valueStr.

(** The object [currentSection] refers to is the one found along the path
    of the last section header. *)
Record ParseState := mkParse {
  root : gmap text tval;
  currentSection : list text;
}.

(** The child a header descends into: an object is kept, a falsy or scalar
    member is replaced by [{}]; an array would be descended into as an
    object, which is outside the model ([None]). *)
Definition childTable (v : option tval) : option (gmap text tval) :=
  match v with
  | Some (TTab c) => Some c
  | Some (TArr _) => None
  | _ => Some ∅
  end.

Fixpoint ensurePath (parts : list text) (m : gmap text tval)
  : option (gmap text tval) :=
  match parts with
  | [] => Some m
  | p :: ps =>
      c ← childTable (m !! p);
      c' ← ensurePath ps c;
      Some (<[p := TTab c']> m)
  end.

(** [currentSection[key] = value]. *)
Fixpoint assignAt (parts : list text) (key : text) (value : tval)
    (m : gmap text tval) : gmap text tval :=
  match parts with
  | [] => <[key := value]> m
  | p :: ps =>
      match m !! p with
      | Some (TTab c) => <[p := TTab (assignAt ps key value c)]> m
      | _ => m
      end
  end.

(** The body of the loop of [parseToml]. *)
Definition parseLine (st : ParseState) (rawLine : text) : option ParseState :=
  let line := trim rawLine in
  if negb (nonEmptyText line) || startsWith "#" line then Some st
  else if startsWith "[" line && endsWith "]" line then
    let sectionName := trim (sliceInner line) in
    let parts := splitOn "." sectionName in
    r ← ensurePath parts (root st);
    Some (mkParse r parts)
  else
    match indexOf "=" line with
    | Some (S n) =>
        let key := trim (take (S n) line) in
        let valueStr := trim (drop (S (S n)) line) in
        v ← parseTomlValue valueStr;
        Some (mkParse (assignAt (currentSection st) key v (root st))
                      (currentSection st))
    | _ => Some st
    end.

Definition parseLines (lines : list text) (st : ParseState)
  : option ParseState :=
  foldl (λ acc line, st' ← acc; parseLine st' line) (Some st) lines.

Definition parseToml (content : text) : option (gmap text tval) :=
  root <$> parseLines (splitOn cNewline content) (mkParse ∅ []).

(** ** Texts: basic facts *)

(** A text that begins and ends with a character that is not white
    space. *)
Definition solid (s : text) : Prop :=
  (∃ c rest, s = c :: rest ∧ isWhitespace c = false) ∧
  (∃ d, last s = Some d ∧ isWhitespace d = false).

Lemma trimStart_solid (s : text) : solid s → trimStart s = s.
Proof. intros [(c & rest & -> & Hc) _]. simpl. by rewrite Hc. Qed.

Lemma trimEnd_solid (s : text) : solid s → trimEnd s = s.
Proof.
  intros [_ (d & Hd & Hw)]. unfold trimEnd.
  apply last_Some in Hd as [front ->].
  rewrite reverse_snoc. simpl. rewrite Hw.
  by rewrite <- reverse_snoc, reverse_involutive.
Qed.

Lemma trim_solid (s : text) : solid s → trim s = s.
Proof.
  intros Hs. unfold trim. rewrite (trimStart_solid s Hs).
  by apply trimEnd_solid.
Qed.

Lemma trim_space_solid (s : text) : solid s → trim (" "%char :: s) = s.
Proof. intros Hs. unfold trim. simpl. by apply trim_solid. Qed.

Lemma trimEnd_snoc_space (s : text) : trimEnd (s ++ [" "%char]) = trimEnd s.
Proof. unfold trimEnd. by rewrite reverse_snoc. Qed.

Lemma trim_solid_space (s : text) : solid s → trim (s ++ [" "%char]) = s.
Proof.
  intros Hs. unfold trim.
  destruct Hs as [(c & rest & -> & Hc) Hl]. simpl. rewrite Hc.
  change (c :: rest ++ [" "%char]) with ((c :: rest) ++ [" "%char]).
  rewrite trimEnd_snoc_space. apply trimEnd_solid.
  split; [by eexists _, _|done].
Qed.

Lemma solid_app (s t : text) : solid s → solid t → solid (s ++ t).
Proof.
  intros [(c & rest & -> & Hc) _] [(c' & rest' & -> & _) (d & Hd & Hw)].
  split.
  - by eexists _, _.
  - exists d. split; [|done]. rewrite last_app. by rewrite Hd.
Qed.

Lemma solid_wrap (c d : ascii) (m : text) :
  isWhitespace c = false → isWhitespace d = false → solid (c :: m ++ [d]).
Proof.
  intros Hc Hd. split; [by eexists _, _|].
  exists d. split; [|done].
  change (c :: m ++ [d]) with ((c :: m) ++ [d]). by rewrite last_snoc.
Qed.

Lemma solid_nonEmpty (s : text) : solid s → nonEmptyText s = true.
Proof. by intros [(c & rest & -> & _) _]. Qed.

Lemma sliceInner_wrap (c d : ascii) (m : text) :
  sliceInner (c :: m ++ [d]) = m.
Proof. unfold sliceInner. simpl. apply removelast_last. Qed.

Lemma startsWith_cons (c x : ascii) (s : text) :
  startsWith c (x :: s) = Ascii.eqb x c.
Proof. reflexivity. Qed.

Lemma endsWith_snoc (c x : ascii) (s : text) :
  endsWith c (s ++ [x]) = Ascii.eqb x c.
Proof. unfold endsWith. by rewrite last_snoc. Qed.

Lemma endsWith_wrap (c x y : ascii) (m : text) :
  endsWith c (x :: m ++ [y]) = Ascii.eqb y c.
Proof.
  change (x :: m ++ [y]) with ((x :: m) ++ [y]). apply endsWith_snoc.
Qed.

Lemma indexOf_app (c : ascii) (k rest : text) :
  c ∉ k → indexOf c (k ++ c :: rest) = Some (length k).
Proof.
  induction k as [|x k IH]; intros Hk; simpl.
  - by rewrite Ascii.eqb_refl.
  - apply not_elem_of_cons in Hk as [Hx Hk].
    destruct (Ascii.eqb_spec x c) as [->|_]; [done|].
    by rewrite (IH Hk).
Qed.

Lemma splitOn_nil_free (c : ascii) (k : text) : c ∉ k → splitOn c k = [k].
Proof.
  induction k as [|x k IH]; intros Hk; simpl; [done|].
  apply not_elem_of_cons in Hk as [Hx Hk].
  destruct (Ascii.eqb_spec x c) as [->|_]; [done|]. by rewrite (IH Hk).
Qed.

Lemma splitOn_app (c : ascii) (k rest : text) :
  c ∉ k → splitOn c (k ++ c :: rest) = k :: splitOn c rest.
Proof.
  induction k as [|x k IH]; intros Hk; simpl.
  - by rewrite Ascii.eqb_refl.
  - apply not_elem_of_cons in Hk as [Hx Hk].
    destruct (Ascii.eqb_spec x c) as [->|_]; [done|]. by rewrite (IH Hk).
Qed.

(** Lines that hold no newline are what [split] finds again. *)
Lemma splitOn_lines (lines : list text) :
  Forall (λ l, cNewline ∉ l) lines →
  splitOn cNewline (mjoin (map (λ l, l ++ [cNewline]) lines)) = lines ++ [[]].
Proof.
  induction 1 as [|l lines Hl _ IH]; simpl; [done|].
  rewrite <- app_assoc. simpl. rewrite splitOn_app by done. by rewrite IH.
Qed.

Lemma joinWith_cons (sep p : text) (rest : list text) :
  rest ≠ [] → joinWith sep (p :: rest) = p ++ sep ++ joinWith sep rest.
Proof. by destruct rest. Qed.

Lemma joinWith_newline (lines : list text) :
  lines ≠ [] →
  joinWith [cNewline] lines ++ [cNewline]
  = mjoin (map (λ l, l ++ [cNewline]) lines).
Proof.
  induction lines as [|l [|l' rest] IH]; intros Hne; [done| |].
  - simpl. by rewrite app_nil_r.
  - rewrite joinWith_cons by done.
    assert (mjoin (map (λ l, l ++ [cNewline]) (l :: l' :: rest))
            = (l ++ [cNewline])
                ++ mjoin (map (λ l, l ++ [cNewline]) (l' :: rest))) as ->
      by reflexivity.
    rewrite <- IH by done. by rewrite <- !app_assoc.
Qed.

(** ** Escaping and unescaping *)

Definition escapeChar (c : ascii) : text :=
  if Ascii.eqb c cBackslash then [cBackslash; cBackslash]
  else if Ascii.eqb c cQuote then [cBackslash; cQuote]
  else if Ascii.eqb c cNewline then [cBackslash; "n"%char]
  else if Ascii.eqb c cTab then [cBackslash; "t"%char]
  else if Ascii.eqb c cReturn then [cBackslash; "r"%char]
  else [c].

(** The five replacements in sequence escape each character on its own. *)
Lemma escapeTomlString_cons (c : ascii) (s : text) :
  escapeTomlString (c :: s) = escapeChar c ++ escapeTomlString s.
Proof.
  unfold escapeTomlString, replaceAll.
  destruct c as [[] [] [] [] [] [] [] []]; reflexivity.
Qed.

Lemma escapeTomlString_nil : escapeTomlString [] = [].
Proof. reflexivity. Qed.

Lemma unescapeFrom_escapeChar (c : ascii) (t : text) :
  unescapeFrom false (escapeChar c ++ t) = c :: unescapeFrom false t.
Proof. destruct c as [[] [] [] [] [] [] [] []]; reflexivity. Qed.

Lemma unescape_escape (s : text) :
  unescapeTomlString (escapeTomlString s) = s.
Proof.
  unfold unescapeTomlString. induction s as [|c s IH]; [done|].
  rewrite escapeTomlString_cons, unescapeFrom_escapeChar. by rewrite IH.
Qed.

(** A key that escaping leaves as it is. *)
Definition plainChar (c : ascii) : bool :=
  negb (Ascii.eqb c cBackslash || Ascii.eqb c cQuote || Ascii.eqb c cNewline
        || Ascii.eqb c cTab || Ascii.eqb c cReturn).

Lemma escapeChar_plain (c : ascii) : plainChar c = true → escapeChar c = [c].
Proof. destruct c as [[] [] [] [] [] [] [] []]; (reflexivity || discriminate). Qed.

Lemma escape_plain (s : text) :
  Forall (λ c, plainChar c = true) s → escapeTomlString s = s.
Proof.
  induction 1 as [|c s Hc _ IH]; [done|].
  by rewrite escapeTomlString_cons, escapeChar_plain, IH.
Qed.

(** ** Numbers: printing and reading back *)

Definition isDigit (c : ascii) : bool :=
  match c with
  | "0" | "1" | "2" | "3" | "4" | "5" | "6" | "7" | "8" | "9" => true
  | _ => false
  end%char.

(** The characters of a printed integer. *)
Definition numericChar (c : ascii) : bool := isDigit c || Ascii.eqb c "-".

Lemma uint_digits (d : uint) :
  Forall (λ c, isDigit c = true) (lit (NilEmpty.string_of_uint d)).
Proof. induction d; simpl; constructor; done. Qed.

Lemma uint_nonnil_text (d : uint) :
  d ≠ Nil → lit (NilEmpty.string_of_uint d) ≠ [].
Proof. by destruct d. Qed.

Lemma digitsToZ_uint (d : uint) :
  d ≠ Nil → digitsToZ (lit (NilEmpty.string_of_uint d)) = Some (Z.of_uint d).
Proof.
  intros Hd. unfold digitsToZ.
  destruct (lit (NilEmpty.string_of_uint d)) eqn:Hl.
  { by apply uint_nonnil_text in Hl. }
  rewrite <- Hl. unfold lit.
  by rewrite string_of_list_ascii_of_string, NilEmpty.usu.
Qed.

Lemma of_uint_pos (p : positive) : Z.of_uint (Pos.to_uint p) = Z.pos p.
Proof. unfold Z.of_uint. by rewrite DecimalPos.Unsigned.of_to. Qed.

Lemma numberToText_pos (p : positive) :
  ∃ c rest, numberToText (Z.pos p) = c :: rest ∧ isDigit c = true ∧
            Forall (λ x, isDigit x = true) rest.
Proof.
  unfold numberToText. simpl.
  pose proof (uint_digits (Pos.to_uint p)) as Hall.
  pose proof (uint_nonnil_text _ (DecimalPos.Unsigned.to_uint_nonnil p)) as Hne.
  destruct (lit (NilEmpty.string_of_uint (Pos.to_uint p))) as [|c rest];
    [done|].
  apply Forall_cons in Hall as [Hc Hrest]. by eexists _, _.
Qed.

Lemma Number_numberToText (n : Z) : Number (numberToText n) = Some n.
Proof.
  destruct n as [|p|p].
  - reflexivity.
  - destruct (numberToText_pos p) as (c & rest & Heq & Hc & _).
    unfold Number. rewrite Heq.
    assert (Ascii.eqb c "-" = false ∧ Ascii.eqb c "+" = false) as [-> ->].
    { destruct c as [[] [] [] [] [] [] [] []]; try discriminate Hc; done. }
    rewrite <- Heq. unfold numberToText. simpl.
    rewrite digitsToZ_uint by apply DecimalPos.Unsigned.to_uint_nonnil.
    by rewrite of_uint_pos.
  - unfold numberToText, Number. simpl.
    rewrite digitsToZ_uint by apply DecimalPos.Unsigned.to_uint_nonnil.
    by rewrite of_uint_pos.
Qed.

(** A printed integer is not empty and made of digits and the sign. *)
Lemma numberToText_numeric (n : Z) :
  ∃ c rest, numberToText n = c :: rest ∧
            Forall (λ x, numericChar x = true) (c :: rest).
Proof.
  assert (∀ l, Forall (λ x, isDigit x = true) l →
               Forall (λ x, numericChar x = true) l) as Hweak.
  { intros l Hl. eapply Forall_impl; [exact Hl|].
    intros x Hx. unfold numericChar. by rewrite Hx. }
  destruct n as [|p|p].
  - exists "0"%char, []. split; [done|]. by repeat constructor.
  - destruct (numberToText_pos p) as (c & rest & Heq & Hc & Hrest).
    exists c, rest. split; [done|]. apply Hweak. by constructor.
  - exists "-"%char, (lit (NilEmpty.string_of_uint (Pos.to_uint p))).
    split; [done|]. constructor; [done|]. apply Hweak, uint_digits.
Qed.

(** ** The element splitter on generated text *)

Definition runSplit (st : SplitState) (s : text) : SplitState :=
  foldl (splitStep ",") st s.

Definition outside (res : list text) (cur : text) (d : Z) : SplitState :=
  mkSplit res cur d false false false.

(** A text the splitter reads through, outside quotes at depth [d] or
    deeper, without cutting and ending in the state it started from. *)
Definition absorbedFrom (low : Z) (e : text) : Prop :=
  ∀ res cur d, low ≤ d →
    runSplit (outside res cur d) e = outside res (cur ++ e) d.

Lemma absorbedFrom_weaken (low low' : Z) (e : text) :
  low ≤ low' → absorbedFrom low e → absorbedFrom low' e.
Proof. intros Hl He res cur d Hd. apply He. lia. Qed.

Lemma absorbedFrom_nil (low : Z) : absorbedFrom low [].
Proof. intros res cur d _. unfold runSplit. simpl. by rewrite app_nil_r. Qed.

Lemma absorbedFrom_app (low : Z) (a b : text) :
  absorbedFrom low a → absorbedFrom low b → absorbedFrom low (a ++ b).
Proof.
  intros Ha Hb res cur d Hd. unfold runSplit. rewrite foldl_app.
  fold (runSplit (outside res cur d) a). rewrite Ha by done.
  fold (runSplit (outside res (cur ++ a) d) b). rewrite Hb by done.
  by rewrite app_assoc.
Qed.

(** Characters that mean nothing to the splitter. *)
Definition inertChar (c : ascii) : bool :=
  negb (Ascii.eqb c cBackslash || Ascii.eqb c cQuote
        || Ascii.eqb c cApostrophe || isOpen c || isClose c
        || Ascii.eqb c ",").

Lemma splitStep_inert (res : list text) (cur : text) (d : Z) (c : ascii) :
  inertChar c = true →
  splitStep "," (outside res cur d) c = outside res (cur ++ [c]) d.
Proof.
  intros Hc. unfold splitStep, outside. simpl.
  destruct c as [[] [] [] [] [] [] [] []]; try discriminate Hc; reflexivity.
Qed.

Lemma absorbed_inert (low : Z) (s : text) :
  Forall (λ c, inertChar c = true) s → absorbedFrom low s.
Proof.
  induction 1 as [|c s Hc _ IH]; [apply absorbedFrom_nil|].
  intros res cur d Hd. unfold runSplit. simpl.
  rewrite splitStep_inert by done.
  fold (runSplit (outside res (cur ++ [c]) d) s). rewrite IH by done.
  by rewrite <- app_assoc.
Qed.

(** A comma below the top level is kept. *)
Lemma absorbed_separator : absorbedFrom 1 (lit ", ").
Proof.
  intros res cur d Hd. unfold runSplit, splitStep, outside. simpl.
  assert ((d =? 0) = false) as -> by lia. simpl. by rewrite <- app_assoc.
Qed.

(** Inside double quotes, escaped text is read through. *)
Definition insideDouble (res : list text) (cur : text) (d : Z) : SplitState :=
  mkSplit res cur d true false false.

Lemma runSplit_escapeChar (res : list text) (cur : text) (d : Z) (c : ascii) :
  runSplit (insideDouble res cur d) (escapeChar c)
  = insideDouble res (cur ++ escapeChar c) d.
Proof.
  unfold runSplit, splitStep, insideDouble.
  destruct c as [[] [] [] [] [] [] [] []]; simpl;
    rewrite <- ?app_assoc; reflexivity.
Qed.

Lemma runSplit_escaped (s : text) (res : list text) (cur : text) (d : Z) :
  runSplit (insideDouble res cur d) (escapeTomlString s)
  = insideDouble res (cur ++ escapeTomlString s) d.
Proof.
  revert cur. induction s as [|c s IH]; intros cur.
  - rewrite escapeTomlString_nil. unfold runSplit. simpl. by rewrite app_nil_r.
  - rewrite escapeTomlString_cons. unfold runSplit. rewrite foldl_app.
    fold (runSplit (insideDouble res cur d) (escapeChar c)).
    rewrite runSplit_escapeChar.
    fold (runSplit (insideDouble res (cur ++ escapeChar c) d)
                   (escapeTomlString s)).
    rewrite IH. by rewrite app_assoc.
Qed.

Lemma absorbed_quoted (low : Z) (s : text) :
  absorbedFrom low ([cQuote] ++ escapeTomlString s ++ [cQuote]).
Proof.
  intros res cur d _. unfold runSplit. simpl. rewrite foldl_app.
  change (splitStep "," (outside res cur d) cQuote)
    with (insideDouble res (cur ++ [cQuote]) d).
  fold (runSplit (insideDouble res (cur ++ [cQuote]) d) (escapeTomlString s)).
  rewrite runSplit_escaped. simpl. unfold splitStep, insideDouble, outside.
  simpl. by rewrite <- !app_assoc.
Qed.

Lemma absorbed_joined (low : Z) (parts : list text) :
  1 ≤ low → Forall (absorbedFrom low) parts →
  absorbedFrom low (joinWith (lit ", ") parts).
Proof.
  intros Hlow. induction 1 as [|p parts Hp Hparts IH].
  - apply absorbedFrom_nil.
  - destruct parts as [|p' rest]; [done|].
    rewrite joinWith_cons by done.
    apply absorbedFrom_app; [done|].
    apply absorbedFrom_app; [|done].
    by apply (absorbedFrom_weaken 1), absorbed_separator.
Qed.

(** Text between brackets is read one level deeper. *)
Lemma absorbed_bracketed (opening closing : ascii) (inner : text) :
  isOpen opening = true → isClose closing = true →
  absorbedFrom 1 inner →
  absorbedFrom 0 ([opening] ++ inner ++ [closing]).
Proof.
  intros Ho Hc Hin res cur d Hd. unfold runSplit. simpl.
  rewrite foldl_app.
  assert (splitStep "," (outside res cur d) opening
          = outside res (cur ++ [opening]) (d + 1)) as ->.
  { unfold isOpen in Ho. unfold splitStep, outside. simpl.
    destruct opening as [[] [] [] [] [] [] [] []]; try discriminate Ho;
      reflexivity. }
  fold (runSplit (outside res (cur ++ [opening]) (d + 1)) inner).
  rewrite Hin by lia. simpl.
  assert (splitStep "," (outside res ((cur ++ [opening]) ++ inner) (d + 1))
                    closing
          = outside res (((cur ++ [opening]) ++ inner) ++ [closing]) (d + 1 - 1))
    as ->.
  { unfold isClose in Hc. unfold splitStep, outside. simpl.
    destruct closing as [[] [] [] [] [] [] [] []]; try discriminate Hc;
      reflexivity. }
  replace (d + 1 - 1) with d by lia. by rewrite <- !app_assoc.
Qed.

(** At the top level the splitter cuts at every separator and leaves the
    blank after the comma at the head of the next piece. *)
Lemma split_joined (es : list text) :
  ∀ (e : text) (res : list text) (cur : text),
    Forall (absorbedFrom 0) (e :: es) →
    Forall (λ x, x ≠ []) (e :: es) →
    splitFinish (runSplit (outside res cur 0) (joinWith (lit ", ") (e :: es)))
    = res ++ [cur ++ e] ++ map (λ x, " "%char :: x) es.
Proof.
  induction es as [|e' es IH]; intros e res cur Habs Hne.
  - apply Forall_cons in Habs as [He _]. apply Forall_cons in Hne as [Hn _].
    simpl joinWith. rewrite He by done. unfold splitFinish, outside. simpl.
    destruct (cur ++ e) eqn:Hce; [|done].
    apply app_eq_nil in Hce as [_ ->]. done.
  - apply Forall_cons in Habs as [He Habs].
    apply Forall_cons in Hne as [Hn Hne].
    rewrite joinWith_cons by done.
    unfold runSplit. rewrite foldl_app.
    fold (runSplit (outside res cur 0) e). rewrite He by done.
    assert (foldl (splitStep ",") (outside res (cur ++ e) 0)
              (lit ", " ++ joinWith (lit ", ") (e' :: es))
            = runSplit (outside (res ++ [cur ++ e]) [" "%char] 0)
                (joinWith (lit ", ") (e' :: es))) as -> by reflexivity.
    rewrite (IH e' _ _ Habs Hne). simpl. by rewrite <- app_assoc.
Qed.

Lemma splitTomlElements_joined (e : text) (es : list text) :
  Forall (absorbedFrom 0) (e :: es) →
  Forall (λ x, x ≠ []) (e :: es) →
  splitTomlElements (joinWith (lit ", ") (e :: es)) ","
  = e :: map (λ x, " "%char :: x) es.
Proof.
  intros Habs Hne. unfold splitTomlElements.
  change (foldl (splitStep ",") (mkSplit [] [] 0 false false false)
            (joinWith (lit ", ") (e :: es)))
    with (runSplit (outside [] [] 0) (joinWith (lit ", ") (e :: es))).
  by rewrite split_joined.
Qed.

(** ** Generated values *)

(** Induction on configurations through their lists. *)
Lemma cfg_ind' (P : cfg → Prop) :
  (∀ b, P (CBool b)) → (∀ n, P (CNum n)) → (∀ s, P (CStr s)) →
  (∀ l, Forall P l → P (CArr l)) →
  (∀ entries, Forall (λ kv, P kv.2) entries → P (CTab entries)) →
  ∀ v, P v.
Proof.
  intros Hb Hn Hs Ha Ht. fix IH 1. intros [b|n|s|l|entries].
  - apply Hb.
  - apply Hn.
  - apply Hs.
  - apply Ha. induction l as [|x l IHl]; constructor; [apply IH|apply IHl].
  - apply Ht. induction entries as [|[k x] entries IHl]; constructor;
      [apply IH|apply IHl].
Qed.

(** One pair of an inline table as [toTomlValue] writes it. *)
Definition pairText (kv : text * cfg) : text :=
  [cQuote] ++ escapeTomlString kv.1 ++ [cQuote] ++ lit " = "
  ++ toTomlValue kv.2.

Lemma toTomlValue_arr (l : list cfg) :
  toTomlValue (CArr l)
  = ["["%char] ++ joinWith (lit ", ") (map toTomlValue l) ++ ["]"%char].
Proof. reflexivity. Qed.

Lemma toTomlValue_tab (entries : list (text * cfg)) :
  toTomlValue (CTab entries)
  = ["{"%char] ++ (" "%char :: joinWith (lit ", ") (map pairText entries)
                   ++ [" "%char]) ++ ["}"%char].
Proof.
  simpl. unfold pairText. simpl. f_equal. f_equal.
  by rewrite <- app_assoc.
Qed.

Lemma numeric_inert (c : ascii) : numericChar c = true → inertChar c = true.
Proof. destruct c as [[] [] [] [] [] [] [] []]; (reflexivity || discriminate). Qed.

Lemma numeric_not_space (c : ascii) :
  numericChar c = true → isWhitespace c = false.
Proof. destruct c as [[] [] [] [] [] [] [] []]; (reflexivity || discriminate). Qed.

Lemma joined_solid (sep : text) (parts : list text) :
  parts ≠ [] → Forall solid parts → solid (joinWith sep parts).
Proof.
  intros Hne Hall. induction Hall as [|p parts Hp Hparts IH]; [done|].
  destruct parts as [|p' rest]; [done|].
  rewrite joinWith_cons by done.
  specialize (IH ltac:(done)).
  destruct Hp as [(c & r & -> & Hc) _]. destruct IH as [_ (d & Hd & Hw)].
  split; [by eexists _, _|]. exists d. split; [|done].
  rewrite !last_app. by rewrite Hd.
Qed.

(** Every generated value begins and ends with a visible character. *)
Lemma toTomlValue_solid (v : cfg) : solid (toTomlValue v).
Proof.
  destruct v as [[]|n|s|l|entries].
  - by apply (solid_wrap "t"%char "e"%char (lit "ru")).
  - by apply (solid_wrap "f"%char "e"%char (lit "als")).
  - simpl. destruct (numberToText_numeric n) as (c & rest & -> & Hall).
    split.
    + exists c, rest. split; [done|].
      apply Forall_cons in Hall as [Hc _]. by apply numeric_not_space.
    + destruct (last (c :: rest)) as [d|] eqn:Hd;
        [|by apply last_None in Hd].
      exists d. split; [done|]. apply numeric_not_space.
      rewrite Forall_forall in Hall. apply Hall.
      apply last_Some in Hd as [front ->]. set_solver.
  - by apply (solid_wrap cQuote cQuote).
  - rewrite toTomlValue_arr. by apply (solid_wrap "["%char "]"%char).
  - rewrite toTomlValue_tab. by apply (solid_wrap "{"%char "}"%char).
Qed.

Lemma pairText_split (kv : text * cfg) :
  pairText kv
  = (cQuote :: escapeTomlString kv.1 ++ [cQuote])
      ++ lit " = " ++ toTomlValue kv.2.
Proof. unfold pairText. simpl. by rewrite <- app_assoc. Qed.

Lemma pairText_solid (kv : text * cfg) : solid (pairText kv).
Proof.
  rewrite pairText_split.
  destruct (toTomlValue_solid kv.2) as [_ (d & Hd & Hw)].
  split; [by eexists _, _|]. exists d. split; [|done].
  rewrite !last_app. by rewrite Hd.
Qed.

Lemma pair_absorbed (kv : text * cfg) :
  absorbedFrom 0 (toTomlValue kv.2) → absorbedFrom 0 (pairText kv).
Proof.
  intros Hx. rewrite pairText_split.
  apply absorbedFrom_app; [apply (absorbed_quoted 0 kv.1)|].
  apply absorbedFrom_app; [by apply absorbed_inert; repeat constructor|done].
Qed.

(** The splitter reads through every generated value. *)
Lemma toTomlValue_absorbed (v : cfg) : absorbedFrom 0 (toTomlValue v).
Proof.
  induction v as [[]|n|s|l IH|entries IH] using cfg_ind'.
  - by apply absorbed_inert; repeat constructor.
  - by apply absorbed_inert; repeat constructor.
  - simpl. destruct (numberToText_numeric n) as (c & rest & -> & Hall).
    apply absorbed_inert. eapply Forall_impl; [exact Hall|].
    apply numeric_inert.
  - apply absorbed_quoted.
  - rewrite toTomlValue_arr. apply absorbed_bracketed; [done..|].
    apply absorbed_joined; [done|]. apply Forall_map.
    eapply Forall_impl; [exact IH|]. intros x Hx.
    by apply (absorbedFrom_weaken 0).
  - rewrite toTomlValue_tab. apply absorbed_bracketed; [done..|].
    change (" "%char :: joinWith (lit ", ") (map pairText entries) ++ [" "%char])
      with ([" "%char] ++ joinWith (lit ", ") (map pairText entries)
            ++ [" "%char]).
    apply absorbedFrom_app; [by apply absorbed_inert; repeat constructor|].
    apply absorbedFrom_app; [|by apply absorbed_inert; repeat constructor].
    apply absorbed_joined; [done|]. apply Forall_map.
    eapply Forall_impl; [exact IH|]. intros kv Hx.
    apply (absorbedFrom_weaken 0); [done|]. by apply pair_absorbed.
Qed.

Lemma pairText_absorbed (kv : text * cfg) : absorbedFrom 0 (pairText kv).
Proof. apply pair_absorbed, toTomlValue_absorbed. Qed.

(** ** Reading a generated value back *)

(** A key of an inline table that is written and read back as it is:
    [toTomlValue] escapes it, [parseTomlInlineTable] only strips the quotes
    and cuts the pair at the first equals sign. *)
Definition inlineKeyChar (c : ascii) : bool :=
  plainChar c && negb (Ascii.eqb c "=").

(** [result[key] = value] defines an own property for every key but
    [__proto__]. *)
Definition ownKey (k : text) : bool :=
  negb (bool_decide (k = lit "__proto__")).

Definition inlineKey (k : text) : bool :=
  forallb inlineKeyChar k && ownKey k.

(** [String(n)] is the decimal numeral of [n], and [Number] reads it back,
    for the integers a number holds exactly. *)
Definition safeInteger (n : Z) : bool :=
  (Z.abs n <=? 9007199254740991)%Z.

(** Values below an array or an inline table. *)
Fixpoint wfInline (v : cfg) : bool :=
  match v with
  | CArr l => forallb wfInline l
  | CTab entries =>
      bool_decide (NoDup entries.*1)
      && forallb (λ kv, inlineKey kv.1 && wfInline kv.2) entries
  | CNum n => safeInteger n
  | _ => true
  end.

Fixpoint depthOf (v : cfg) : nat :=
  match v with
  | CArr l => S (foldr (λ x, Nat.max (depthOf x)) O l)
  | CTab entries => S (foldr (λ kv, Nat.max (depthOf kv.2)) O entries)
  | _ => O
  end.

Lemma depthOf_arr (l : list cfg) (x : cfg) :
  x ∈ l → (depthOf x < depthOf (CArr l))%nat.
Proof.
  simpl. induction 1 as [x l|x y l _ IH]; simpl; lia.
Qed.

Lemma depthOf_tab (entries : list (text * cfg)) (kv : text * cfg) :
  kv ∈ entries → (depthOf kv.2 < depthOf (CTab entries))%nat.
Proof.
  simpl. induction 1 as [x l|x y l _ IH]; simpl; lia.
Qed.

Lemma mapM_generated (f : text → option tval) (l : list cfg) :
  Forall (λ x, f (toTomlValue x) = Some (denote x)) l →
  mapM f (map toTomlValue l) = Some (map denote l).
Proof.
  induction 1 as [|x l Hx _ IH]; [done|].
  simpl. rewrite Hx. simpl. rewrite IH. done.
Qed.

Lemma trim_pieces (e : text) (es : list text) :
  Forall solid (e :: es) →
  filter (λ x, nonEmptyText x = true)
         (map trim (e :: map (λ x, " "%char :: x) es))
  = e :: es.
Proof.
  intros Hall.
  assert (map trim (e :: map (λ x, " "%char :: x) es) = e :: es) as ->.
  { apply Forall_cons in Hall as [He Hes]. simpl.
    rewrite (trim_solid e He). f_equal.
    induction Hes as [|x es Hx _ IH]; [done|].
    simpl. by rewrite (trim_space_solid x Hx), IH. }
  induction Hall as [|x l Hx _ IH]; [done|].
  rewrite filter_cons_True by by apply solid_nonEmpty. by rewrite IH.
Qed.

Lemma trim_both_spaces (s : text) :
  solid s → trim (" "%char :: s ++ [" "%char]) = s.
Proof. intros Hs. unfold trim. simpl. by apply trim_solid_space. Qed.

(** The characters at the head of a generated value decide the branch of
    [parseTomlValue]. *)
Lemma not_true (c : ascii) (rest : text) :
  c ≠ "t"%char → bool_decide (c :: rest = lit "true") = false.
Proof. intros Hc. apply bool_decide_eq_false. intros [= -> _]. done. Qed.

Lemma not_false (c : ascii) (rest : text) :
  c ≠ "f"%char → bool_decide (c :: rest = lit "false") = false.
Proof. intros Hc. apply bool_decide_eq_false. intros [= -> _]. done. Qed.

Lemma inlineKey_plain (k : text) :
  inlineKey k = true → Forall (λ c, plainChar c = true) k ∧ "="%char ∉ k.
Proof.
  unfold inlineKey. intros Hk. apply andb_true_iff in Hk as [Hk _].
  rewrite forallb_forall in Hk. split.
  - apply Forall_forall. intros c Hc. apply list_elem_of_In in Hc.
    specialize (Hk c Hc). unfold inlineKeyChar in Hk.
    by apply andb_true_iff in Hk as [? _].
  - intros Hin. apply list_elem_of_In in Hin. specialize (Hk _ Hin).
    unfold inlineKeyChar in Hk. by apply andb_true_iff in Hk as [_ ?].
Qed.

(** A pair of an inline table is cut into its key and its value. *)
Lemma splitPair_generated (kv : text * cfg) :
  inlineKey kv.1 = true →
  splitPair (pairText kv) = Some (kv.1, toTomlValue kv.2).
Proof.
  intros Hk. apply inlineKey_plain in Hk as [Hplain Heq].
  unfold splitPair. cbv zeta. rewrite (trim_solid _ (pairText_solid kv)).
  unfold pairText. rewrite (escape_plain _ Hplain).
  assert ([cQuote] ++ kv.1 ++ [cQuote] ++ lit " = " ++ toTomlValue kv.2
          = (cQuote :: kv.1 ++ [cQuote; " "%char])
              ++ "="%char :: " "%char :: toTomlValue kv.2) as ->.
  { simpl. by rewrite <- app_assoc. }
  rewrite indexOf_app.
  2:{ rewrite not_elem_of_cons, not_elem_of_app, !not_elem_of_cons.
      repeat split; try done. apply not_elem_of_nil. }
  simpl length.
  assert (∀ (A : Type) (a : list A) (b : list A) x,
            take (S (length a)) ((x :: a) ++ b) = x :: a) as Htake.
  { intros A a b x. simpl. f_equal. by rewrite take_app_length. }
  assert (∀ (A : Type) (a : list A) (b : list A) x y,
            drop (S (S (length a))) ((x :: a) ++ y :: b) = b) as Hdrop.
  { intros A a b x y. simpl. rewrite (cons_middle y a b), app_assoc.
    apply drop_app_length'. rewrite length_app. simpl. lia. }
  cbv iota beta. rewrite Htake, Hdrop.
  rewrite (trim_space_solid _ (toTomlValue_solid kv.2)).
  assert (cQuote :: kv.1 ++ [cQuote; " "%char]
          = (cQuote :: kv.1 ++ [cQuote]) ++ [" "%char]) as ->.
  { simpl. by rewrite <- app_assoc. }
  rewrite trim_solid_space by by apply solid_wrap.
  unfold quoted. rewrite startsWith_cons, endsWith_wrap. simpl.
  by rewrite sliceInner_wrap.
Qed.

(** The loop of [parseTomlInlineTable] over generated pairs inserts the
    entries one after the other. *)
Lemma fold_pairs (f : text → option tval) (entries : list (text * cfg))
    (spaced : bool) :
  Forall (λ kv, inlineKey kv.1 = true ∧
                f (toTomlValue kv.2) = Some (denote kv.2)) entries →
  ∀ m : gmap text tval,
    foldl (λ result pair,
             m ← result;
             match splitPair pair with
             | Some (key, valueStr') =>
                 v ← f valueStr'; Some (<[key := v]> m)
             | None => Some m
             end)
          (Some m)
          (map (λ kv, if spaced then " "%char :: pairText kv else pairText kv)
               entries)
    = Some (foldl (λ acc kv, <[kv.1 := denote kv.2]> acc) m entries).
Proof.
  induction 1 as [|kv entries [Hk Hv] _ IH]; intros m; [done|].
  simpl foldl.
  assert (splitPair (if spaced then " "%char :: pairText kv else pairText kv)
          = Some (kv.1, toTomlValue kv.2)) as ->.
  { destruct spaced; [|by apply splitPair_generated].
    rewrite <- (splitPair_generated kv Hk). unfold splitPair. cbv zeta.
    by rewrite (trim_space_solid _ (pairText_solid kv)),
               (trim_solid _ (pairText_solid kv)). }
  simpl. rewrite Hv. simpl. apply IH.
Qed.

Lemma foldl_insert_list_to_map (entries : list (text * tval))
    (m : gmap text tval) :
  foldl (λ acc kv, <[kv.1 := kv.2]> acc) m entries
  = list_to_map (reverse entries) ∪ m.
Proof.
  revert m. induction entries as [|[k v] entries IH]; intros m.
  - simpl. by rewrite (left_id_L ∅ (∪)).
  - simpl foldl. rewrite IH. rewrite reverse_cons.
    rewrite list_to_map_app. simpl.
    rewrite <- (assoc_L (∪)). f_equal.
    by rewrite <- insert_union_l, (left_id_L ∅ (∪)).
Qed.

Lemma foldl_insert_denote (entries : list (text * cfg)) :
  NoDup entries.*1 →
  foldl (λ acc kv, <[kv.1 := denote kv.2]> acc) ∅ entries
  = denoteEntries entries.
Proof.
  intros Hnd. unfold denoteEntries.
  assert (∀ m, foldl (λ acc kv, <[kv.1 := denote kv.2]> acc) m entries
             = foldl (λ acc kv, <[kv.1 := kv.2]> acc) m
                 (map (λ kv, (kv.1, denote kv.2)) entries)) as ->.
  { induction entries as [|kv entries IH]; intros m; [done|]. simpl.
    apply NoDup_cons in Hnd as [_ Hnd]. by rewrite IH. }
  rewrite foldl_insert_list_to_map, (right_id_L ∅ (∪)).
  symmetry. apply list_to_map_proper; [|by rewrite reverse_Permutation].
  by rewrite <- list_fmap_compose.
Qed.

#[local] Arguments Number : simpl never.
#[local] Arguments trim : simpl never.
#[local] Arguments sliceInner : simpl never.
#[local] Arguments splitTomlElements : simpl never.
#[local] Arguments numberToText : simpl never.
#[local] Arguments escapeTomlString : simpl never.
#[local] Arguments unescapeTomlString : simpl never.
#[local] Arguments joinWith : simpl never.
#[local] Arguments toTomlValue : simpl never.
#[local] Arguments splitPair : simpl never.

Lemma wfInline_arr (l : list cfg) :
  wfInline (CArr l) = true → Forall (λ x, wfInline x = true) l.
Proof.
  simpl. rewrite forallb_forall, Forall_forall. intros H x Hx.
  apply H. by apply list_elem_of_In.
Qed.

Lemma wfInline_tab (entries : list (text * cfg)) :
  wfInline (CTab entries) = true →
  NoDup entries.*1 ∧
  Forall (λ kv, inlineKey kv.1 = true ∧ wfInline kv.2 = true) entries.
Proof.
  simpl. intros H. apply andb_true_iff in H as [Hnd Hall].
  split; [by apply bool_decide_eq_true in Hnd|].
  rewrite forallb_forall in Hall. apply Forall_forall. intros kv Hkv.
  apply list_elem_of_In in Hkv. specialize (Hall kv Hkv).
  by apply andb_true_iff in Hall.
Qed.

(** [parseTomlValue] gives back the value of every generated text, with as
    much fuel as the value is deep. *)
Lemma parse_generated (fuel : nat) :
  ∀ v : cfg, wfInline v = true → (depthOf v < fuel)%nat →
    parseTomlValueFuel fuel (toTomlValue v) = Some (denote v).
Proof.
  induction fuel as [|fuel IH]; intros v Hwf Hdepth; [lia|].
  destruct v as [[]|n|s|l|entries].
  - reflexivity.
  - reflexivity.
  - change (toTomlValue (CNum n)) with (numberToText n).
    destruct (numberToText_numeric n) as (c & rest & Heq & Hall).
    pose proof (Number_numberToText n) as Hnum. rewrite Heq in Hnum |- *.
    apply Forall_cons in Hall as [Hc _].
    simpl parseTomlValueFuel.
    rewrite not_true, not_false.
    2,3: intros ->; discriminate Hc.
    unfold quoted, startsWith.
    assert (Ascii.eqb c "[" = false ∧ Ascii.eqb c "{" = false ∧
            Ascii.eqb c cQuote = false ∧ Ascii.eqb c cApostrophe = false)
      as (-> & -> & -> & ->).
    { destruct c as [[] [] [] [] [] [] [] []]; try discriminate Hc; done. }
    simpl. by rewrite Hnum.
  - change (toTomlValue (CStr s))
      with (cQuote :: escapeTomlString s ++ [cQuote]).
    simpl parseTomlValueFuel.
    rewrite ?not_true, ?not_false by done.
    unfold quoted. rewrite !startsWith_cons, !endsWith_wrap. simpl.
    by rewrite sliceInner_wrap, unescape_escape.
  - rewrite toTomlValue_arr. simpl parseTomlValueFuel.
    rewrite ?not_true, ?not_false by done.
    rewrite ?startsWith_cons, ?endsWith_wrap, ?sliceInner_wrap. simpl.
    destruct l as [|x l]; [reflexivity|].
    assert (Forall solid (map toTomlValue (x :: l))) as Hsolid.
    { apply Forall_map, Forall_true, toTomlValue_solid. }
    rewrite trim_solid by by apply joined_solid.
    rewrite solid_nonEmpty by by apply joined_solid.
    simpl negb. cbv iota. simpl map at 2.
    rewrite splitTomlElements_joined.
    2:{ apply (Forall_map toTomlValue (absorbedFrom 0) (x :: l)),
          Forall_true, toTomlValue_absorbed. }
    2:{ eapply Forall_impl; [exact Hsolid|]. intros y Hy ->.
        by apply solid_nonEmpty in Hy. }
    rewrite trim_pieces by exact Hsolid.
    change (toTomlValue x :: map toTomlValue l)
      with (map toTomlValue (x :: l)).
    rewrite (mapM_generated _ (x :: l)); [done|].
    apply Forall_forall. intros y Hy. apply IH.
    + pose proof (wfInline_arr _ Hwf) as Hall.
      rewrite Forall_forall in Hall. by apply Hall.
    + pose proof (depthOf_arr _ _ Hy). lia.
  - rewrite toTomlValue_tab.
    destruct entries as [|kv entries]; [reflexivity|].
    remember (" "%char :: joinWith (lit ", ") (map pairText (kv :: entries))
              ++ [" "%char]) as inner eqn:Hinner.
    simpl parseTomlValueFuel.
    rewrite ?not_true, ?not_false by done.
    rewrite ?startsWith_cons, ?endsWith_wrap, ?sliceInner_wrap. simpl.
    subst inner.
    assert (Forall solid (map pairText (kv :: entries))) as Hsolid.
    { apply Forall_map, Forall_true, pairText_solid. }
    rewrite trim_both_spaces by by apply joined_solid.
    rewrite solid_nonEmpty by by apply joined_solid.
    simpl negb. cbv iota. simpl map at 1.
    rewrite splitTomlElements_joined.
    2:{ apply (Forall_map pairText (absorbedFrom 0) (kv :: entries)),
          Forall_true, pairText_absorbed. }
    2:{ eapply Forall_impl; [exact Hsolid|]. intros y Hy ->.
        by apply solid_nonEmpty in Hy. }
    destruct (wfInline_tab _ Hwf) as [Hnd Hall].
    assert (Forall (λ kv0, inlineKey kv0.1 = true ∧
              parseTomlValueFuel fuel (toTomlValue kv0.2)
              = Some (denote kv0.2)) (kv :: entries)) as Hparsed.
    { apply Forall_forall. intros y Hy.
      rewrite Forall_forall in Hall. destruct (Hall y Hy) as [Hk Hv].
      split; [done|]. apply IH; [done|].
      pose proof (depthOf_tab _ _ Hy). lia. }
    apply Forall_cons in Hparsed as [Hkv Hrest].
    simpl foldl.
    rewrite (splitPair_generated kv (proj1 Hkv)). simpl.
    rewrite (proj2 Hkv). simpl.
    rewrite map_map.
    rewrite (fold_pairs (parseTomlValueFuel fuel) entries true Hrest).
    simpl. f_equal. f_equal.
    exact (foldl_insert_denote (kv :: entries) Hnd).
Qed.

Lemma joinWith_length_ge (sep : text) (parts : list text) (x : text) :
  x ∈ parts → (length x <= length (joinWith sep parts))%nat.
Proof.
  induction 1 as [x parts|x y parts Hin IH].
  - destruct parts; [done|]. rewrite joinWith_cons by done.
    rewrite length_app. lia.
  - destruct parts; [by apply elem_of_nil in Hin|].
    rewrite joinWith_cons by done. rewrite !length_app. lia.
Qed.

Lemma depth_bound {A} (f : A → nat) (g : A → text) (sep : text)
    (items : list A) :
  Forall (λ x, (f x <= length (g x))%nat) items →
  (foldr (λ x, Nat.max (f x)) O items <= length (joinWith sep (map g items)))%nat.
Proof.
  intros Hall. induction items as [|x items IH]; simpl foldr; [lia|].
  apply Forall_cons in Hall as [Hx Hall]. specialize (IH Hall).
  destruct items as [|y items].
  - simpl. unfold joinWith. lia.
  - change (map g (x :: y :: items)) with (g x :: map g (y :: items)).
    rewrite joinWith_cons by done. rewrite !length_app. lia.
Qed.

(** The text of a value is at least as long as the value is deep: the fuel
    [parseTomlValue] starts with is enough. *)
Lemma depthOf_le_length (v : cfg) : (depthOf v <= length (toTomlValue v))%nat.
Proof.
  induction v as [b|n|s|l IH|entries IH] using cfg_ind'; try (simpl; lia).
  - rewrite toTomlValue_arr. rewrite !length_app.
    pose proof (depth_bound depthOf toTomlValue (lit ", ") l IH) as H.
    change (depthOf (CArr l)) with (S (foldr (λ x, Nat.max (depthOf x)) O l)).
    set (joined := joinWith _ _) in *. simpl length. lia.
  - rewrite toTomlValue_tab. rewrite !length_app.
    assert (Forall (λ kv : text * cfg,
                      (depthOf kv.2 <= length (pairText kv))%nat) entries) as H.
    { eapply Forall_impl; [exact IH|]. intros kv Hkv. simpl in Hkv.
      rewrite pairText_split, !length_app. lia. }
    pose proof (depth_bound (λ kv, depthOf kv.2) pairText (lit ", ") entries H)
      as Hb.
    change (depthOf (CTab entries))
      with (S (foldr (λ kv, Nat.max (depthOf kv.2)) O entries)).
    set (joined := joinWith _ _) in *. simpl length. rewrite length_app. lia.
Qed.

Lemma parseTomlValue_generated (v : cfg) :
  wfInline v = true → parseTomlValue (toTomlValue v) = Some (denote v).
Proof.
  intros Hwf. unfold parseTomlValue. apply parse_generated; [done|].
  pose proof (depthOf_le_length v). lia.
Qed.

(** ** Lines *)

(** No generated value holds a line break. *)
Lemma escapeChar_no_newline (c : ascii) : cNewline ∉ escapeChar c.
Proof.
  destruct c as [[] [] [] [] [] [] [] []];
    apply (bool_decide_unpack _); vm_compute; exact I.
Qed.

Lemma escape_no_newline (s : text) : cNewline ∉ escapeTomlString s.
Proof.
  induction s as [|c s IH]; [apply not_elem_of_nil|].
  rewrite escapeTomlString_cons, not_elem_of_app.
  split; [apply escapeChar_no_newline|done].
Qed.

Lemma joined_no_newline (parts : list text) :
  Forall (λ p, cNewline ∉ p) parts → cNewline ∉ joinWith (lit ", ") parts.
Proof.
  induction 1 as [|p parts Hp _ IH]; [apply not_elem_of_nil|].
  destruct parts as [|p' rest]; [done|].
  rewrite joinWith_cons by done. rewrite !not_elem_of_app.
  split; [done|]. split; [|done].
  apply (bool_decide_unpack _). vm_compute. exact I.
Qed.

Lemma numeric_no_newline (s : text) :
  Forall (λ x, numericChar x = true) s → cNewline ∉ s.
Proof.
  intros Hall Hin. rewrite Forall_forall in Hall.
  specialize (Hall _ Hin). discriminate Hall.
Qed.

Ltac no_newline :=
  repeat first
    [ apply not_elem_of_nil
    | assumption
    | apply escape_no_newline
    | rewrite not_elem_of_app; split
    | rewrite not_elem_of_cons; split; [discriminate|] ].

Lemma toTomlValue_no_newline (v : cfg) : cNewline ∉ toTomlValue v.
Proof.
  induction v as [[]|n|s|l IH|entries IH] using cfg_ind'.
  - apply (bool_decide_unpack _). vm_compute. exact I.
  - apply (bool_decide_unpack _). vm_compute. exact I.
  - change (toTomlValue (CNum n)) with (numberToText n).
    destruct (numberToText_numeric n) as (c & rest & -> & Hall).
    by apply numeric_no_newline.
  - change (toTomlValue (CStr s))
      with ([cQuote] ++ escapeTomlString s ++ [cQuote]).
    no_newline.
  - rewrite toTomlValue_arr.
    assert (cNewline ∉ joinWith (lit ", ") (map toTomlValue l))
      by by apply joined_no_newline, Forall_map.
    no_newline.
  - rewrite toTomlValue_tab.
    assert (cNewline ∉ joinWith (lit ", ") (map pairText entries)).
    { apply joined_no_newline, Forall_map.
      eapply Forall_impl; [exact IH|]. intros kv Hkv. simpl in Hkv.
      rewrite pairText_split. unfold lit. simpl list_ascii_of_string.
      no_newline. }
    no_newline.
Qed.

(** Keys written bare: letters, digits, underscore and dash, at least
    one, and not [__proto__]. *)
Definition bareKeyChar (c : ascii) : bool :=
  let n := nat_of_ascii c in
  ((48 <=? n) && (n <=? 57) || (65 <=? n) && (n <=? 90)
   || (97 <=? n) && (n <=? 122) || Ascii.eqb c "_" || Ascii.eqb c "-")%nat.

Definition bareKey (k : text) : bool :=
  nonEmptyText k && forallb bareKeyChar k && ownKey k.

Lemma bareKeyChar_facts (c : ascii) :
  bareKeyChar c = true →
  isWhitespace c = false ∧ c ≠ "="%char ∧ c ≠ "."%char ∧ c ≠ cNewline ∧
  c ≠ "#"%char ∧ c ≠ "["%char.
Proof.
  destruct c as [[] [] [] [] [] [] [] []]; intros H; try discriminate H;
    repeat split; discriminate.
Qed.

Lemma bareKey_chars (k : text) :
  bareKey k = true → k ≠ [] ∧ Forall (λ c, bareKeyChar c = true) k.
Proof.
  unfold bareKey. intros H. apply andb_true_iff in H as [H _].
  apply andb_true_iff in H as [Hne Hall].
  split; [by destruct k|].
  rewrite forallb_forall in Hall. apply Forall_forall. intros c Hc.
  apply Hall. by apply list_elem_of_In.
Qed.

Lemma bareKey_solid (k : text) : bareKey k = true → solid k.
Proof.
  intros Hk. apply bareKey_chars in Hk as [Hne Hall].
  rewrite Forall_forall in Hall. split.
  - destruct k as [|c rest]; [done|]. exists c, rest. split; [done|].
    apply bareKeyChar_facts, Hall. set_solver.
  - destruct (last k) as [d|] eqn:Hd; [|by apply last_None in Hd].
    exists d. split; [done|]. apply bareKeyChar_facts, Hall.
    apply last_Some in Hd as [front ->]. set_solver.
Qed.

Lemma bareKey_not_in (k : text) (c : ascii) :
  bareKey k = true → bareKeyChar c = false → c ∉ k.
Proof.
  intros Hk Hc Hin. apply bareKey_chars in Hk as [_ Hall].
  rewrite Forall_forall in Hall. specialize (Hall _ Hin). congruence.
Qed.

Lemma assignmentLine_no_newline (kv : text * cfg) :
  bareKey kv.1 = true → cNewline ∉ assignmentLine kv.
Proof.
  intros Hk. unfold assignmentLine. rewrite !not_elem_of_app.
  split; [by apply bareKey_not_in|]. split; [|apply toTomlValue_no_newline].
  apply (bool_decide_unpack _). vm_compute. exact I.
Qed.

(** What an assignment line and a section header do to the state. *)
Lemma parseLine_assignment (st : ParseState) (kv : text * cfg) :
  bareKey kv.1 = true → wfInline kv.2 = true →
  parseLine st (assignmentLine kv)
  = Some (mkParse (assignAt (currentSection st) kv.1 (denote kv.2) (root st))
                  (currentSection st)).
Proof.
  intros Hk Hv. pose proof (bareKey_solid _ Hk) as Hsolid.
  pose proof (toTomlValue_solid kv.2) as Hvs.
  assert (solid (assignmentLine kv)) as Hline.
  { unfold assignmentLine. destruct Hsolid as [Hfirst _].
    destruct Hfirst as (c & rest & Heq & Hc). rewrite Heq.
    destruct Hvs as [_ (d & Hd & Hw)].
    split; [by eexists _, _|]. exists d. split; [|done].
    rewrite !last_app. by rewrite Hd. }
  unfold parseLine. cbv zeta. rewrite (trim_solid _ Hline).
  rewrite (solid_nonEmpty _ Hline).
  destruct Hsolid as [(c & rest & Heq & Hc) Hlast].
  assert (bareKeyChar c = true) as Hbare.
  { apply bareKey_chars in Hk as [_ Hall]. rewrite Heq in Hall.
    by apply Forall_cons in Hall as [? _]. }
  destruct (bareKeyChar_facts c Hbare) as (_ & _ & _ & _ & Hhash & Hbracket).
  assert (startsWith "#" (assignmentLine kv) = false ∧
          startsWith "[" (assignmentLine kv) = false) as [-> ->].
  { unfold assignmentLine. rewrite Heq. simpl.
    split; by apply Ascii.eqb_neq. }
  simpl negb. simpl orb. simpl andb. cbv iota.
  assert (assignmentLine kv
          = (kv.1 ++ [" "%char]) ++ "="%char :: " "%char :: toTomlValue kv.2)
    as Hshape.
  { unfold assignmentLine. by rewrite <- app_assoc. }
  rewrite Hshape, indexOf_app.
  2:{ rewrite not_elem_of_app. split; [by apply bareKey_not_in|].
      apply (bool_decide_unpack _). vm_compute. exact I. }
  rewrite length_app. simpl length. rewrite Nat.add_1_r. cbv iota beta.
  assert (take (S (length kv.1))
            ((kv.1 ++ [" "%char]) ++ "="%char :: " "%char :: toTomlValue kv.2)
          = kv.1 ++ [" "%char]) as ->.
  { rewrite take_app_length'; [done|]. rewrite length_app. simpl. lia. }
  assert (drop (S (S (length kv.1)))
            ((kv.1 ++ [" "%char]) ++ "="%char :: " "%char :: toTomlValue kv.2)
          = " "%char :: toTomlValue kv.2) as ->.
  { rewrite (cons_middle "="%char), app_assoc.
    rewrite drop_app_length'; [done|]. rewrite !length_app. simpl. lia. }
  rewrite trim_solid_space.
  2:{ rewrite Heq. split; [by eexists _, _|]. by rewrite <- Heq. }
  rewrite (trim_space_solid _ Hvs).
  by rewrite (parseTomlValue_generated _ Hv).
Qed.

(** The text of a section path: the keys joined by dots. *)
Definition pathText (parts : list text) : text := joinWith (lit ".") parts.

Lemma pathText_snoc (parts : list text) (k : text) :
  parts ≠ [] → pathText (parts ++ [k]) = pathText parts ++ lit "." ++ k.
Proof.
  unfold pathText. induction parts as [|p [|p' rest] IH]; intros Hne; [done|..].
  - reflexivity.
  - change ((p :: p' :: rest) ++ [k]) with (p :: ((p' :: rest) ++ [k])).
    rewrite joinWith_cons by done. rewrite IH by done.
    rewrite (joinWith_cons _ p (p' :: rest)) by done.
    by rewrite <- !app_assoc.
Qed.

Lemma splitOn_pathText (parts : list text) :
  parts ≠ [] → Forall (λ k, bareKey k = true) parts →
  splitOn "." (pathText parts) = parts.
Proof.
  unfold pathText. intros Hne Hall.
  induction Hall as [|p parts Hp Hparts IH]; [done|].
  assert ("."%char ∉ p) as Hdot by by apply bareKey_not_in.
  destruct parts as [|p' rest].
  - by apply splitOn_nil_free.
  - rewrite joinWith_cons by done.
    change (lit "." ++ joinWith (lit ".") (p' :: rest))
      with ("."%char :: joinWith (lit ".") (p' :: rest)).
    rewrite splitOn_app by done. by rewrite IH.
Qed.

Lemma pathText_solid (parts : list text) :
  parts ≠ [] → Forall (λ k, bareKey k = true) parts → solid (pathText parts).
Proof.
  intros Hne Hall. apply joined_solid; [done|].
  eapply Forall_impl; [exact Hall|]. apply bareKey_solid.
Qed.

Lemma pathText_no_newline (parts : list text) :
  Forall (λ k, bareKey k = true) parts → cNewline ∉ pathText parts.
Proof.
  unfold pathText. induction 1 as [|p parts Hp _ IH]; [apply not_elem_of_nil|].
  destruct parts as [|p' rest]; [by apply bareKey_not_in|].
  rewrite joinWith_cons by done. rewrite !not_elem_of_app.
  split; [by apply bareKey_not_in|]. split; [|done].
  apply (bool_decide_unpack _). vm_compute. exact I.
Qed.

Definition headerLine (parts : list text) : text :=
  lit "[" ++ pathText parts ++ lit "]".

Lemma parseLine_header (st : ParseState) (parts : list text) :
  parts ≠ [] → Forall (λ k, bareKey k = true) parts →
  parseLine st (headerLine parts)
  = (r ← ensurePath parts (root st); Some (mkParse r parts)).
Proof.
  intros Hne Hall.
  assert (headerLine parts = "["%char :: pathText parts ++ ["]"%char])
    as -> by reflexivity.
  assert (solid ("["%char :: pathText parts ++ ["]"%char])) as Hline
    by by apply solid_wrap.
  unfold parseLine. cbv zeta. rewrite (trim_solid _ Hline).
  rewrite (solid_nonEmpty _ Hline).
  rewrite !startsWith_cons, endsWith_wrap, sliceInner_wrap.
  simpl negb. simpl orb. simpl andb. cbv iota.
  rewrite (trim_solid _ (pathText_solid _ Hne Hall)).
  by rewrite (splitOn_pathText _ Hne Hall).
Qed.

(** ** Tables along a path *)

Definition tableOrEmpty (v : option tval) : gmap text tval :=
  match v with
  | Some (TTab c) => c
  | _ => ∅
  end.

(** The table that a section at [parts] with content [t] leaves in [m]:
    the tables on the way are created when missing. *)
Fixpoint graft (parts : list text) (t : gmap text tval) (m : gmap text tval)
  : gmap text tval :=
  match parts with
  | [] => t ∪ m
  | p :: ps => <[p := TTab (graft ps t (tableOrEmpty (m !! p)))]> m
  end.

Fixpoint tableAt (parts : list text) (m : gmap text tval) : gmap text tval :=
  match parts with
  | [] => m
  | p :: ps => tableAt ps (tableOrEmpty (m !! p))
  end.

(** No array stands on the way. *)
Fixpoint clearPath (parts : list text) (m : gmap text tval) : Prop :=
  match parts with
  | [] => True
  | p :: ps =>
      match m !! p with
      | Some (TArr _) => False
      | v => clearPath ps (tableOrEmpty v)
      end
  end.

Lemma ensurePath_graft (parts : list text) (m : gmap text tval) :
  clearPath parts m → ensurePath parts m = Some (graft parts ∅ m).
Proof.
  revert m. induction parts as [|p ps IH]; intros m Hclear; simpl.
  - by rewrite (left_id_L ∅ (∪)).
  - simpl in Hclear.
    destruct (m !! p) as [[b|n|s|l|c]|] eqn:Hp; simpl in *;
      try (by rewrite (IH _ Hclear)); done.
Qed.

Lemma assignAt_graft (parts : list text) (k : text) (v : tval)
    (t m : gmap text tval) :
  assignAt parts k v (graft parts t m) = graft parts (<[k := v]> t) m.
Proof.
  revert m. induction parts as [|p ps IH]; intros m; simpl.
  - by rewrite insert_union_l.
  - rewrite lookup_insert_eq, insert_insert_eq. by rewrite IH.
Qed.

Lemma graft_graft (parts : list text) (t1 t2 m : gmap text tval) :
  graft parts t1 (graft parts t2 m) = graft parts (t1 ∪ t2) m.
Proof.
  revert m. induction parts as [|p ps IH]; intros m; simpl.
  - by rewrite (assoc_L (∪)).
  - rewrite lookup_insert_eq, insert_insert_eq. simpl. by rewrite IH.
Qed.

Lemma graft_insert (parts : list text) (k : text) (v : tval)
    (t m : gmap text tval) :
  graft parts {[k := v]} (graft parts t m) = graft parts (<[k := v]> t) m.
Proof. by rewrite graft_graft, <- insert_union_singleton_l. Qed.

Lemma graft_snoc (parts : list text) (k : text) (t m : gmap text tval) :
  tableAt parts m !! k = None →
  graft (parts ++ [k]) t m = graft parts {[k := TTab t]} m.
Proof.
  revert m. induction parts as [|p ps IH]; intros m Hfresh; simpl in *.
  - rewrite Hfresh. simpl.
    by rewrite (right_id_L ∅ (∪)), insert_union_singleton_l.
  - by rewrite (IH _ Hfresh).
Qed.

Lemma tableAt_graft (parts : list text) (t m : gmap text tval) :
  tableAt parts (graft parts t m) = t ∪ tableAt parts m.
Proof.
  revert m. induction parts as [|p ps IH]; intros m; simpl; [done|].
  rewrite lookup_insert_eq. simpl. apply IH.
Qed.

Lemma clearPath_graft (parts : list text) (t m : gmap text tval) :
  clearPath parts (graft parts t m).
Proof.
  revert m. induction parts as [|p ps IH]; intros m; simpl; [done|].
  rewrite lookup_insert_eq. simpl. apply IH.
Qed.

Lemma clearPath_snoc (parts : list text) (k : text) (m : gmap text tval) :
  clearPath parts m → tableAt parts m !! k = None →
  clearPath (parts ++ [k]) m.
Proof.
  revert m. induction parts as [|p ps IH]; intros m Hclear Hfresh; simpl in *.
  - by rewrite Hfresh.
  - destruct (m !! p) as [[b|n|s|l|c]|]; simpl in *; try done; by apply IH.
Qed.

Lemma tableAt_snoc_fresh (parts : list text) (k : text) (m : gmap text tval) :
  tableAt parts m !! k = None → tableAt (parts ++ [k]) m = ∅.
Proof.
  revert m. induction parts as [|p ps IH]; intros m Hfresh; simpl in *.
  - by rewrite Hfresh.
  - by apply IH.
Qed.

(** ** Sections *)

Definition nonEmptyTable (v : cfg) : bool :=
  match v with
  | CTab (_ :: _) => true
  | _ => false
  end.

(** A table written as a section (or the root): distinct bare keys, every
    value either a non-empty table of the same kind or a value that can
    stand in a line. *)
Fixpoint wfSection (v : cfg) : bool :=
  match v with
  | CTab entries =>
      bool_decide (NoDup entries.*1)
      && forallb (λ kv, bareKey kv.1
                        && (if isTable kv.2
                            then nonEmptyTable kv.2 && wfSection kv.2
                            else wfInline kv.2))
                 entries
  | _ => false
  end.

Definition wfConfig (config : list (text * cfg)) : bool :=
  wfSection (CTab config).

Lemma wfSection_entries (entries : list (text * cfg)) :
  wfSection (CTab entries) = true →
  NoDup entries.*1 ∧
  Forall (λ kv, bareKey kv.1 = true ∧
                (isTable kv.2 = true →
                 nonEmptyTable kv.2 = true ∧ wfSection kv.2 = true) ∧
                (isTable kv.2 = false → wfInline kv.2 = true)) entries.
Proof.
  simpl. intros H. apply andb_true_iff in H as [Hnd Hall].
  split; [by apply bool_decide_eq_true in Hnd|].
  rewrite forallb_forall in Hall. apply Forall_forall. intros kv Hkv.
  apply list_elem_of_In in Hkv. specialize (Hall kv Hkv).
  apply andb_true_iff in Hall as [Hk Hv]. split; [done|].
  destruct (isTable kv.2); split; intros; try done.
  by apply andb_true_iff in Hv.
Qed.

Lemma parseLines_app (l1 l2 : list text) (st : ParseState) :
  parseLines (l1 ++ l2) st = (st' ← parseLines l1 st; parseLines l2 st').
Proof.
  unfold parseLines. rewrite foldl_app.
  destruct (foldl _ (Some st) l1) as [st'|]; [done|].
  simpl. induction l2 as [|l l2 IH]; [done|]. simpl. apply IH.
Qed.

Lemma parseLines_cons (l : text) (rest : list text) (st : ParseState) :
  parseLines (l :: rest) st = (st' ← parseLine st l; parseLines rest st').
Proof. apply (parseLines_app [l] rest st). Qed.

Definition insertEntry (acc : gmap text tval) (kv : text * cfg)
  : gmap text tval :=
  <[kv.1 := denote kv.2]> acc.

(** The assignment lines of a section put its simple entries into the
    table of the section. *)
Lemma simple_lines (parts : list text) (m : gmap text tval)
    (simple : list (text * cfg)) :
  Forall (λ kv, bareKey kv.1 = true ∧ wfInline kv.2 = true) simple →
  ∀ t : gmap text tval,
    parseLines (map assignmentLine simple) (mkParse (graft parts t m) parts)
    = Some (mkParse (graft parts (foldl insertEntry t simple) m) parts).
Proof.
  induction 1 as [|kv simple [Hk Hv] _ IH]; intros t; [done|].
  simpl map. rewrite parseLines_cons.
  rewrite (parseLine_assignment _ kv Hk Hv). simpl.
  rewrite assignAt_graft. apply IH.
Qed.

(** What the lines of the child sections leave in the root. *)
Definition graftChild (parts : list text) (acc : gmap text tval)
    (kv : text * cfg) : gmap text tval :=
  if isTable kv.2 then graft parts {[kv.1 := denote kv.2]} acc else acc.

Definition childLines (childPath : text → text) (entries : list (text * cfg))
  : list text :=
  flat_map (λ kv, if isTable kv.2 then writeTomlSection (childPath kv.1) kv.2
                  else []) entries.

(** The property of a table that the induction carries: its section lines
    graft its value at its path. *)
Definition sectionGrafts (v : cfg) : Prop :=
  ∀ (sub : list (text * cfg)) (parts : list text) (st : ParseState),
    v = CTab sub → parts ≠ [] → Forall (λ k, bareKey k = true) parts →
    wfSection v = true → sub ≠ [] →
    clearPath parts (root st) →
    (∀ k, k ∈ sub.*1 → tableAt parts (root st) !! k = None) →
    ∃ cur, parseLines (writeTomlSection (pathText parts) v) st
           = Some (mkParse (graft parts (denoteEntries sub) (root st)) cur).

Lemma children_lines (parts : list text) (childPath : text → text)
    (entries : list (text * cfg)) :
  (∀ k, childPath k = pathText (parts ++ [k])) →
  Forall (λ k, bareKey k = true) parts →
  Forall (λ kv, sectionGrafts kv.2) entries →
  NoDup entries.*1 →
  Forall (λ kv, bareKey kv.1 = true ∧
                (isTable kv.2 = true →
                 nonEmptyTable kv.2 = true ∧ wfSection kv.2 = true)) entries →
  ∀ st : ParseState,
    clearPath parts (root st) →
    (∀ kv, kv ∈ entries → isTable kv.2 = true →
           tableAt parts (root st) !! kv.1 = None) →
    ∃ cur, parseLines (childLines childPath entries) st
           = Some (mkParse (foldl (graftChild parts) (root st) entries) cur).
Proof.
  intros Hpath Hparts Hgraft.
  induction Hgraft as [|kv entries Hkv _ IH]; intros Hnd Hwf st Hclear Hfresh.
  - exists (currentSection st). by destruct st.
  - simpl in Hnd. apply NoDup_cons in Hnd as [Hnotin Hnd].
    apply Forall_cons in Hwf as [[Hk Hv] Hwf].
    unfold childLines. simpl flat_map. fold (childLines childPath entries).
    simpl foldl. unfold graftChild at 2.
    destruct (isTable kv.2) eqn:Htab.
    + assert (tableAt parts (root st) !! kv.1 = None) as Hk1.
      { apply Hfresh; [apply list_elem_of_here|done]. }
      destruct (Hv eq_refl) as [Hne Hsec].
      destruct kv as [k [b|n|s|l|sub]]; try discriminate Htab.
      cbn [fst snd] in *. destruct sub as [|e sub]; [discriminate Hne|].
      rewrite parseLines_app, Hpath.
      destruct (Hkv (e :: sub) (parts ++ [k]) st eq_refl) as [cur Hrun].
      * by destruct parts.
      * apply Forall_app. split; [done|]. by constructor.
      * done.
      * done.
      * by apply clearPath_snoc.
      * intros k' _. by rewrite tableAt_snoc_fresh.
      * rewrite Hrun. simpl. rewrite (graft_snoc parts k _ _ Hk1).
        destruct (IH Hnd Hwf
                    (mkParse (graft parts
                                {[k := TTab (denoteEntries (e :: sub))]}
                                (root st)) cur)) as [cur' Hrest].
        -- apply clearPath_graft.
        -- intros kv' Hkv' Htab'. simpl. rewrite tableAt_graft.
           rewrite lookup_union_r.
           ++ apply Hfresh; [by apply list_elem_of_further|done].
           ++ apply lookup_singleton_ne. intros Heq. apply Hnotin.
              rewrite Heq. apply list_elem_of_fmap. by exists kv'.
        -- exists cur'. exact Hrest.
    + simpl. apply (IH Hnd Hwf st Hclear).
      intros kv' Hkv'. apply Hfresh. by apply list_elem_of_further.
Qed.

Definition insertTable (acc : gmap text tval) (kv : text * cfg)
  : gmap text tval :=
  if isTable kv.2 then insertEntry acc kv else acc.

Lemma fold_grafts (parts : list text) (m : gmap text tval)
    (entries : list (text * cfg)) :
  ∀ t : gmap text tval,
    foldl (graftChild parts) (graft parts t m) entries
    = graft parts (foldl insertTable t entries) m.
Proof.
  induction entries as [|kv entries IH]; intros t; [done|].
  simpl foldl. unfold graftChild at 2, insertTable at 2.
  destruct (isTable kv.2); [|apply IH].
  rewrite graft_insert. apply IH.
Qed.

Lemma insertTable_nested (entries : list (text * cfg)) :
  ∀ t : gmap text tval,
    foldl insertTable t entries = foldl insertEntry t (nestedEntries entries).
Proof.
  unfold nestedEntries.
  induction entries as [|kv entries IH]; intros t; [done|].
  simpl foldl. unfold insertTable at 2.
  destruct (isTable kv.2) eqn:Htab.
  - rewrite filter_cons_True by done. simpl. apply IH.
  - rewrite filter_cons_False by (rewrite Htab; done). apply IH.
Qed.

Lemma simple_nested_perm (entries : list (text * cfg)) :
  simpleEntries entries ++ nestedEntries entries ≡ₚ entries.
Proof.
  unfold simpleEntries, nestedEntries.
  induction entries as [|kv entries IH]; [done|].
  destruct (isTable kv.2) eqn:Htab.
  - rewrite filter_cons_False by (rewrite Htab; done).
    rewrite (filter_cons_True (λ kv, isTable kv.2 = true)) by done.
    rewrite <- Permutation_middle. by constructor.
  - rewrite filter_cons_True by done.
    rewrite (filter_cons_False (λ kv, isTable kv.2 = true))
      by (rewrite Htab; done).
    simpl. by constructor.
Qed.

(** Simple entries first, tables after: the table of the section all the
    same. *)
Lemma section_table (entries : list (text * cfg)) :
  NoDup entries.*1 →
  foldl insertTable (foldl insertEntry ∅ (simpleEntries entries)) entries
  = denoteEntries entries.
Proof.
  intros Hnd. rewrite insertTable_nested, <- foldl_app.
  pose proof (simple_nested_perm entries) as Hperm.
  unfold insertEntry.
  rewrite (foldl_insert_denote (simpleEntries entries ++ nestedEntries entries)).
  - unfold denoteEntries. apply list_to_map_proper.
    + rewrite <- list_fmap_compose. simpl.
      by rewrite Hperm.
    + by rewrite Hperm.
  - by rewrite Hperm.
Qed.

Lemma simple_not_table_key (entries : list (text * cfg)) (kv : text * cfg) :
  NoDup entries.*1 → kv ∈ entries → isTable kv.2 = true →
  kv.1 ∉ (simpleEntries entries).*1.
Proof.
  intros Hnd Hin Htab Hk. apply list_elem_of_fmap in Hk as (kv' & Heq & Hin').
  apply list_elem_of_filter in Hin' as [Hsimple Hin'].
  assert (kv = kv') as <-.
  { destruct kv as [k v], kv' as [k' v']. simpl in *. subst k'.
    f_equal.
    pose proof (elem_of_list_to_map_1 (M := gmap text) _ _ _ Hnd Hin) as H1.
    pose proof (elem_of_list_to_map_1 (M := gmap text) _ _ _ Hnd Hin') as H2.
    congruence. }
  congruence.
Qed.

Lemma foldl_insertEntry_fresh (simple : list (text * cfg)) (k : text) :
  k ∉ simple.*1 →
  ∀ t : gmap text tval, t !! k = None →
    foldl insertEntry t simple !! k = None.
Proof.
  induction simple as [|kv simple IH]; intros Hk t Ht; [done|].
  simpl in Hk. apply not_elem_of_cons in Hk as [Hne Hk].
  simpl. apply IH; [done|]. unfold insertEntry.
  by rewrite lookup_insert_ne.
Qed.

Lemma writeTomlSection_tab (sectionPath : text) (sub : list (text * cfg)) :
  writeTomlSection sectionPath (CTab sub)
  = (match simpleEntries sub with
     | [] => []
     | simple => (lit "[" ++ sectionPath ++ lit "]")
                   :: map assignmentLine simple
     end)
    ++ childLines (λ k, sectionPath ++ lit "." ++ k) sub.
Proof. reflexivity. Qed.

Lemma wf_simple (sub : list (text * cfg)) :
  wfSection (CTab sub) = true →
  Forall (λ kv, bareKey kv.1 = true ∧ wfInline kv.2 = true)
         (simpleEntries sub).
Proof.
  intros Hwf. destruct (wfSection_entries _ Hwf) as [_ Hall].
  apply Forall_forall. intros kv Hkv.
  apply list_elem_of_filter in Hkv as [Hsimple Hin].
  rewrite Forall_forall in Hall. destruct (Hall kv Hin) as (Hk & _ & Hv).
  auto.
Qed.

Lemma wf_children (sub : list (text * cfg)) :
  wfSection (CTab sub) = true →
  Forall (λ kv, bareKey kv.1 = true ∧
                (isTable kv.2 = true →
                 nonEmptyTable kv.2 = true ∧ wfSection kv.2 = true)) sub.
Proof.
  intros Hwf. destruct (wfSection_entries _ Hwf) as [_ Hall].
  eapply Forall_impl; [exact Hall|]. intros kv (Hk & Ht & _). auto.
Qed.

(** The lines of a section graft the table of the section at its path. *)
Lemma section_lines (v : cfg) : sectionGrafts v.
Proof.
  induction v as [b|n|s|l _|entries IH] using cfg_ind';
    intros sub parts st Hv Hparts Hbare Hwf Hne Hclear Hfresh;
    try discriminate Hv.
  injection Hv as ->.
  destruct (wfSection_entries _ Hwf) as [Hnd _].
  rewrite writeTomlSection_tab, parseLines_app.
  assert (∀ k, pathText parts ++ lit "." ++ k = pathText (parts ++ [k]))
    as Hpath by (intros k; by rewrite pathText_snoc).
  destruct (simpleEntries sub) as [|kv simple] eqn:Hsimple.
  - (* only tables *)
    change (parseLines [] st) with (Some st). cbn [mbind option_bind].
    destruct (children_lines parts _ sub Hpath Hbare IH Hnd (wf_children _ Hwf)
                st Hclear) as [cur Hrun].
    { intros kv Hkv _. apply Hfresh. apply list_elem_of_fmap. by exists kv. }
    exists cur. rewrite Hrun. f_equal. f_equal.
    destruct sub as [|kv sub]; [done|].
    assert (isTable kv.2 = true) as Htab.
    { destruct (isTable kv.2) eqn:Htab; [done|].
      unfold simpleEntries in Hsimple.
      rewrite filter_cons_True in Hsimple by done. discriminate Hsimple. }
    simpl foldl. unfold graftChild at 2. rewrite Htab.
    assert (graft parts {[kv.1 := denote kv.2]} (root st)
            = graft parts (insertTable ∅ kv) (root st)) as ->.
    { unfold insertTable, insertEntry. by rewrite Htab. }
    rewrite fold_grafts. f_equal.
    pose proof (section_table (kv :: sub) Hnd) as Htable.
    rewrite Hsimple in Htable. exact Htable.
  - (* a header, the simple entries, then the tables *)
    rewrite <- Hsimple.
    change (lit "[" ++ pathText parts ++ lit "]") with (headerLine parts).
    rewrite parseLines_cons, (parseLine_header _ _ Hparts Hbare).
    rewrite (ensurePath_graft _ _ Hclear). cbn [mbind option_bind].
    rewrite (simple_lines parts (root st) (simpleEntries sub) (wf_simple _ Hwf)).
    cbn [mbind option_bind].
    destruct (children_lines parts _ sub Hpath Hbare IH Hnd (wf_children _ Hwf)
                (mkParse (graft parts
                            (foldl insertEntry ∅ (simpleEntries sub))
                            (root st)) parts)) as [cur Hrun].
    { apply clearPath_graft. }
    { intros kv' Hkv' Htab. simpl. rewrite tableAt_graft.
      apply lookup_union_None. split.
      - apply foldl_insertEntry_fresh; [|done].
        by apply simple_not_table_key.
      - apply Hfresh. apply list_elem_of_fmap. by exists kv'. }
    exists cur. rewrite Hrun. cbn [root]. f_equal. f_equal.
    rewrite fold_grafts. f_equal. by apply section_table.
Qed.

(** ** The whole document *)

Lemma generateLines_children (config : list (text * cfg)) :
  generateLines config
  = map assignmentLine (simpleEntries config) ++ childLines (λ k, k) config.
Proof. reflexivity. Qed.

Lemma parse_generated_lines (config : list (text * cfg)) :
  wfConfig config = true →
  ∃ cur, parseLines (generateLines config) (mkParse ∅ [])
         = Some (mkParse (denoteEntries config) cur).
Proof.
  intros Hwf. destruct (wfSection_entries _ Hwf) as [Hnd _].
  rewrite generateLines_children, parseLines_app.
  pose proof (simple_lines [] ∅ (simpleEntries config) (wf_simple _ Hwf) ∅)
    as Hsimple.
  simpl graft in Hsimple. rewrite !(right_id_L ∅ (∪)) in Hsimple.
  rewrite Hsimple. cbn [mbind option_bind].
  destruct (children_lines [] (λ k, k) config (λ k, eq_refl) (Forall_nil_2 _)
              (Forall_true _ _ (λ kv, section_lines kv.2)) Hnd (wf_children _ Hwf)
              (mkParse (foldl insertEntry ∅ (simpleEntries config)) []))
    as [cur Hrun]; [done| |].
  { intros kv Hkv Htab. simpl.
    apply foldl_insertEntry_fresh; [|done]. by apply simple_not_table_key. }
  exists cur. rewrite Hrun. cbn [root]. f_equal. f_equal.
  pose proof (fold_grafts [] ∅ config
                (foldl insertEntry ∅ (simpleEntries config))) as Hfold.
  simpl graft in Hfold. rewrite !(right_id_L ∅ (∪)) in Hfold.
  rewrite Hfold. by apply section_table.
Qed.

(** ** No generated line holds a line feed *)

Definition plainLines (lines : list text) : Prop :=
  Forall (λ l, cNewline ∉ l) lines.

Definition sectionPlain (v : cfg) : Prop :=
  ∀ parts : list text,
    parts ≠ [] → Forall (λ k, bareKey k = true) parts → wfSection v = true →
    plainLines (writeTomlSection (pathText parts) v).

Lemma simple_plain (simple : list (text * cfg)) :
  Forall (λ kv, bareKey kv.1 = true ∧ wfInline kv.2 = true) simple →
  plainLines (map assignmentLine simple).
Proof.
  intros Hall. apply Forall_map. eapply Forall_impl; [exact Hall|].
  intros kv [Hk _]. by apply assignmentLine_no_newline.
Qed.

Lemma children_plain (parts : list text) (childPath : text → text)
    (entries : list (text * cfg)) :
  (∀ k, childPath k = pathText (parts ++ [k])) →
  Forall (λ k, bareKey k = true) parts →
  Forall (λ kv, sectionPlain kv.2) entries →
  Forall (λ kv, bareKey kv.1 = true ∧
                (isTable kv.2 = true →
                 nonEmptyTable kv.2 = true ∧ wfSection kv.2 = true)) entries →
  plainLines (childLines childPath entries).
Proof.
  intros Hpath Hparts Hplain.
  induction Hplain as [|kv entries Hkv _ IH]; intros Hwf; [constructor|].
  apply Forall_cons in Hwf as [[Hk Hv] Hwf].
  unfold childLines. simpl flat_map. fold (childLines childPath entries).
  apply Forall_app. split; [|by apply IH].
  destruct (isTable kv.2) eqn:Htab; [|constructor].
  rewrite Hpath. apply Hkv; [by destruct parts| |by apply Hv].
  apply Forall_app. split; [done|]. by constructor.
Qed.

Lemma section_plain (v : cfg) : sectionPlain v.
Proof.
  induction v as [b|n|s|l _|entries IH] using cfg_ind';
    intros parts Hne Hparts Hwf; try discriminate Hwf.
  rewrite writeTomlSection_tab. apply Forall_app. split.
  - pose proof (simple_plain _ (wf_simple _ Hwf)) as Hsimple.
    destruct (simpleEntries entries) as [|kv simple]; [constructor|].
    constructor; [|exact Hsimple].
    rewrite !not_elem_of_app. split; [|split].
    + apply (bool_decide_unpack _). vm_compute. exact I.
    + by apply pathText_no_newline.
    + apply (bool_decide_unpack _). vm_compute. exact I.
  - apply (children_plain parts); [|done|done|by apply wf_children].
    intros k. by rewrite pathText_snoc.
Qed.

Lemma generated_plain (config : list (text * cfg)) :
  wfConfig config = true → plainLines (generateLines config).
Proof.
  intros Hwf. rewrite generateLines_children. apply Forall_app. split.
  - by apply simple_plain, wf_simple.
  - apply (children_plain []); [done|constructor| |by apply wf_children].
    apply Forall_true. intros kv. apply section_plain.
Qed.

(** ** The round trip *)

(** C5 (round trip), refuted on a table without entries.  The claim is
    that [parseToml (generateToml config)] is [config] for every
    configuration made of maps, lists, strings, numbers and booleans.
    [writeTomlSection] pushes a header only when the section has a simple
    entry, so the configuration [{a: {}}] is written as the empty document
    and read back as [{}]: the table [a] is lost. *)
Lemma C5_empty_table_lost :
  let config := [(lit "a", CTab [])] in
  generateToml config = [] ∧
  parseToml (generateToml config) = Some ∅ ∧
  parseToml (generateToml config) ≠ Some (denoteEntries config).
Proof.
  assert (generateToml [(lit "a", CTab [])] = []) as Hgen by reflexivity.
  cbv zeta. rewrite Hgen. split; [done|]. split; [reflexivity|].
  assert (parseToml [] = Some ∅) as -> by reflexivity.
  intros Heq. apply (inj Some) in Heq.
  assert (denoteEntries [(lit "a", CTab [])] !! lit "a" = Some (TTab ∅)) as Hlook.
  { unfold denoteEntries. simpl. by rewrite lookup_insert_eq. }
  rewrite <- Heq in Hlook. by rewrite lookup_empty in Hlook.
Qed.

(** X29.  Where the round trip does hold: a configuration whose section
    keys are distinct bare keys, whose nested sections are non-empty at
    every level, whose numbers are safe integers and whose inline-table
    keys need no escape is read back by [parseToml] from the text
    [generateToml] writes for it. *)
Theorem X29_generated_document_roundtrip (config : list (text * cfg)) :
  wfConfig config = true →
  parseToml (generateToml config) = Some (denoteEntries config).
Proof.
  intros Hwf.
  destruct (parse_generated_lines config Hwf) as [cur Hrun].
  pose proof (generated_plain config Hwf) as Hplain.
  unfold parseToml, generateToml.
  destruct (generateLines config) as [|l lines] eqn:Hlines.
  - change (splitOn cNewline []) with [@nil ascii].
    injection Hrun as Hroot _. rewrite <- Hroot. reflexivity.
  - rewrite joinWith_newline by done. rewrite (splitOn_lines _ Hplain).
    rewrite parseLines_app, Hrun. reflexivity.
Qed.

Definition sampleConfig : list (text * cfg) :=
  [ (lit "model", CStr (lit "gpt-5"));
    (lit "retries", CNum 3);
    (lit "sandbox", CBool true);
    (lit "args", CArr [CStr (lit "a, b"); CNum (-2)]);
    (lit "mcp_servers",
      CTab [ (lit "fs",
               CTab [ (lit "command", CStr (lit "npx"));
                      (lit "env", CArr [CTab [(lit "HOME", CStr (lit "/root"))]])
                    ]) ]) ].

Lemma X29_generated_document_roundtrip_witness :
  wfConfig sampleConfig = true ∧
  parseToml (generateToml sampleConfig) = Some (denoteEntries sampleConfig).
Proof.
  split; [vm_compute; reflexivity|].
  apply (X29_generated_document_roundtrip sampleConfig).
  vm_compute. reflexivity.
Defined.

End Toml.

(* ===================================================================== *)
(** * Further properties of the TOML reader and writer                    *)
(* ===================================================================== *)

Module TomlLaws.

Import Toml.

(** ** Escaping *)

(** X1.  [unescapeTomlString] undoes [escapeTomlString] on every string. *)
Theorem X1_unescape_after_escape (s : text) :
  unescapeTomlString (escapeTomlString s) = s.
Proof. apply unescape_escape. Qed.

Lemma escapeChar_controls (c : ascii) :
  (cNewline ∉ escapeChar c) ∧ (cTab ∉ escapeChar c) ∧ (cReturn ∉ escapeChar c).
Proof.
  destruct c as [[] [] [] [] [] [] [] []];
    repeat split; apply (bool_decide_unpack _); vm_compute; exact I.
Qed.

(** The quotes of an escaped text all follow a backslash: reading it from
    the left, outside an escape, no quote is met. *)
Fixpoint quoteFree (escaped : bool) (s : text) : bool :=
  match s with
  | [] => negb escaped
  | c :: rest =>
      if escaped then quoteFree false rest
      else if Ascii.eqb c cBackslash then quoteFree true rest
      else negb (Ascii.eqb c cQuote) && quoteFree false rest
  end.

Lemma quoteFree_escapeChar (c : ascii) (rest : text) :
  quoteFree false (escapeChar c ++ rest) = quoteFree false rest.
Proof. destruct c as [[] [] [] [] [] [] [] []]; reflexivity. Qed.

(** X2.  An escaped string fits between two quotes on one line: it holds no
    line feed, tab or carriage return, every quote in it is escaped, and it
    does not end inside an escape. *)
Theorem X2_escaped_text_is_one_line (s : text) :
  (cNewline ∉ escapeTomlString s) ∧ (cTab ∉ escapeTomlString s) ∧
  (cReturn ∉ escapeTomlString s) ∧ quoteFree false (escapeTomlString s) = true.
Proof.
  induction s as [|c s (IHn & IHt & IHr & IHq)].
  - repeat split; apply not_elem_of_nil.
  - rewrite escapeTomlString_cons, !not_elem_of_app, quoteFree_escapeChar.
    destruct (escapeChar_controls c) as (Hn & Ht & Hr). auto.
Qed.

(** ** Values *)

(** X3.  A value that can stand in a line ([wfInline]: safe integers, keys
    of inline tables that need no escape) is read back by [parseTomlValue]
    from the text [toTomlValue] writes. *)
Theorem X3_value_roundtrip (v : cfg) :
  wfInline v = true → parseTomlValue (toTomlValue v) = Some (denote v).
Proof. apply parseTomlValue_generated. Qed.

Definition sampleValue : cfg :=
  CArr [CStr (lit "a, b]"); CNum (-7); CBool false;
        CTab [(lit "k 1", CArr [CStr [cQuote; cBackslash; cNewline]])]].

Lemma X3_value_roundtrip_witness :
  wfInline sampleValue = true ∧
  parseTomlValue (toTomlValue sampleValue) = Some (denote sampleValue).
Proof.
  split; [vm_compute; reflexivity|].
  apply (X3_value_roundtrip sampleValue). vm_compute. reflexivity.
Defined.

(** ** Splitting *)

Lemma joinWith_snoc (sep : text) (l : list text) (x : text) :
  l ≠ [] → joinWith sep (l ++ [x]) = joinWith sep l ++ sep ++ x.
Proof.
  induction l as [|p [|p' rest] IH]; intros Hne; [done|reflexivity|].
  change ((p :: p' :: rest) ++ [x]) with (p :: ((p' :: rest) ++ [x])).
  rewrite joinWith_cons by done. rewrite IH by done.
  rewrite (joinWith_cons sep p (p' :: rest)) by done.
  by rewrite <- !app_assoc.
Qed.

Lemma joinWith_snoc_char (sep : text) (l : list text) (x : text) (c : ascii) :
  joinWith sep (l ++ [x ++ [c]]) = joinWith sep (l ++ [x]) ++ [c].
Proof.
  destruct l as [|p l]; [done|].
  rewrite !joinWith_snoc by done. by rewrite <- !app_assoc.
Qed.

(** What the loop of [splitTomlElements] has read is what it holds: the
    pieces cut so far and the piece under way, joined by the delimiter. *)
Lemma splitStep_holds (d : ascii) (st : SplitState) (ch : ascii) :
  joinWith [d] (pieces (splitStep d st ch) ++ [current (splitStep d st ch)])
  = joinWith [d] (pieces st ++ [current st]) ++ [ch].
Proof.
  unfold splitStep.
  repeat match goal with
         | |- context [if ?b then _ else _] => destruct b eqn:?
         end; simpl pieces; simpl current;
    try apply joinWith_snoc_char.
  rewrite joinWith_snoc by (by destruct (pieces st)).
  rewrite app_nil_r.
  match goal with
  | H : Ascii.eqb ch d && _ = true |- _ =>
      apply andb_true_iff in H as [H%Ascii.eqb_eq _]; by subst
  end.
Qed.

Lemma split_holds (d : ascii) (s : text) :
  ∀ st : SplitState,
    joinWith [d] (pieces (foldl (splitStep d) st s)
                  ++ [current (foldl (splitStep d) st s)])
    = joinWith [d] (pieces st ++ [current st]) ++ s.
Proof.
  induction s as [|ch s IH]; intros st; simpl; [by rewrite app_nil_r|].
  rewrite IH, splitStep_holds. by rewrite <- app_assoc.
Qed.

(** X4.  [splitTomlElements] loses nothing but one trailing delimiter: the
    pieces joined by the delimiter give back the content, or the content
    without its last character, which then is the delimiter. *)
Theorem X4_split_pieces_rebuild_content (content : text) (delimiter : ascii) :
  let parts := splitTomlElements content delimiter in
  joinWith [delimiter] parts = content ∨
  joinWith [delimiter] parts ++ [delimiter] = content.
Proof.
  cbv zeta. unfold splitTomlElements, splitFinish.
  pose proof (split_holds delimiter content
                (mkSplit [] [] 0 false false false)) as Hholds.
  simpl in Hholds.
  destruct (current _) as [|c cur] eqn:Hcur.
  - destruct (pieces _) as [|p ps] eqn:Hps; [by left|].
    right. change (p :: ps) with ([] ++ p :: ps)%list.
    rewrite <- Hholds.
    change (([] ++ p :: ps) ++ [[]])%list with ((p :: ps) ++ [[]])%list.
    rewrite joinWith_snoc by done. by rewrite app_nil_r.
  - left. exact Hholds.
Qed.

(** ** Lines *)

(** A line [parseToml] acts on: not blank and not a comment. *)
Definition significant (rawLine : text) : bool :=
  nonEmptyText (trim rawLine) && negb (startsWith "#" (trim rawLine)).

Lemma parseLine_insignificant (st : ParseState) (rawLine : text) :
  significant rawLine = false → parseLine st rawLine = Some st.
Proof.
  unfold significant, parseLine. cbv zeta. intros H.
  destruct (nonEmptyText (trim rawLine)); simpl in *; [|done].
  apply negb_false_iff in H. by rewrite H.
Qed.

Lemma parseLines_significant (lines : list text) :
  ∀ st : ParseState,
    parseLines (filter (λ l, significant l = true) lines) st
    = parseLines lines st.
Proof.
  induction lines as [|l lines IH]; intros st; [done|].
  rewrite parseLines_cons. destruct (significant l) eqn:Hl.
  - rewrite filter_cons_True by done. rewrite parseLines_cons.
    destruct (parseLine st l) as [st'|]; [apply IH|done].
  - rewrite filter_cons_False by (by rewrite Hl).
    rewrite (parseLine_insignificant _ _ Hl). apply IH.
Qed.

(** X5.  Blank lines and lines whose first non-blank character is [#] do
    not count: a document is read as the document without them. *)
Theorem X5_comments_and_blank_lines_ignored (content : text) :
  parseToml content
  = root <$> parseLines (filter (λ l, significant l = true)
                           (splitOn cNewline content))
                        (mkParse ∅ []).
Proof. unfold parseToml. by rewrite parseLines_significant. Qed.

(** X6.  A section header makes the table at its path the current one and
    keeps what is already stored there: a section can be reopened. *)
Theorem X6_header_reopens_section (st : ParseState) (parts : list text) :
  parts ≠ [] → Forall (λ k, bareKey k = true) parts →
  clearPath parts (root st) →
  ∃ st', parseLine st (headerLine parts) = Some st' ∧
         currentSection st' = parts ∧
         tableAt parts (root st') = tableAt parts (root st).
Proof.
  intros Hne Hbare Hclear.
  rewrite (parseLine_header _ _ Hne Hbare), (ensurePath_graft _ _ Hclear).
  eexists. split; [reflexivity|]. split; [reflexivity|].
  simpl. rewrite tableAt_graft. by rewrite (left_id_L ∅ (∪)).
Qed.

Lemma X6_header_reopens_section_witness :
  let st := mkParse {[ lit "a" := TTab {[ lit "x" := TNum 1 ]} ]} [] in
  ∃ st', parseLine st (lit "[a]") = Some st' ∧
         currentSection st' = [lit "a"] ∧
         tableAt [lit "a"] (root st') = tableAt [lit "a"] (root st).
Proof.
  apply (X6_header_reopens_section
           (mkParse {[ lit "a" := TTab {[ lit "x" := TNum 1 ]} ]} [])
           [lit "a"]).
  - discriminate.
  - repeat constructor.
  - simpl. rewrite lookup_singleton_eq. exact I.
Defined.

(** The table [t] below the path [parts]. *)
Fixpoint nested (parts : list text) (t : gmap text tval) : gmap text tval :=
  match parts with
  | [] => t
  | p :: ps => {[ p := TTab (nested ps t) ]}
  end.

Lemma graft_empty (parts : list text) (t : gmap text tval) :
  graft parts t ∅ = nested parts t.
Proof.
  induction parts as [|p ps IH]; simpl.
  - by rewrite (right_id_L ∅ (∪)).
  - rewrite lookup_empty. simpl. by rewrite IH.
Qed.

Lemma tableAt_empty (parts : list text) : tableAt parts ∅ = ∅.
Proof. induction parts as [|p ps IH]; simpl; [done|]. by rewrite lookup_empty. Qed.

Lemma clearPath_empty (parts : list text) : clearPath parts ∅.
Proof. induction parts as [|p ps IH]; simpl; [done|]. by rewrite lookup_empty. Qed.

(** X7.  [generateToml] writes the key of a section bare and [parseToml]
    cuts a header at its dots: a non-empty section stored under the key
    [p1.p2...pn] comes back as the table [pn] inside [p(n-1)] ... inside
    [p1]. *)
Theorem X7_dotted_section_key_nests (parts : list text)
    (sub : list (text * cfg)) :
  parts ≠ [] → Forall (λ k, bareKey k = true) parts →
  wfSection (CTab sub) = true → sub ≠ [] →
  parseToml (generateToml [(pathText parts, CTab sub)])
  = Some (nested parts (denoteEntries sub)).
Proof.
  intros Hne Hbare Hwf Hsub.
  destruct (section_lines (CTab sub) sub parts (mkParse ∅ []) eq_refl Hne Hbare
              Hwf Hsub (clearPath_empty parts)) as [cur Hrun].
  { intros k _. simpl. by rewrite tableAt_empty. }
  pose proof (section_plain (CTab sub) parts Hne Hbare Hwf) as Hplain.
  simpl root in Hrun. rewrite graft_empty in Hrun.
  unfold parseToml, generateToml.
  assert (generateLines [(pathText parts, CTab sub)]
          = writeTomlSection (pathText parts) (CTab sub)) as ->.
  { unfold generateLines. simpl. by rewrite app_nil_r. }
  destruct (writeTomlSection (pathText parts) (CTab sub)) as [|l lines].
  - change (splitOn cNewline []) with [@nil ascii].
    injection Hrun as Hroot _. rewrite <- Hroot. reflexivity.
  - rewrite joinWith_newline by done. rewrite (splitOn_lines _ Hplain).
    rewrite parseLines_app, Hrun. reflexivity.
Qed.

Lemma X7_dotted_section_key_nests_witness :
  parseToml (generateToml [(lit "a.b", CTab [(lit "x", CNum 1)])])
  = Some {[ lit "a" := TTab {[ lit "b" := TTab {[ lit "x" := TNum 1 ]} ]} ]}.
Proof.
  apply (X7_dotted_section_key_nests [lit "a"; lit "b"] [(lit "x", CNum 1)]).
  - discriminate.
  - repeat constructor.
  - vm_compute. reflexivity.
  - discriminate.
Defined.

End TomlLaws.

(* ===================================================================== *)
(** * Invariants of the bridge supervisor                                 *)
(* ===================================================================== *)

Module Lifecycle.

Import Supervisor.

(** What every run of the manager keeps: a running manager holds a child;
    the counter stays between 0 and the maximum; every delay handed to
    [setTimeout] is 1000, 2000 or 3000 ms; the handle held and the handles
    killed are handles of children that were spawned, and the one held has
    not been killed. *)
Record sound (w : World) : Prop := mkSound {
  sound_running : _isRunning (mgr w) = true → is_Some (_process (mgr w));
  sound_count : 0 ≤ _restartCount (mgr w) ≤ _maxRestarts;
  sound_delays : Forall (λ d, d = 1000 ∨ d = 2000 ∨ d = 3000) (scheduled w);
  sound_held : ∀ p, _process (mgr w) = Some p → (p < spawned w)%nat ∧ p ∉ killed w;
  sound_killed : Forall (λ p, (p < spawned w)%nat) (killed w);
  sound_once : NoDup (killed w);
}.

Lemma sound_initial : sound initial.
Proof.
  split; simpl; try done. constructor.
Qed.

Lemma sound_start (w : World) : sound w → sound (start w).
Proof.
  intros Hs. unfold start.
  destruct (_isRunning (mgr w)) eqn:Hrun; [exact Hs|].
  destruct Hs as [Hr Hc Hd Hh Hk Ho].
  split; simpl; try done.
  - intros p [= <-]. split; [lia|].
    intros Hin. rewrite Forall_forall in Hk. specialize (Hk _ Hin). lia.
  - eapply Forall_impl; [exact Hk|]. simpl. lia.
Qed.

Lemma sound_on_exit (code : option Z) (w : World) :
  sound w → sound (on_exit code w).
Proof.
  intros Hs. pose proof Hs as [Hr Hc Hd Hh Hk Ho]. unfold on_exit. cbv zeta.
  destruct (code_nonzero code && (_restartCount (mgr w) <? _maxRestarts))
    eqn:Hcond.
  - apply andb_true_iff in Hcond as [_ Hlt%Z.ltb_lt].
    unfold _maxRestarts in *.
    split; simpl; try done; try (unfold _maxRestarts; lia).
    apply Forall_app. split; [done|]. constructor; [lia|constructor].
  - destruct (_maxRestarts <=? _restartCount (mgr w)); split; simpl; done.
Qed.

Lemma sound_drop_timer (w : World) (rest : list Z) :
  sound w →
  sound (mkWorld (mgr w) (spawned w) (killed w) (scheduled w) rest
                 (errorsShown w)).
Proof. intros [Hr Hc Hd Hh Hk Ho]. split; simpl; done. Qed.

Lemma sound_fire_timer (w : World) : sound w → sound (fire_timer w).
Proof.
  intros Hs. unfold fire_timer. destruct (pending w) as [|d rest]; [done|].
  by apply sound_start, sound_drop_timer.
Qed.

Lemma sound_stop (w : World) : sound w → sound (stop w).
Proof.
  intros Hs. pose proof Hs as [Hr Hc Hd Hh Hk Ho]. unfold stop.
  destruct (_process (mgr w)) as [p|] eqn:Hp; [|exact Hs].
  destruct (Hh p eq_refl) as [Hlt Hfresh].
  split; simpl; try done.
  - apply Forall_app. split; [done|]. by constructor.
  - apply NoDup_app. split; [done|]. split; [|apply NoDup_singleton].
    intros q Hq ->%list_elem_of_singleton. done.
Qed.

Lemma sound_reset (w : World) :
  sound w →
  sound (mkWorld (mkManager (_process (mgr w)) (_isRunning (mgr w)) 0)
                 (spawned w) (killed w) (scheduled w) (pending w)
                 (errorsShown w)).
Proof.
  intros [Hr Hc Hd Hh Hk Ho]. split; simpl; done.
Qed.

Lemma sound_restart (w : World) : sound w → sound (restart w).
Proof. intros Hs. by apply sound_start, sound_reset, sound_stop. Qed.

Lemma sound_step (w : World) (e : event) : sound w → sound (step w e).
Proof.
  destruct e; simpl;
    auto using sound_start, sound_on_exit, sound_fire_timer, sound_stop,
               sound_restart.
Qed.

Lemma sound_run (es : list event) : ∀ w, sound w → sound (run es w).
Proof.
  induction es as [|e es IH]; intros w Hs; [done|].
  apply IH, sound_step, Hs.
Qed.

(** X8.  Whatever happens to a manager (calls of [start], [stop] and
    [restart], exits of children, timers firing, in any order): a manager
    that says it is running holds a child process; [_restartCount] stays
    between 0 and 3; every restart delay is 1000, 2000 or 3000 ms; and no
    child is killed twice. *)
Theorem X8_supervisor_invariants (es : list event) :
  let w := run es initial in
  (_isRunning (mgr w) = true → is_Some (_process (mgr w))) ∧
  0 ≤ _restartCount (mgr w) ≤ 3 ∧
  Forall (λ d, d = 1000 ∨ d = 2000 ∨ d = 3000) (scheduled w) ∧
  Forall (λ p, (p < spawned w)%nat) (killed w) ∧
  NoDup (killed w).
Proof.
  destruct (sound_run es initial sound_initial) as [Hr Hc Hd Hh Hk Ho].
  cbv zeta. auto.
Qed.

(** X9.  After [stop()], the exit of the child (with any code, or by a
    signal) makes the exit listener show its error message: the counter
    that [stop()] set to the maximum is what the listener takes for
    exhausted retries. *)
Theorem X9_stop_then_exit_shows_error (w : World) (code : option Z) :
  is_Some (_process (mgr w)) →
  errorsShown (run [EStop; EExit code] w) = S (errorsShown w) ∧
  scheduled (run [EStop; EExit code] w) = scheduled w.
Proof.
  intros [p Hp]. destruct w as [[q r n] sp k sc pe er]. simpl in Hp.
  subst q. unfold run; simpl. unfold stop, on_exit; simpl.
  rewrite andb_false_r. simpl. auto.
Qed.

Lemma X9_stop_then_exit_shows_error_witness :
  errorsShown (run [EStop; EExit None] (start initial)) = 1%nat ∧
  scheduled (run [EStop; EExit None] (start initial)) = [].
Proof.
  apply (X9_stop_then_exit_shows_error (start initial) None). by eexists.
Defined.

(** X10.  [restart()] in any state a manager can reach leaves it running
    with a freshly spawned child and the counter at 0; the child held
    before, if any, is killed. *)
Theorem X10_restart_spawns_one_child (es : list event) :
  let w := run es initial in
  let w' := restart w in
  _isRunning (mgr w') = true ∧
  _process (mgr w') = Some (spawned w) ∧
  spawned w' = S (spawned w) ∧
  _restartCount (mgr w') = 0 ∧
  killed w' = killed w ++ from_option (λ p, [p]) [] (_process (mgr w)).
Proof.
  destruct (sound_run es initial sound_initial) as [Hr _ _ _ _ _].
  cbv zeta. set (w := run es initial) in *. clearbody w.
  destruct w as [[[p|] r n] sp k sc pe er]; simpl in *.
  - unfold restart, stop, start; simpl. auto.
  - destruct r; [by destruct (Hr eq_refl)|].
    unfold restart, stop, start; simpl. rewrite app_nil_r. auto.
Qed.

(** X11.  The exit listener does not tell children apart.  When the child
    killed by [restart()] exits, the listener marks the manager as not
    running although the new child is alive, and schedules a start after
    1000 ms; when that timer fires a further child is spawned and takes the
    place of the one [restart()] started, which is never killed. *)
Theorem X11_restart_then_exit_spawns_twice (w : World) (p : nat)
    (code : option Z) :
  _process (mgr w) = Some p → pending w = [] → code_nonzero code = true →
  let w1 := run [ERestart; EExit code] w in
  let w2 := run [ERestart; EExit code; ETimer] w in
  _isRunning (mgr w1) = false ∧ _process (mgr w1) = Some (spawned w) ∧
  scheduled w1 = scheduled w ++ [1000] ∧
  _isRunning (mgr w2) = true ∧ _process (mgr w2) = Some (S (spawned w)) ∧
  spawned w2 = S (S (spawned w)) ∧ killed w2 = killed w ++ [p].
Proof.
  intros Hp Hpe Hcode. destruct w as [[q r n] sp k sc pe er].
  simpl in Hp, Hpe. subst q pe.
  unfold run; simpl. unfold restart, stop, start, on_exit, fire_timer; simpl.
  rewrite Hcode. simpl. repeat split.
Qed.

Lemma X11_restart_then_exit_spawns_twice_witness :
  let w := start initial in
  let w2 := run [ERestart; EExit None; ETimer] w in
  _process (mgr w2) = Some 2%nat ∧ spawned w2 = 3%nat ∧ killed w2 = [0%nat].
Proof.
  destruct (X11_restart_then_exit_spawns_twice (start initial) 0 None
              eq_refl eq_refl eq_refl) as (_ & _ & _ & _ & H1 & H2 & H3).
  cbv zeta. auto.
Defined.

End Lifecycle.

(* ===================================================================== *)
(** * The line framing of the bridge output (BridgeManager)               *)
(* ===================================================================== *)

Module Framing.

Import Toml.

Section HandleData.

(** [JSON.parse(line) as BridgeMessage]: [None] when it throws. *)
Context {BridgeMessage : Type} (parse : text → option BridgeMessage).

(** The body of the loop of [_handleData]: the message a complete line
    hands to [_handleMessage], if any. *)
Definition lineMessage (line : text) : option BridgeMessage :=
  if nonEmptyText (trim line) then
    if startsWith "{" (trim line) then parse line else None
  else None.

(** [_handleData(data)] on the buffer [_messageBuffer]: the new buffer and
    the messages handled, in order. *)
Definition _handleData (_messageBuffer : text) (data : text)
  : text * list BridgeMessage :=
  let lines := splitOn cNewline (_messageBuffer ++ data) in
  (default [] (last lines), omap lineMessage (removelast lines)).

(** Feeding the chunks of a list one after the other. *)
Definition feed (state : text * list BridgeMessage) (data : text)
  : text * list BridgeMessage :=
  let '(buffer, handled) := state in
  let '(buffer', more) := _handleData buffer data in
  (buffer', handled ++ more).

Lemma splitOn_nonempty (c : ascii) (s : text) : splitOn c s ≠ [].
Proof.
  induction s as [|x s IH]; simpl; [done|].
  destruct (Ascii.eqb x c); [done|]. by destruct (splitOn c s).
Qed.

Lemma splitOn_unfold (c : ascii) (x : ascii) (s : text) :
  x ≠ c →
  ∃ p ps, splitOn c s = p :: ps ∧ splitOn c (x :: s) = (x :: p) :: ps.
Proof.
  intros Hx. simpl. destruct (Ascii.eqb_spec x c) as [->|_]; [done|].
  destruct (splitOn c s) as [|p ps] eqn:Hs; [by apply splitOn_nonempty in Hs|].
  by exists p, ps.
Qed.

(** Splitting a text read in two parts: the last piece of the first part is
    continued by the second. *)
Lemma splitOn_continue (c : ascii) (a b : text) :
  splitOn c (a ++ b)
  = removelast (splitOn c a) ++ splitOn c (default [] (last (splitOn c a)) ++ b).
Proof.
  induction a as [|x a IH]; [done|].
  destruct (Ascii.eqb_spec x c) as [->|Hx].
  - simpl. rewrite Ascii.eqb_refl, IH.
    destruct (splitOn c a) as [|p ps] eqn:Hs;
      [by apply splitOn_nonempty in Hs|].
    by rewrite last_cons_cons.
  - destruct (splitOn_unfold c x a Hx) as (p & ps & Hs & Hxs).
    destruct (splitOn_unfold c x (a ++ b) Hx) as (q & qs & Hab & Hxab).
    change ((x :: a) ++ b) with (x :: (a ++ b)). rewrite Hxab, Hxs.
    rewrite IH, Hs in Hab. destruct ps as [|p' ps].
    + destruct (splitOn_unfold c x (p ++ b) Hx) as (r & rs & Hpb & Hxpb).
      change (removelast [x :: p] ++
                splitOn c (default [] (last [x :: p]) ++ b))
        with (splitOn c (x :: (p ++ b))).
      change (removelast [p] ++ splitOn c (default [] (last [p]) ++ b))
        with (splitOn c (p ++ b)) in Hab.
      rewrite Hxpb. rewrite Hpb in Hab.
      injection Hab as Hq Hqs. subst q qs. reflexivity.
    + rewrite last_cons_cons in Hab. rewrite last_cons_cons.
      assert (∀ y : text, removelast (y :: p' :: ps)
                          = y :: removelast (p' :: ps)) as Hcut
        by reflexivity.
      rewrite Hcut in Hab. rewrite Hcut.
      rewrite <- app_comm_cons in Hab. rewrite <- app_comm_cons.
      injection Hab as Hq Hqs. subst q qs. reflexivity.
Qed.

Lemma removelast_app_nonempty {A} (l1 l2 : list A) :
  l2 ≠ [] → removelast (l1 ++ l2) = l1 ++ removelast l2.
Proof. intros H. by apply removelast_app. Qed.

Lemma last_app_nonempty {A} (l1 l2 : list A) :
  l2 ≠ [] → last (l1 ++ l2) = last l2.
Proof.
  intros H. destruct l2 as [|x l2 _] using rev_ind; [done|].
  by rewrite app_assoc, !last_snoc.
Qed.

(** X12.  The framing does not depend on how the output of the bridge is
    cut into chunks: handling a chunk and then another handles the same
    messages, in the same order, and leaves the same buffer as handling
    the two as one chunk. *)
Theorem X12_chunking_is_invisible (_messageBuffer d1 d2 : text) :
  _handleData _messageBuffer (d1 ++ d2)
  = feed (_handleData _messageBuffer d1) d2.
Proof.
  unfold feed, _handleData. cbv zeta.
  rewrite app_assoc, splitOn_continue.
  set (first := splitOn cNewline (_messageBuffer ++ d1)).
  set (second := splitOn cNewline (default [] (last first) ++ d2)).
  assert (second ≠ []) as Hne by apply splitOn_nonempty.
  rewrite last_app_nonempty, removelast_app_nonempty by done.
  by rewrite omap_app.
Qed.

Lemma splitOn_last_free (c : ascii) (s : text) :
  c ∉ default [] (last (splitOn c s)).
Proof.
  induction s as [|x s IH]; simpl; [apply not_elem_of_nil|].
  destruct (Ascii.eqb_spec x c) as [->|Hx].
  - destruct (splitOn c s) as [|p ps] eqn:Hs;
      [by apply splitOn_nonempty in Hs|].
    by rewrite last_cons_cons.
  - destruct (splitOn c s) as [|p [|p' ps]] eqn:Hs;
      [by apply splitOn_nonempty in Hs| |].
    + simpl in *. by apply not_elem_of_cons.
    + by rewrite last_cons_cons in *.
Qed.

(** X13.  The buffer kept between two chunks never holds a line feed.  A
    chunk without a line feed is only appended to the buffer, no message is
    handled; the line feed that ends a line hands the whole line to the
    parser, also when the line arrived in pieces, and empties the buffer. *)
Theorem X13_messages_wait_for_their_line_feed (_messageBuffer data : text) :
  (cNewline ∉ (_handleData _messageBuffer data).1) ∧
  ((cNewline ∉ _messageBuffer ++ data) →
   _handleData _messageBuffer data = (_messageBuffer ++ data, []) ∧
   _handleData _messageBuffer (data ++ [cNewline])
   = ([], from_option (λ m, [m]) [] (lineMessage (_messageBuffer ++ data)))).
Proof.
  split; [apply splitOn_last_free|]. intros Hfree. unfold _handleData.
  cbv zeta. split.
  - by rewrite (splitOn_nil_free _ _ Hfree).
  - rewrite app_assoc. rewrite (splitOn_app _ _ [] Hfree). simpl.
    by destruct (lineMessage (_messageBuffer ++ data)).
Qed.

End HandleData.

(** ** The handlers of [onMessage] and [offMessage] *)

(** [_messageHandlers]: for each message type the handlers registered, in
    the order of registration.  A handler is known by its identity. *)
Definition Handlers := gmap string (list nat).

Definition onMessage (type : string) (handler : nat) (hs : Handlers)
  : Handlers :=
  <[type := default [] (hs !! type) ++ [handler]]> hs.

(** [handlers.splice(handlers.indexOf(handler), 1)]. *)
Fixpoint spliceFirst (handler : nat) (handlers : list nat) : list nat :=
  match handlers with
  | [] => []
  | h :: rest => if decide (h = handler) then rest
                 else h :: spliceFirst handler rest
  end.

Definition offMessage (type : string) (handler : nat) (hs : Handlers)
  : Handlers :=
  match hs !! type with
  | Some handlers => <[type := spliceFirst handler handlers]> hs
  | None => hs
  end.

(** The handlers [_handleMessage] calls for a message of a type. *)
Definition called (hs : Handlers) (type : string) : list nat :=
  default [] (hs !! type).

Lemma spliceFirst_fresh (handler : nat) (l : list nat) :
  handler ∉ l → spliceFirst handler (l ++ [handler]) = l.
Proof.
  induction l as [|h l IH]; intros Hh; simpl.
  - by rewrite decide_True.
  - apply not_elem_of_cons in Hh as [Hne Hh].
    rewrite decide_False by done. by rewrite IH.
Qed.

Lemma spliceFirst_perm (handler : nat) (l : list nat) :
  handler ∈ l → handler :: spliceFirst handler l ≡ₚ l.
Proof.
  induction l as [|h l IH]; intros Hh; [by apply elem_of_nil in Hh|].
  simpl. destruct (decide (h = handler)) as [->|Hne]; [done|].
  apply elem_of_cons in Hh as [->|Hh]; [done|].
  rewrite Permutation_swap. by rewrite IH.
Qed.

(** X14.  [offMessage] takes back one registration of [onMessage]: after
    registering a handler for a type and removing it again, the handlers
    called for that type are the ones called before (in the same order when
    the handler had not been registered already, in some order otherwise),
    and the handlers of every other type are untouched. *)
Theorem X14_off_undoes_on (type : string) (handler : nat) (hs : Handlers) :
  let hs' := offMessage type handler (onMessage type handler hs) in
  called hs' type ≡ₚ called hs type ∧
  (handler ∉ called hs type → called hs' type = called hs type) ∧
  (∀ other, other ≠ type → called hs' other = called hs other).
Proof.
  cbv zeta. unfold offMessage, onMessage, called, Handlers in *.
  rewrite lookup_insert_eq. rewrite insert_insert_eq.
  set (l := default [] (hs !! type)). split; [|split].
  - rewrite lookup_insert_eq. simpl.
    apply (inj (cons handler)).
    rewrite spliceFirst_perm by (apply elem_of_app; right; constructor).
    by rewrite Permutation_app_comm.
  - intros Hfresh. rewrite lookup_insert_eq. simpl.
    by apply spliceFirst_fresh.
  - intros other Hne. by rewrite lookup_insert_ne.
Qed.

End Framing.

(* ===================================================================== *)
(** * The dispatch of handleMessage                                       *)
(* ===================================================================== *)

Module Dispatch.

Import ObjectPrototype Router.
Local Open Scope string_scope.

(** What a branch of the [switch] of [handleMessage] does with the content
    and the request id: call a handler, send the request back to the
    extension as a [fileOperation] (with [operation: type]), send the fixed
    notice of the file chooser, or, in the [default] branch, answer with an
    empty object under the type [type + 'Response']. *)
Inductive action :=
| Call (handler : string)
| ForwardFileOperation (operation : string)
| FileChooserNotice
| EmptyResponse (responseType : string).

#[global] Instance action_eq_dec : EqDecision action.
Proof. solve_decision. Defined.

(** The [case] labels in source order, each with the action of its
    branch. *)
Definition cases : list (string * action) :=
  [
   ("sendMessage", Call "handleSendMessage");
   ("sendMessageWithAttachments", Call "handleSendMessage");
   ("getHistory", Call "handleGetHistory");
   ("loadSession", Call "handleLoadSession");
   ("deleteSession", Call "handleDeleteSession");
   ("createNewSession", Call "handleCreateNewSession");
   ("interruptSession", Call "handleInterruptSession");
   ("exportSession", Call "handleExportSession");
   ("toggleFavorite", Call "handleToggleFavorite");
   ("updateTitle", Call "handleUpdateTitle");
   ("createNewTab", Call "handleCreateNewTab");
   ("getSettings", Call "handleGetSettings");
   ("updateSettings", Call "handleUpdateSettings");
   ("getStreamingEnabled", Call "handleGetStreamingEnabled");
   ("setStreamingEnabled", Call "handleSetStreamingEnabled");
   ("getSendShortcut", Call "handleGetSendShortcut");
   ("setSendShortcut", Call "handleSetSendShortcut");
   ("getThinkingEnabled", Call "handleGetThinkingEnabled");
   ("setThinkingEnabled", Call "handleSetThinkingEnabled");
   ("getProviderConfig", Call "handleGetProviderConfig");
   ("updateProviderConfig", Call "handleUpdateProviderConfig");
   ("getCurrentClaudeConfig", Call "handleGetCurrentClaudeConfig");
   ("updateCurrentClaudeConfig", Call "handleUpdateCurrentClaudeConfig");
   ("getActiveProvider", Call "handleGetActiveClaudeProvider");
   ("setActiveProvider", Call "handleSetChatProvider");
   ("setProvider", Call "handleSetChatProvider");
   ("switchProvider", Call "handleSwitchClaudeProvider");
   ("getProviders", Call "handleGetProviders");
   ("addProvider", Call "handleAddProvider");
   ("updateProvider", Call "handleUpdateProvider");
   ("deleteProvider", Call "handleDeleteProvider");
   ("getCodexProviders", Call "handleGetCodexProviders");
   ("addCodexProvider", Call "handleAddCodexProvider");
   ("updateCodexProvider", Call "handleUpdateCodexProvider");
   ("switchCodexProvider", Call "handleSwitchCodexProvider");
   ("deleteCodexProvider", Call "handleDeleteCodexProvider");
   ("setModel", Call "handleSetModel");
   ("setMode", Call "handleSetMode");
   ("setReasoningEffort", Call "handleSetReasoningEffort");
   ("permissionResponse", Call "handlePermissionResponse");
   ("permissionDecision", Call "handlePermissionResponse");
   ("askUserQuestionResponse", Call "handleAskUserQuestionResponse");
   ("planApprovalResponse", Call "handlePlanApprovalResponse");
   ("getMcpServers", Call "handleGetMcpServers");
   ("getCodexMcpServers", Call "handleGetCodexMcpServers");
   ("addMcpServer", Call "handleAddMcpServer");
   ("addCodexMcpServer", Call "handleAddCodexMcpServer");
   ("updateMcpServer", Call "handleUpdateMcpServer");
   ("updateCodexMcpServer", Call "handleUpdateCodexMcpServer");
   ("deleteMcpServer", Call "handleDeleteMcpServer");
   ("deleteCodexMcpServer", Call "handleDeleteCodexMcpServer");
   ("toggleMcpServer", Call "handleToggleMcpServer");
   ("toggleCodexMcpServer", Call "handleToggleCodexMcpServer");
   ("getMcpServerStatus", Call "handleGetMcpServerStatus");
   ("getSkills", Call "handleGetSkills");
   ("importSkill", Call "handleImportSkill");
   ("openSkill", Call "handleOpenSkill");
   ("deleteSkill", Call "handleDeleteSkill");
   ("toggleSkill", Call "handleToggleSkill");
   ("getAgents", Call "handleGetAgents");
   ("getSelectedAgent", Call "handleGetSelectedAgent");
   ("setSelectedAgent", Call "handleSetSelectedAgent");
   ("addAgent", Call "handleAddAgent");
   ("updateAgent", Call "handleUpdateAgent");
   ("deleteAgent", Call "handleDeleteAgent");
   ("getDependencies", Call "handleGetDependencies");
   ("getSdkStatus", Call "handleGetSdkStatus");
   ("installDependency", Call "handleInstallDependency");
   ("uninstallDependency", Call "handleUninstallDependency");
   ("checkNodeEnvironment", Call "handleCheckNodeEnvironment");
   ("getUsageStatistics", Call "handleGetUsageStatistics");
   ("openFile", ForwardFileOperation "openFile");
   ("openBrowser", ForwardFileOperation "openBrowser");
   ("refreshFile", ForwardFileOperation "refreshFile");
   ("showDiff", ForwardFileOperation "showDiff");
   ("showMultiEditDiff", ForwardFileOperation "showMultiEditDiff");
   ("rewindFiles", ForwardFileOperation "rewindFiles");
   ("listFiles", ForwardFileOperation "listFiles");
   ("saveJson", ForwardFileOperation "saveJson");
   ("frontendReady", Call "handleFrontendReady");
   ("refreshSlashCommands", Call "handleRefreshSlashCommands");
   ("getNodePath", Call "handleGetNodePath");
   ("setNodePath", Call "handleSetNodePath");
   ("getWorkingDirectory", Call "handleGetWorkingDirectory");
   ("setWorkingDirectory", Call "handleSetWorkingDirectory");
   ("getEditorFontConfig", Call "handleGetEditorFontConfig");
   ("openFileChooserForCcSwitch", FileChooserNotice);
   ("previewCcSwitchImport", Call "handlePreviewCcSwitchImport");
   ("saveImportedProviders", Call "handleSaveImportedProviders")
  ].

Definition caseTable : gmap string action := list_to_map cases.

(** [handleMessage]: the type is normalized, then dispatched.  The [case]
    labels are strings and [switch] compares with [===], so a member of
    [Object.prototype] that the normalization returned takes the [default]
    branch, where [type + 'Response'] prints it. *)
Definition handleMessage (rawType : string) : action :=
  match normalizeMessageType (Str rawType) with
  | Str type =>
      match caseTable !! type with
      | Some branch => branch
      | None => EmptyResponse (type ++ "Response")
      end
  | Inherited m => EmptyResponse (memberText m ++ "Response")
  end.

Definition handled (a : action) : bool :=
  match a with
  | EmptyResponse _ => false
  | _ => true
  end.

Lemma entries_dispatched :
  Forall (λ kc : string * string,
            handleMessage kc.1 = handleMessage kc.2 ∧
            handled (handleMessage kc.1) = true)
         typeMap_entries.
Proof. apply (bool_decide_unpack _). vm_compute. exact I. Qed.

Lemma cases_named :
  Forall (λ ca : string * action, ca.1 ∈ canonical_names) cases.
Proof. apply (bool_decide_unpack _). vm_compute. exact I. Qed.

Lemma typeMap_keys_distinct : NoDup typeMap_entries.*1.
Proof. apply (bool_decide_unpack _). vm_compute. exact I. Qed.

(** X15.  The two tables of the router agree.  A request under a legacy
    snake_case name takes the branch of its camelCase name and never the
    [default] branch; every [case] label is the camelCase name of some
    legacy name; and a type that is neither gets the empty answer
    [type + 'Response'], where [type] is the string itself, or, when the
    string names a member of [Object.prototype], the text of that member. *)
Theorem X15_legacy_names_reach_their_handler :
  (∀ legacy canonical : string,
     typeMap !! legacy = Some canonical →
     handleMessage legacy = handleMessage canonical ∧
     handled (handleMessage legacy) = true) ∧
  (∀ (label : string) (branch : action),
     (label, branch) ∈ cases → ∃ legacy, typeMap !! legacy = Some label) ∧
  (∀ type : string,
     typeMap !! type = None → caseTable !! type = None →
     handleMessage type
     = EmptyResponse (match memberOf type with
                      | Some m => memberText m
                      | None => type
                      end ++ "Response")).
Proof.
  split; [|split].
  - intros legacy canonical Hk. apply typeMap_lookup_entry in Hk.
    pose proof entries_dispatched as Hall. rewrite Forall_forall in Hall.
    apply (Hall _ Hk).
  - intros label branch Hin.
    pose proof cases_named as Hall. rewrite Forall_forall in Hall.
    specialize (Hall _ Hin). simpl in Hall. unfold canonical_names in Hall.
    apply list_elem_of_fmap in Hall as ([legacy c] & -> & Hentry).
    exists legacy. simpl.
    by apply (elem_of_list_to_map_1 _ _ _ typeMap_keys_distinct).
  - intros type Hnone Hcase. unfold handleMessage.
    rewrite (normalize_unknown _ Hnone).
    destruct (memberOf type); [done|]. by rewrite Hcase.
Qed.

(** The request type [toString] is answered under the text of the
    function. *)
Example handleMessage_toString :
  handleMessage "toString"
  = EmptyResponse "function toString() { [native code] }Response".
Proof. vm_compute. reflexivity. Qed.

End Dispatch.

(* ===================================================================== *)
(** * Session titles and favorites                                        *)
(* ===================================================================== *)

Module Titles.

Import ObjectPrototype Stores.

(** [String.prototype.trim] on the strings of the stores, which are
    sequences of code units below 256: the white space among them is 9 to
    13, 32 and 160. *)
Definition trimString (s : string) : string :=
  string_of_list_ascii (Toml.trim (list_ascii_of_string s)).

Lemma trimStart_head (s : Toml.text) :
  Toml.trimStart s = [] ∨
  ∃ c rest, Toml.trimStart s = c :: rest ∧ Toml.isWhitespace c = false.
Proof.
  induction s as [|c s IH]; [by left|]. simpl.
  destruct (Toml.isWhitespace c) eqn:Hc; [done|]. right. by exists c, s.
Qed.

Lemma trimStart_snoc (l : Toml.text) (c : ascii) :
  Toml.isWhitespace c = false →
  ∃ l', Toml.trimStart (l ++ [c]) = l' ++ [c].
Proof.
  intros Hc. induction l as [|x l IH]; simpl.
  - rewrite Hc. by exists [].
  - destruct (Toml.isWhitespace x); [done|]. by exists (x :: l).
Qed.

(** What [trim] returns is empty or has no white space at either end. *)
Lemma trim_empty_or_solid (s : Toml.text) :
  Toml.trim s = [] ∨ Toml.solid (Toml.trim s).
Proof.
  unfold Toml.trim, Toml.trimEnd.
  destruct (trimStart_head s) as [->|(c & rest & -> & Hc)]; [by left|].
  right. rewrite reverse_cons.
  destruct (trimStart_snoc (reverse rest) c Hc) as [l' Hl'].
  destruct (trimStart_head (reverse rest ++ [c])) as [He|(d & r & Hd & Hdw)].
  { rewrite He in Hl'. by destruct l'. }
  rewrite Hd. rewrite Hd in Hl'. split.
  - rewrite Hl', reverse_snoc. by exists c, (reverse l').
  - exists d. split; [|done]. by rewrite reverse_cons, last_snoc.
Qed.

Lemma trim_idempotent (s : Toml.text) : Toml.trim (Toml.trim s) = Toml.trim s.
Proof.
  destruct (trim_empty_or_solid s) as [->|Hs]; [done|].
  by apply Toml.trim_solid.
Qed.

Local Open Scope string_scope.

Lemma trimString_idempotent (s : string) :
  trimString (trimString s) = trimString s.
Proof.
  unfold trimString.
  by rewrite list_ascii_of_string_of_list_ascii, trim_idempotent.
Qed.

(** The payload of [updateTitle] and [exportSession]: a bare string, or an
    object whose [sessionId], [customTitle] and [title] are strings when
    present. *)
Inductive payload :=
| PayloadString (s : string)
| PayloadObject (sessionId customTitle title : option string)
| PayloadMissing.

(** [(typeof content === 'string' ? content : content?.sessionId) || null]. *)
Definition payloadSessionId (c : payload) : option string :=
  match c with
  | PayloadString s => if decide (s = "") then None else Some s
  | PayloadObject (Some s) _ _ => if decide (s = "") then None else Some s
  | _ => None
  end.

(** The title [handleUpdateTitle] reads from the payload. *)
Definition payloadTitle (c : payload) : string :=
  match c with
  | PayloadObject _ (Some custom) _ => custom
  | PayloadObject _ None (Some t) => t
  | _ => ""
  end.

Inductive titleReply :=
| TitleError (message : string)
| TitleUpdated (sessionId : string) (title : string).

(** [handleUpdateTitle]; [now] is the value of [Date.now()].  The
    assignment [titles[sessionId] = { ... }] stores an own property, except
    for the session id [__proto__] on a store without such an own
    property: there it runs the setter of [Object.prototype], and
    [saveJsonFile] writes the store as it was. *)
Definition handleUpdateTitle (c : payload) (now : Z) (d : Disk)
  : Disk * titleReply :=
  match payloadSessionId c with
  | None => (d, TitleError "Session not found")
  | Some sid =>
      let titles := loadTitles d in
      let trimmed := trimString (payloadTitle c) in
      let titles' :=
        if decide (trimmed = "") then
          if found titles sid then delete sid titles else titles
        else if bool_decide (sid = "__proto__")
                && negb (bool_decide (is_Some (titles !! sid)))
        then titles
        else <[sid := mkTitle trimmed now]> titles in
      (mkDisk (projectsDir d) (favoritesFile d) (Some titles'),
       TitleUpdated sid trimmed)
  end.

(** The title of a session as the readers compute it from the store:
    [handleExportSession] falls back to the title of the payload,
    [handleGetHistory] to the first 50 characters of the first user
    message. *)
Definition storedTitle (d : Disk) (sid : string) : option string :=
  match loadTitles d !! sid with
  | Some t =>
      if decide (trimString (customTitle t) = "") then None
      else Some (trimString (customTitle t))
  | None => None
  end.

Definition exportTitle (c : payload) (d : Disk) (sid : string) : string :=
  match storedTitle d sid with
  | Some t => t
  | None =>
      match c with
      | PayloadObject _ _ (Some t) => t
      | _ => "Untitled Session"
      end
  end.

Definition historyTitle (d : Disk) (sid : string) (inferredTitle : string)
  : string :=
  match storedTitle d sid with
  | Some t => t
  | None =>
      if decide (inferredTitle = "") then "Untitled Session"
      else substring 0 50 inferredTitle
  end.

(** X16.  [handleUpdateTitle] stores the trimmed title, and both readers
    show exactly that title afterwards; a blank title removes the entry, so
    the readers fall back to their defaults.  The one session id for which
    a title is not stored is [__proto__], when the store has no own entry
    of that name: the store stays as it was.  The titles of the other
    sessions, the favorites and the session files are untouched. *)
Theorem X16_update_title_then_read (c : payload) (now : Z) (d : Disk)
    (sid : string) :
  payloadSessionId c = Some sid →
  let trimmed := trimString (payloadTitle c) in
  let d' := (handleUpdateTitle c now d).1 in
  (handleUpdateTitle c now d).2 = TitleUpdated sid trimmed ∧
  (trimmed ≠ "" →
   sid ≠ "__proto__" ∨ is_Some (loadTitles d !! sid) →
     loadTitles d' !! sid = Some (mkTitle trimmed now) ∧
     (∀ c', exportTitle c' d' sid = trimmed) ∧
     (∀ inferred, historyTitle d' sid inferred = trimmed)) ∧
  (trimmed ≠ "" → sid = "__proto__" → loadTitles d !! sid = None →
     loadTitles d' = loadTitles d) ∧
  (trimmed = "" →
     loadTitles d' !! sid = None ∧ storedTitle d' sid = None) ∧
  (∀ other, other ≠ sid → loadTitles d' !! other = loadTitles d !! other) ∧
  favoritesFile d' = favoritesFile d ∧ projectsDir d' = projectsDir d.
Proof.
  intros Hsid. cbv zeta. unfold handleUpdateTitle. rewrite Hsid. cbv zeta.
  set (trimmed := trimString (payloadTitle c)).
  assert (trimString trimmed = trimmed) as Hidem
    by apply trimString_idempotent.
  simpl. split; [done|]. split; [|split; [|split; [|split; [|done]]]].
  - intros Hne Hown. rewrite decide_False by done.
    assert (bool_decide (sid = "__proto__")
            && negb (bool_decide (is_Some (loadTitles d !! sid))) = false)
      as ->.
    { destruct Hown as [Hp|Hown].
      - by rewrite bool_decide_eq_false_2.
      - rewrite (bool_decide_eq_true_2 _ Hown). apply andb_false_r. }
    assert (storedTitle
              (mkDisk (projectsDir d) (favoritesFile d)
                 (Some (<[sid := mkTitle trimmed now]> (loadTitles d)))) sid
            = Some trimmed) as Hstored.
    { unfold storedTitle, loadTitles at 1. simpl. rewrite lookup_insert_eq.
      simpl. rewrite Hidem. by rewrite decide_False. }
    split; [|split].
    + unfold loadTitles at 1. simpl. by rewrite lookup_insert_eq.
    + intros c'. unfold exportTitle. by rewrite Hstored.
    + intros inferred. unfold historyTitle. by rewrite Hstored.
  - intros Hne -> Hnone. rewrite decide_False by done.
    rewrite bool_decide_eq_true_2 by done.
    rewrite bool_decide_eq_false_2 by (rewrite Hnone; by intros [? ?]).
    reflexivity.
  - intros He. rewrite decide_True by done.
    assert (loadTitles
              (mkDisk (projectsDir d) (favoritesFile d)
                 (Some (if found (loadTitles d) sid
                        then delete sid (loadTitles d)
                        else loadTitles d))) !! sid = None) as Hgone.
    { unfold loadTitles at 1. simpl. unfold found.
      destruct (loadTitles d !! sid) eqn:Hl.
      - rewrite bool_decide_eq_true_2 by eauto. apply lookup_delete_eq.
      - destruct (_ || _); [apply lookup_delete_eq|done]. }
    split; [done|]. unfold storedTitle. by rewrite Hgone.
  - intros other Hne. unfold loadTitles at 1. simpl.
    destruct (decide (trimmed = "")).
    + destruct (found (loadTitles d) sid);
        [by apply lookup_delete_ne|done].
    + destruct (_ && _); [done|]. by apply lookup_insert_ne.
Qed.

Lemma X16_update_title_then_read_witness :
  let c := PayloadObject (Some "s2") (Some "  second try ") None in
  let d' := (handleUpdateTitle c 40 sampleDisk).1 in
  loadTitles d' !! "s2" = Some (mkTitle "second try" 40) ∧
  exportTitle PayloadMissing d' "s2" = "second try" ∧
  loadTitles d' !! "s1" = Some (mkTitle "first" 11).
Proof.
  destruct (X16_update_title_then_read
              (PayloadObject (Some "s2") (Some "  second try ") None) 40
              sampleDisk "s2" eq_refl) as (_ & Hset & _ & _ & Hframe & _).
  destruct Hset as (Hstore & Hexport & _); [discriminate|by left|].
  cbv zeta. split; [exact Hstore|]. split; [apply Hexport|].
  rewrite Hframe by discriminate. reflexivity.
Defined.

(** A title for the session id [__proto__] is answered but not stored. *)
Example update_title_proto :
  let result :=
    handleUpdateTitle (PayloadObject (Some "__proto__") (Some "t") None) 40
      sampleDisk in
  result.2 = TitleUpdated "__proto__" "t" ∧
  loadTitles result.1 = loadTitles sampleDisk.
Proof. split; reflexivity. Qed.

(** The favorites after a toggle. *)
Definition toggled (sid : string) (now : Z) (m : gmap string favorite)
  : gmap string favorite :=
  if found m sid then delete sid m else <[sid := mkFavorite now]> m.

Lemma handleToggleFavorite_toggled (c : content) (now : Z) (d : Disk)
    (sid : string) :
  requestedSessionId c = Some sid →
  loadFavorites (handleToggleFavorite c now d).1
  = toggled sid now (loadFavorites d) ∧
  (handleToggleFavorite c now d).2
  = FavoriteToggled sid (negb (found (loadFavorites d) sid)).
Proof.
  intros Hsid. unfold handleToggleFavorite. rewrite Hsid. done.
Qed.

Lemma found_present {V} (m : gmap string V) (sid : string) (x : V) :
  m !! sid = Some x → found m sid = true.
Proof. intros Hx. unfold found. by rewrite bool_decide_eq_true_2 by eauto. Qed.

Lemma found_absent {V} (m : gmap string V) (sid : string) :
  m !! sid = None → found m sid = inherited sid.
Proof.
  intros Hx. unfold found. rewrite bool_decide_eq_false_2; [done|].
  rewrite Hx. by intros [? ?].
Qed.

(** X17.  Two calls of [handleToggleFavorite] for the same session.  For a
    session id that names no member of [Object.prototype] they answer with
    opposite flags and leave the session favorited exactly when it was
    before; when it was not, the favorites are what they were.  For a name
    such as [constructor] both calls answer [favorite: false] and the only
    change is that an own entry of that name, if there was one, is gone. *)
Theorem X17_toggle_twice (c : content) (now1 now2 : Z) (d : Disk)
    (sid : string) :
  requestedSessionId c = Some sid →
  let first := handleToggleFavorite c now1 d in
  let second := handleToggleFavorite c now2 first.1 in
  (inherited sid = false →
     (∃ flag, first.2 = FavoriteToggled sid flag ∧
              second.2 = FavoriteToggled sid (negb flag)) ∧
     (is_Some (loadFavorites second.1 !! sid)
      ↔ is_Some (loadFavorites d !! sid)) ∧
     (loadFavorites d !! sid = None →
      loadFavorites second.1 = loadFavorites d)) ∧
  (inherited sid = true →
     first.2 = FavoriteToggled sid false ∧
     second.2 = FavoriteToggled sid false ∧
     loadFavorites second.1 = delete sid (loadFavorites d)) ∧
  (∀ other, other ≠ sid →
     loadFavorites second.1 !! other = loadFavorites d !! other).
Proof.
  intros Hsid. cbv zeta.
  destruct (handleToggleFavorite_toggled c now1 d sid Hsid) as [Hm1 Hr1].
  destruct (handleToggleFavorite_toggled c now2
              (handleToggleFavorite c now1 d).1 sid Hsid) as [Hm2 Hr2].
  rewrite Hm2, Hr2, Hr1, Hm1. clear Hm1 Hm2 Hr1 Hr2.
  set (m := loadFavorites d). split; [|split].
  - intros Hplain. unfold toggled. destruct (m !! sid) as [f|] eqn:Hf.
    + rewrite (found_present _ _ _ Hf).
      rewrite (found_absent (delete sid m)) by apply lookup_delete_eq.
      rewrite Hplain, lookup_insert_eq.
      split; [by exists false|]. split; [split; eauto|done].
    + rewrite (found_absent _ _ Hf), Hplain.
      rewrite (found_present _ _ (mkFavorite now1)) by apply lookup_insert_eq.
      rewrite lookup_delete_eq.
      split; [by exists true|]. split; [split; by intros [? ?]|].
      intros _. by rewrite delete_insert_eq, delete_id.
  - intros Hin. unfold toggled, found. rewrite Hin, !orb_true_r.
    split; [done|]. split; [done|]. by rewrite delete_delete_eq.
  - intros other Hne. unfold toggled.
    destruct (found m sid).
    + destruct (found _ sid).
      * by rewrite !lookup_delete_ne.
      * by rewrite lookup_insert_ne, lookup_delete_ne.
    + destruct (found _ sid).
      * by rewrite lookup_delete_ne, lookup_insert_ne.
      * by rewrite !lookup_insert_ne.
Qed.

Lemma X17_toggle_twice_witness :
  let first := handleToggleFavorite (ContentString "s3") 30 sampleDisk in
  let second := handleToggleFavorite (ContentString "s3") 31 first.1 in
  loadFavorites second.1 = loadFavorites sampleDisk.
Proof.
  destruct (X17_toggle_twice (ContentString "s3") 30 31 sampleDisk "s3" eq_refl)
    as (Hplain & _ & _).
  destruct Hplain as (_ & _ & Hsame); [reflexivity|].
  apply Hsame. reflexivity.
Defined.

End Titles.

(* ===================================================================== *)
(** * Adding and updating Claude providers                                *)
(* ===================================================================== *)

Module Providers.

Import ObjectPrototype Json Settings.
Local Open Scope string_scope.

(** The provider map of config.json as the handlers find it. *)
Definition stored (f : Files) : gmap string json :=
  providers (claudeOf (loadCodemossConfig f)).

(** [config.claude.providers = ps] on an ensured configuration. *)
Definition withProviders (ps : gmap string json) (c : CodemossConfig)
  : CodemossConfig :=
  mkConfig (Some (mkClaude (current (claudeOf c)) ps)) (otherSections c).

(** [typeof v.createdAt === 'number' ? v.createdAt : fallback]. *)
Definition createdAtOr (v : json) (fallback : Z) : Z :=
  match prop v "createdAt" with
  | Some (JNum n) => n
  | _ => fallback
  end.

(** [!config.claude.providers[id]]: an id that names a member of
    [Object.prototype] is never vacant, the lookup finds that member. *)
Definition vacant (ps : gmap string json) (id : string) : bool :=
  match ps !! id with
  | Some v => negb (truthy v)
  | None => negb (inherited id)
  end.

(** [handleAddProvider]; [now] is the value of [Date.now()]. *)
Definition handleAddProvider (content : json) (now : Z) (f : Files)
  : Files * list reply :=
  match (if isObject content then prop content "id" else None) with
  | Some (JStr id) =>
      let config := ensureClaudeSection (loadCodemossConfig f) in
      let ps := providers (claudeOf config) in
      let f1 :=
        if vacant ps id then
          let createdAt := createdAtOr content now in
          let entry :=
            JObj (<["createdAt" := JNum createdAt]> (ownProperties content)) in
          saveCodemossConfig (withProviders (<[id := entry]> ps) config) f
        else f in
      let '(_, views, f2) := getClaudeProvidersWithActiveFlag f1 in
      (f2, [ProvidersLoaded views])
  | _ => (f, [ReplyError "Invalid provider payload"])
  end.

(** [{ ...existing, ...updates, createdAt, id }]. *)
Definition updatedEntry (id : string) (existing updates : json) (now : Z)
  : json :=
  let createdAt := createdAtOr existing (createdAtOr updates now) in
  JObj (<["id" := JStr id]>
          (<["createdAt" := JNum createdAt]>
             (ownProperties updates ∪ ownProperties existing))).

(** The first part of [handleUpdateProvider]: the configuration and the
    files after the entry has been updated, and [config.claude.providers[id]]
    as the second part reads it ([None] when it is [undefined] or a
    function).  For the id [__proto__] without an own entry [existing] is
    [Object.prototype]: the assignment replaces the prototype of the
    provider map, which the second read then returns, and config.json is
    saved with the providers it had. *)
Definition updateEntry (id : string) (updates : json) (now : Z)
    (config : CodemossConfig) (f : Files)
  : CodemossConfig * Files * option json :=
  let ps := providers (claudeOf config) in
  match ps !! id with
  | Some existing =>
      if isObject existing then
        let entry := updatedEntry id existing updates now in
        let c1 := withProviders (<[id := entry]> ps) config in
        (c1, saveCodemossConfig c1 f, Some entry)
      else (config, f, Some existing)
  | None =>
      if bool_decide (id = "__proto__") then
        (config, saveCodemossConfig config f,
         Some (updatedEntry id (JObj ∅) updates now))
      else (config, f, None)
  end.

(** [handleUpdateProvider]. *)
Definition handleUpdateProvider (content : json) (now : Z) (f : Files)
  : Files * list reply :=
  match prop content "id", prop content "updates" with
  | Some (JStr id), Some updates =>
      if isObject updates then
        let config := ensureClaudeSection (loadCodemossConfig f) in
        let '(config1, f1, updated) := updateEntry id updates now config f in
        let codemossSettings := loadSettings f1 in
        let activeId := activeIdForDelete config1 codemossSettings in
        let '(f3, replies) :=
          if decide (activeId = id) then
            let current := readClaudeSettingsOrEmpty f1 in
            let settingsConfig :=
              match updated with
              | Some updated =>
                  match prop updated "settingsConfig" with
                  | Some sc => if truthy sc then sc else JObj ∅
                  | None => JObj ∅
                  end
              | None => JObj ∅
              end in
            let next :=
              mergeProviderSettingsIntoClaudeSettings current settingsConfig in
            let f2 := writeClaudeSettings (JObj next) f1 in
            let r1 := handleGetCurrentClaudeConfig f2 in
            let '(f3, r2) := handleGetActiveClaudeProvider f2 in
            (f3, [r1; r2])
          else (f1, []) in
        let '(_, views, f4) := getClaudeProvidersWithActiveFlag f3 in
        (f4, (replies ++ [ProvidersLoaded views])%list)
      else (f, [ReplyError "Invalid update_provider payload"])
  | _, _ => (f, [ReplyError "Invalid update_provider payload"])
  end.

(** Reading the list never changes the provider map, and lists the local
    entry followed by the stored ids that are not empty. *)
Lemma listing (f : Files) :
  stored (getClaudeProvidersWithActiveFlag f).2 = stored f ∧
  viewId <$> (getClaudeProvidersWithActiveFlag f).1.2
  = localProviderId :: filter (λ id, id ≠ "") (map_to_list (stored f)).*1.
Proof.
  unfold getClaudeProvidersWithActiveFlag. cbv zeta.
  destruct (nonEmpty (current (claudeOf (ensureClaudeSection
                                           (loadCodemossConfig f)))))
    as [a|]; [|destruct (nonEmpty _) as [l|]]; simpl;
    (split; [reflexivity|]); f_equal;
    rewrite <- list_fmap_compose; apply list_fmap_id.
Qed.

Lemma listed (ps : gmap string json) (id : string) :
  id ∈ localProviderId :: filter (λ id, id ≠ "") (map_to_list ps).*1
  ↔ id = localProviderId ∨ (id ≠ "" ∧ is_Some (ps !! id)).
Proof.
  rewrite elem_of_cons, list_elem_of_filter, list_elem_of_fmap.
  split; (intros [?|[Hne Hin]]; [by left|right; split; [done|]]).
  - destruct Hin as ([k v] & -> & Hkv). apply elem_of_map_to_list in Hkv.
    by exists v.
  - destruct Hin as [v Hv]. exists (id, v). split; [done|].
    by apply elem_of_map_to_list.
Qed.

Lemma stored_ensure (c : CodemossConfig) :
  providers (claudeOf (ensureClaudeSection c)) = providers (claudeOf c).
Proof. reflexivity. Qed.

Lemma localProviderId_plain : inherited localProviderId = false.
Proof. vm_compute. reflexivity. Qed.

(** X18.  [handleAddProvider] never overwrites: when the lookup of the id
    finds something truthy, be it an entry or, for an id such as
    [constructor], a member of [Object.prototype], the provider map is left
    as it is; otherwise the payload is stored under its id with a
    [createdAt] (its own when it is a number, the current time otherwise).
    Entries of other ids are untouched.  The list sent back shows the id
    unless it is the empty string, which is stored but never listed, or an
    inherited name without an entry, which is not stored. *)
Theorem X18_add_provider_keeps_existing (m : gmap string json) (id : string)
    (now : Z) (f : Files) :
  m !! "id" = Some (JStr id) →
  let result := handleAddProvider (JObj m) now f in
  stored result.1 !! id
  = (if vacant (stored f) id
     then Some (JObj (<["createdAt" := JNum (createdAtOr (JObj m) now)]> m))
     else stored f !! id) ∧
  (stored f !! id = None → inherited id = true →
   stored result.1 !! id = None) ∧
  (∀ other, other ≠ id → stored result.1 !! other = stored f !! other) ∧
  ∃ views, result.2 = [ProvidersLoaded views] ∧
           (id ∈ viewId <$> views
            ↔ id ≠ "" ∧ (inherited id = false ∨ is_Some (stored f !! id))).
Proof.
  intros Hid. cbv zeta. unfold handleAddProvider.
  change (prop (JObj m) "id") with (m !! "id"). rewrite Hid.
  cbn [isObject]. cbv zeta. rewrite stored_ensure. fold (stored f).
  set (f1 := if vacant (stored f) id then _ else f).
  destruct (listing f1) as [Hstored Hviews].
  destruct (getClaudeProvidersWithActiveFlag f1) as [[a views] f2] eqn:Hg.
  simpl in Hstored, Hviews. simpl.
  assert (stored f1 !! id
          = (if vacant (stored f) id
             then Some (JObj (<["createdAt" := JNum (createdAtOr (JObj m) now)]> m))
             else stored f !! id) ∧
          ∀ other, other ≠ id → stored f1 !! other = stored f !! other)
    as [Hentry Hframe].
  { unfold f1. destruct (vacant (stored f) id); [|done].
    unfold stored at 1 3. simpl. split; [by rewrite lookup_insert_eq|].
    intros other Hne. by rewrite lookup_insert_ne. }
  rewrite Hstored. split; [done|]. split; [|split; [done|]].
  - intros Hnone Hin. rewrite Hentry. unfold vacant. by rewrite Hnone, Hin.
  - exists views. split; [done|]. rewrite Hviews, listed, Hentry.
    unfold vacant. split.
    + intros [->|[Hne Hsome]].
      * split; [apply localProviderId_ne|]. left. apply localProviderId_plain.
      * split; [done|]. destruct (stored f !! id) as [v|]; [by right; eexists|].
        left. destruct (inherited id); [|done]. by destruct Hsome.
    + intros [Hne Hcase]. right. split; [done|].
      destruct (stored f !! id) as [v|].
      * destruct (truthy v); simpl; by eexists.
      * destruct Hcase as [->|[? ?]]; [by eexists|done].
Qed.

Definition sampleProvider : gmap string json :=
  {[ "id" := JStr "p1"; "name" := JStr "first" ]}.

Lemma X18_add_provider_keeps_existing_witness :
  let result := handleAddProvider (JObj sampleProvider) 7 sampleFiles in
  ∃ views, result.2 = [ProvidersLoaded views] ∧ "p1" ∈ viewId <$> views.
Proof.
  destruct (X18_add_provider_keeps_existing sampleProvider "p1" 7 sampleFiles
              eq_refl) as (_ & _ & _ & views & Hr & Hin).
  exists views. split; [exact Hr|]. apply Hin.
  split; [discriminate|]. left. vm_compute. reflexivity.
Defined.

(** A provider with the id [constructor] is never stored. *)
Example add_provider_constructor :
  stored (handleAddProvider
            (JObj {[ "id" := JStr "constructor"; "name" := JStr "c" ]}) 7
            sampleFiles).1 !! "constructor" = None.
Proof. vm_compute. reflexivity. Qed.

(** X19.  [handleUpdateProvider] on an id that has an object as its entry
    stores the entry with the updates laid over it, but the id stays the
    id of the request and a numeric [createdAt] of the entry stays what it
    was, whatever the updates say.  An id without an entry gets none, and
    the entries of other ids are untouched. *)
Theorem X19_update_provider_keeps_identity (content updates : json)
    (id : string) (now : Z) (f : Files) :
  prop content "id" = Some (JStr id) →
  prop content "updates" = Some updates → isObject updates = true →
  let f' := (handleUpdateProvider content now f).1 in
  (∀ existing, stored f !! id = Some existing → isObject existing = true →
     ∃ entry, stored f' !! id = Some (JObj entry) ∧
       entry !! "id" = Some (JStr id) ∧
       entry !! "createdAt"
       = Some (JNum (createdAtOr existing (createdAtOr updates now))) ∧
       ∀ k, k ≠ "id" → k ≠ "createdAt" →
         entry !! k = (ownProperties updates ∪ ownProperties existing) !! k) ∧
  (stored f !! id = None → stored f' !! id = None) ∧
  (∀ other, other ≠ id → stored f' !! other = stored f !! other).
Proof.
  intros Hid Hup Hobj. cbv zeta. unfold handleUpdateProvider.
  rewrite Hid, Hup, Hobj. cbv zeta.
  set (config := ensureClaudeSection (loadCodemossConfig f)).
  set (first := updateEntry id updates now config f).
  assert (stored first.1.2
          = match stored f !! id with
            | Some existing =>
                if isObject existing
                then <[id := updatedEntry id existing updates now]> (stored f)
                else stored f
            | None => stored f
            end) as Hfirst.
  { unfold first, updateEntry. cbv zeta. unfold config at 1 3.
    rewrite stored_ensure. fold (stored f).
    destruct (stored f !! id) as [e|].
    - by destruct (isObject e).
    - by destruct (bool_decide (id = "__proto__")). }
  destruct first as [[config1 f1] updated]. simpl in Hfirst.
  set (second := if decide (activeIdForDelete config1 (loadSettings f1) = id)
                 then _ else (f1, [])).
  assert (stored second.1 = stored f1) as Hsecond.
  { unfold second. destruct (decide _); [|done].
    set (f2 := writeClaudeSettings _ f1).
    unfold handleGetActiveClaudeProvider.
    destruct (listing f2) as [Hs2 _].
    destruct (getClaudeProvidersWithActiveFlag f2) as [[a2 v2] f2'].
    simpl in Hs2. by destruct (decide (a2 = localProviderId)). }
  destruct second as [f3 replies]. simpl in Hsecond.
  destruct (listing f3) as [Hs3 _].
  destruct (getClaudeProvidersWithActiveFlag f3) as [[a3 v3] f4].
  simpl in Hs3. simpl. rewrite Hs3, Hsecond, Hfirst.
  split; [|split].
  - intros existing He Heo. rewrite He, Heo.
    rewrite lookup_insert_eq. unfold updatedEntry. eexists.
    split; [reflexivity|]. split; [by rewrite lookup_insert_eq|].
    split.
    + rewrite lookup_insert_ne by done. by rewrite lookup_insert_eq.
    + intros k Hk1 Hk2. by rewrite !lookup_insert_ne.
  - intros Hnone. by rewrite Hnone.
  - intros other Hne. destruct (stored f !! id) as [e|]; [|done].
    destruct (isObject e); [|done]. by rewrite lookup_insert_ne.
Qed.

Definition sampleUpdate : json :=
  JObj {[ "id" := JStr "p1";
          "updates" := JObj {[ "id" := JStr "other"; "createdAt" := JNum 99;
                               "name" := JStr "renamed" ]} ]}.

Lemma X19_update_provider_keeps_identity_witness :
  let f' := (handleUpdateProvider sampleUpdate 5 sampleFiles).1 in
  ∃ entry, stored f' !! "p1" = Some (JObj entry) ∧
           entry !! "id" = Some (JStr "p1") ∧
           entry !! "name" = Some (JStr "renamed").
Proof.
  destruct (X19_update_provider_keeps_identity sampleUpdate
              (JObj {[ "id" := JStr "other"; "createdAt" := JNum 99;
                       "name" := JStr "renamed" ]})
              "p1" 5 sampleFiles eq_refl eq_refl eq_refl) as (Hentry & _ & _).
  destruct (Hentry (JObj {[ "name" := JStr "One" ]}) eq_refl eq_refl)
    as (entry & Hstored & Hid & _ & Hrest).
  exists entry. split; [exact Hstored|]. split; [exact Hid|].
  rewrite Hrest by discriminate. reflexivity.
Defined.

End Providers.

(* ===================================================================== *)
(** * MCP servers of ~/.claude.json                                       *)
(* ===================================================================== *)

Module Mcp.

Import Json.
Local Open Scope string_scope.

(** A path or id that is present and truthy. *)
Definition given (x : option string) : option string :=
  match x with
  | Some s => if decide (s = "") then None else Some s
  | None => None
  end.

(** The strings of a value that is an array: what the two loops of
    [getClaudeDisabledServers] add to the set. *)
Definition stringOf (v : json) : option string :=
  match v with
  | JStr s => Some s
  | _ => None
  end.

Definition stringsOf (v : option json) : gset string :=
  match v with
  | Some (JArr l) => list_to_set (omap stringOf l)
  | _ => ∅
  end.

(** [getClaudeDisabledServers(claudeJson, projectPath)]. *)
Definition getClaudeDisabledServers (claudeJson : json)
    (projectPath : option string) : gset string :=
  let globally :=
    if truthy claudeJson then stringsOf (prop claudeJson "disabledMcpServers")
    else ∅ in
  let inProject :=
    match given projectPath with
    | Some path =>
        if truthy claudeJson then
          match prop claudeJson "projects" with
          | Some projects =>
              if isObject projects then
                match prop projects path with
                | Some projectConfig =>
                    if truthy projectConfig
                    then stringsOf (prop projectConfig "disabledMcpServers")
                    else ∅
                | None => ∅
                end
              else ∅
          | None => ∅
          end
        else ∅
    | None => ∅
    end in
  globally ∪ inProject.

(** [list.filter((id) => id !== serverId)], then [push(serverId)] when the
    server is to be disabled: an element is dropped when it is the string
    [serverId]. *)
Definition isServer (serverId : string) (x : json) : bool :=
  match x with
  | JStr s => bool_decide (s = serverId)
  | _ => false
  end.

Definition withoutServer (serverId : string) (l : list json) : list json :=
  filter (λ x, isServer serverId x = false) l.

Definition relisted (serverId : string) (enabled : bool) (l : list json)
  : list json :=
  withoutServer serverId l ++ (if enabled then [] else [JStr serverId]).

Definition arrayOf (v : option json) : list json :=
  match v with
  | Some (JArr l) => l
  | _ => []
  end.

(** [updateClaudeDisabledServers(claudeJson, serverId, enabled,
    projectPath)] on the members of [claudeJson].  [None] stands for the
    cases that are outside the model: the function stores the list as a
    named member of an array ([projects], or the configuration of the
    project, is an array), or the project path is [__proto__] and
    [projects] has no own property of that name, so that
    [claudeJson.projects[projectPath]] is [Object.prototype] and the list
    is stored there, for every object of the process.  A member that is
    falsy or not an object is replaced by [{}]; that includes the functions
    found under the other inherited names. *)
Definition objectOrEmpty (v : option json) : option (gmap string json) :=
  match v with
  | Some (JObj m) => Some m
  | Some (JArr _) => None
  | _ => Some ∅
  end.

Definition projectConfigAt (projects : gmap string json) (path : string)
  : option (gmap string json) :=
  if bool_decide (path = "__proto__")
     && negb (bool_decide (is_Some (projects !! path)))
  then None
  else objectOrEmpty (projects !! path).

Definition updateClaudeDisabledServers (claudeJson : gmap string json)
    (serverId : string) (enabled : bool) (projectPath : option string)
  : option (gmap string json) :=
  let globalList := arrayOf (claudeJson !! "disabledMcpServers") in
  let claudeJson1 := <["disabledMcpServers" := JArr globalList]> claudeJson in
  match given projectPath with
  | None =>
      Some (<["disabledMcpServers" := JArr (relisted serverId enabled globalList)]>
              claudeJson1)
  | Some path =>
      projects ← objectOrEmpty (claudeJson1 !! "projects");
      projectConfig ← projectConfigAt projects path;
      let l := arrayOf (projectConfig !! "disabledMcpServers") in
      Some (<["projects" :=
                JObj (<[path :=
                          JObj (<["disabledMcpServers" :=
                                    JArr (relisted serverId enabled l)]>
                                  projectConfig)]> projects)]> claudeJson1)
  end.

(** The part of [deleteClaudeMcpServer] that rewrites ~/.claude.json, taken
    when [mcpServers] is an object; [None] when that member is an array
    (outside the model) or the other branch is taken. *)
Definition purgeProject (serverId : string) (projectConfig : json) : json :=
  match projectConfig with
  | JObj m =>
      match m !! "disabledMcpServers" with
      | Some (JArr l) =>
          JObj (<["disabledMcpServers" := JArr (withoutServer serverId l)]> m)
      | _ => projectConfig
      end
  | _ => projectConfig
  end.

Definition deleteClaudeMcpServer (claudeJson : gmap string json)
    (serverId : string) : option (gmap string json) :=
  match claudeJson !! "mcpServers" with
  | Some (JObj servers) =>
      let c1 := <["mcpServers" := JObj (delete serverId servers)]> claudeJson in
      let c2 :=
        match c1 !! "disabledMcpServers" with
        | Some (JArr l) =>
            <["disabledMcpServers" := JArr (withoutServer serverId l)]> c1
        | _ => c1
        end in
      let c3 :=
        match c2 !! "projects" with
        | Some (JObj projects) =>
            <["projects" := JObj (purgeProject serverId <$> projects)]> c2
        | Some (JArr projects) =>
            <["projects" := JArr (purgeProject serverId <$> projects)]> c2
        | _ => c2
        end in
      Some c3
  | _ => None
  end.

(** ** Membership in the lists *)

Lemma stringsOf_array (l : list json) (s : string) :
  s ∈ stringsOf (Some (JArr l)) ↔ JStr s ∈ l.
Proof.
  simpl. rewrite elem_of_list_to_set, list_elem_of_omap. split.
  - intros (x & Hx & Hs). destruct x; try discriminate Hs.
    by injection Hs as ->.
  - intros Hin. by exists (JStr s).
Qed.

Lemma stringsOf_arrayOf (v : option json) :
  stringsOf (Some (JArr (arrayOf v))) = stringsOf v.
Proof. destruct v as [[]|]; done. Qed.

Lemma relisted_member (serverId other : string) (enabled : bool)
    (l : list json) :
  JStr other ∈ relisted serverId enabled l
  ↔ (other ≠ serverId ∧ JStr other ∈ l) ∨ (other = serverId ∧ enabled = false).
Proof.
  unfold relisted, withoutServer.
  rewrite elem_of_app, list_elem_of_filter. split.
  - intros [[Hne Hin]|Hin].
    + left. split; [|done]. simpl in Hne.
      by apply bool_decide_eq_false in Hne.
    + right. destruct enabled; [by apply elem_of_nil in Hin|].
      apply list_elem_of_singleton in Hin. by injection Hin as ->.
  - intros [[Hne Hin]|[-> ->]].
    + left. split; [|done]. simpl. by apply bool_decide_eq_false.
    + right. by apply list_elem_of_singleton.
Qed.

(** ** The members of an array are its indices *)

Definition digit (c : ascii) : bool :=
  ((48 <=? nat_of_ascii c) && (nat_of_ascii c <=? 57))%nat.

Definition numeral (s : string) : Prop :=
  ∃ c rest, s = String c rest ∧ digit c = true.

Lemma pretty_N_char_digit (x : N) : digit (pretty_N_char x) = true.
Proof. unfold pretty_N_char. by repeat case_match. Qed.

Lemma pretty_N_go_numeral (x : N) :
  ∀ s, numeral s → numeral (pretty_N_go x s).
Proof.
  induction (N.lt_wf_0 x) as [x _ IH]; intros s Hs.
  destruct (decide (x = 0)%N) as [->|Hx]; [by rewrite pretty_N_go_0|].
  rewrite pretty_N_go_step by lia. apply IH.
  - apply N.div_lt; lia.
  - eexists _, _. split; [reflexivity|]. apply pretty_N_char_digit.
Qed.

Lemma pretty_nat_numeral (i : nat) : numeral (pretty i).
Proof.
  unfold pretty, pretty_nat, pretty, pretty_N.
  destruct (decide (N.of_nat i = 0)%N) as [_|Hx].
  - by exists "0"%char, "".
  - rewrite pretty_N_go_step by lia. apply pretty_N_go_numeral.
    eexists _, _. split; [reflexivity|]. apply pretty_N_char_digit.
Qed.

Lemma array_member_numeral (l : list json) (k : string) :
  is_Some (ownProperties (JArr l) !! k) → numeral k.
Proof.
  simpl. intros [v Hv]. apply elem_of_list_to_map_2 in Hv.
  apply list_elem_of_lookup in Hv as [i Hi].
  rewrite list_lookup_imap in Hi.
  destruct (l !! i) as [x|]; [|done]. simpl in Hi.
  injection Hi as <- _. apply pretty_nat_numeral.
Qed.

Lemma array_no_list (l : list json) :
  prop (JArr l) "disabledMcpServers" = None.
Proof.
  unfold prop. apply eq_None_not_Some. intros Hs.
  apply array_member_numeral in Hs as (c & rest & [= <- _] & Hc).
  discriminate Hc.
Qed.

(** ** Reading after writing *)

Definition globalSet (claudeJson : gmap string json) : gset string :=
  stringsOf (claudeJson !! "disabledMcpServers").

Definition projectSet (claudeJson : gmap string json) (path : string)
  : gset string :=
  match claudeJson !! "projects" with
  | Some projects =>
      if isObject projects then
        match prop projects path with
        | Some projectConfig =>
            if truthy projectConfig
            then stringsOf (prop projectConfig "disabledMcpServers")
            else ∅
        | None => ∅
        end
      else ∅
  | None => ∅
  end.

Lemma disabled_sets (claudeJson : gmap string json) (p : option string) :
  getClaudeDisabledServers (JObj claudeJson) p
  = globalSet claudeJson ∪ from_option (projectSet claudeJson) ∅ (given p).
Proof. unfold getClaudeDisabledServers. by destruct (given p). Qed.

Lemma in_arrayOf (v : option json) (s : string) :
  JStr s ∈ arrayOf v ↔ s ∈ stringsOf v.
Proof. by rewrite <- stringsOf_arrayOf, stringsOf_array. Qed.

(** What the update reads is what the reader reads. *)
Lemma projectSet_read (claudeJson projects projectConfig : gmap string json)
    (path : string) :
  objectOrEmpty (claudeJson !! "projects") = Some projects →
  objectOrEmpty (projects !! path) = Some projectConfig →
  projectSet claudeJson path
  = stringsOf (projectConfig !! "disabledMcpServers").
Proof.
  unfold projectSet, objectOrEmpty.
  destruct (claudeJson !! "projects") as [[| | | | |m]|]; intros [= <-];
    try (rewrite lookup_empty; by intros [= <-]).
  cbn [isObject]. change (prop (JObj m) path) with (m !! path).
  destruct (m !! path) as [v|]; [|by intros [= <-]].
  destruct v; intros [= <-]; try done;
    unfold prop; cbn [ownProperties]; rewrite ?lookup_empty;
    cbn [stringsOf]; by destruct (truthy _).
Qed.

(** X20.  After [updateClaudeDisabledServers], what [getClaudeDisabledServers]
    reads for the same project path: a server that was to be disabled is in
    the set; a server that was to be enabled is out of it when the update is
    the global one, but an update for a project cannot enable a server that
    the global list disables; whether any other server is in the set is
    unchanged. *)
Theorem X20_disabled_after_update (claudeJson claudeJson' : gmap string json)
    (serverId : string) (enabled : bool) (projectPath : option string) :
  updateClaudeDisabledServers claudeJson serverId enabled projectPath
  = Some claudeJson' →
  (serverId ∈ getClaudeDisabledServers (JObj claudeJson') projectPath
   ↔ enabled = false ∨
     (is_Some (given projectPath) ∧
      serverId ∈ getClaudeDisabledServers (JObj claudeJson) None)) ∧
  (∀ other, other ≠ serverId →
     other ∈ getClaudeDisabledServers (JObj claudeJson') projectPath
     ↔ other ∈ getClaudeDisabledServers (JObj claudeJson) projectPath).
Proof.
  unfold updateClaudeDisabledServers. cbv zeta. rewrite !disabled_sets.
  change (given None) with (@None string). cbn [from_option].
  rewrite (right_id_L ∅ (∪)).
  set (gl := arrayOf (claudeJson !! "disabledMcpServers")).
  destruct (given projectPath) as [path|] eqn:Hpath; cbn [from_option].
  - rewrite lookup_insert_ne by done.
    destruct (objectOrEmpty (claudeJson !! "projects")) as [projects|] eqn:Hps;
      [|discriminate].
    cbn [mbind option_bind].
    destruct (projectConfigAt projects path) as [pc|] eqn:Hpc;
      [|discriminate].
    cbn [mbind option_bind]. intros [= <-].
    unfold projectConfigAt in Hpc. destruct (_ && _); [discriminate|].
    rewrite (projectSet_read _ _ _ _ Hps Hpc).
    assert (globalSet (<["projects" := JObj (<[path :=
                JObj (<["disabledMcpServers" :=
                  JArr (relisted serverId enabled
                          (arrayOf (pc !! "disabledMcpServers")))]> pc)]>
                projects)]>
              (<["disabledMcpServers" := JArr gl]> claudeJson))
            = globalSet claudeJson) as ->.
    { unfold globalSet. rewrite lookup_insert_ne by done.
      rewrite lookup_insert_eq. apply stringsOf_arrayOf. }
    assert (∀ cj l, projectSet (<["projects" := JObj (<[path :=
                JObj (<["disabledMcpServers" := JArr l]> pc)]> projects)]> cj)
              path = stringsOf (Some (JArr l))) as ->.
    { intros cj l. unfold projectSet. rewrite lookup_insert_eq.
      cbn [isObject]. unfold prop at 1. cbn [ownProperties].
      rewrite lookup_insert_eq. cbn [truthy]. unfold prop.
      cbn [ownProperties]. by rewrite lookup_insert_eq. }
    split.
    + rewrite elem_of_union, stringsOf_array, relisted_member. split.
      * intros [Hg|[[Hne _]|[_ He]]]; [right; eauto|done|by left].
      * intros [He|[_ Hg]]; [right; right; done|by left].
    + intros other Hne.
      rewrite !elem_of_union, stringsOf_array, relisted_member, in_arrayOf.
      split; intros [Hg|Hp]; try by left.
      * destruct Hp as [[_ Hp]|[Heq _]]; [by right|done].
      * right. left. done.
  - intros [= <-].
    assert (∀ l, globalSet (<["disabledMcpServers" := JArr l]>
                              (<["disabledMcpServers" := JArr gl]> claudeJson))
                 = stringsOf (Some (JArr l))) as ->.
    { intros l. unfold globalSet. by rewrite lookup_insert_eq. }
    rewrite !(right_id_L ∅ (∪)). split.
    + rewrite stringsOf_array, relisted_member. split.
      * intros [[Hne _]|[_ He]]; [done|by left].
      * intros [He|[[x Hx] _]]; [by right|done].
    + intros other Hne. rewrite stringsOf_array, relisted_member.
      unfold gl. rewrite in_arrayOf. unfold globalSet. split.
      * intros [[_ Hin]|[Heq _]]; done.
      * intros Hin. by left.
Qed.

Definition sampleClaudeJson : gmap string json :=
  {[ "disabledMcpServers" := JArr [JStr "fs"];
     "projects" :=
       JObj {[ "/w" := JObj {[ "disabledMcpServers" := JArr [JStr "git"] ]} ]} ]}.

(** The server [fs], disabled globally, stays disabled after it was enabled
    for the project [/w]. *)
Lemma X20_disabled_after_update_witness :
  ∃ claudeJson',
    updateClaudeDisabledServers sampleClaudeJson "fs" true (Some "/w")
    = Some claudeJson' ∧
    "fs" ∈ getClaudeDisabledServers (JObj claudeJson') (Some "/w").
Proof.
  eexists. split; [reflexivity|].
  destruct (X20_disabled_after_update sampleClaudeJson _ "fs" true (Some "/w")
              eq_refl) as [Hserver _].
  apply Hserver. right. split; [by eexists|].
  rewrite disabled_sets. apply elem_of_union_l.
  apply (stringsOf_array [JStr "fs"] "fs"), list_elem_of_singleton. reflexivity.
Defined.

(** ** Deleting a server *)

Lemma without_member (serverId other : string) (l : list json) :
  JStr other ∈ withoutServer serverId l ↔ other ≠ serverId ∧ JStr other ∈ l.
Proof.
  unfold withoutServer. rewrite list_elem_of_filter. simpl.
  by rewrite bool_decide_eq_false.
Qed.

Lemma without_strings (serverId : string) (l : list json) :
  stringsOf (Some (JArr (withoutServer serverId l)))
  = stringsOf (Some (JArr l)) ∖ {[serverId]}.
Proof.
  apply set_eq. intros other.
  rewrite elem_of_difference, !stringsOf_array, without_member.
  rewrite not_elem_of_singleton. tauto.
Qed.

Lemma purge_truthy (serverId : string) (projectConfig : json) :
  truthy (purgeProject serverId projectConfig) = truthy projectConfig.
Proof.
  destruct projectConfig as [| | | | |m]; try done. simpl.
  by destruct (m !! "disabledMcpServers") as [[]|].
Qed.

Lemma empty_minus (serverId : string) :
  (∅ : gset string) = ∅ ∖ {[serverId]}.
Proof.
  apply set_eq. intros x. rewrite elem_of_difference. split.
  - by intros H%elem_of_empty.
  - by intros [H%elem_of_empty _].
Qed.

Lemma purge_strings (serverId : string) (projectConfig : json) :
  stringsOf (prop (purgeProject serverId projectConfig) "disabledMcpServers")
  = stringsOf (prop projectConfig "disabledMcpServers") ∖ {[serverId]}.
Proof.
  destruct projectConfig as [| | | |l|m];
    try (unfold prop; cbn [purgeProject ownProperties];
         rewrite lookup_empty; apply empty_minus).
  - cbn [purgeProject]. rewrite array_no_list. apply empty_minus.
  - unfold prop. cbn [purgeProject].
    destruct (m !! "disabledMcpServers") as [v|] eqn:Hm;
      [|cbn [ownProperties]; rewrite Hm; apply empty_minus].
    destruct v; try (cbn [ownProperties]; rewrite Hm; apply empty_minus).
    cbn [ownProperties]. rewrite lookup_insert_eq, Hm.
    apply without_strings.
Qed.

Lemma array_fmap (f : json → json) (l : list json) (k : string) :
  prop (JArr (f <$> l)) k = f <$> prop (JArr l) k.
Proof.
  unfold prop. cbn [ownProperties].
  rewrite <- lookup_fmap, <- list_to_map_fmap, fmap_imap, imap_fmap.
  reflexivity.
Qed.

Lemma purged_project_set (serverId path : string) (v : option json) :
  match purgeProject serverId <$> v with
  | Some projectConfig =>
      if truthy projectConfig
      then stringsOf (prop projectConfig "disabledMcpServers")
      else ∅
  | None => ∅
  end
  = match v with
    | Some projectConfig =>
        if truthy projectConfig
        then stringsOf (prop projectConfig "disabledMcpServers")
        else ∅
    | None => ∅
    end ∖ {[serverId]}.
Proof.
  destruct v as [pc|]; simpl; [|apply empty_minus].
  rewrite purge_truthy. destruct (truthy pc); [|apply empty_minus].
  apply purge_strings.
Qed.

(** X21.  After [deleteClaudeMcpServer] rewrote ~/.claude.json, the server
    is gone from [mcpServers] and is in no [disabledMcpServers] list, the
    global one or that of any project; whether any other server is disabled
    is unchanged. *)
Theorem X21_deleted_server_leaves_no_trace
    (claudeJson claudeJson' : gmap string json) (serverId : string) :
  deleteClaudeMcpServer claudeJson serverId = Some claudeJson' →
  (∃ servers,
     claudeJson !! "mcpServers" = Some (JObj servers) ∧
     claudeJson' !! "mcpServers" = Some (JObj (delete serverId servers))) ∧
  (∀ projectPath,
     serverId ∉ getClaudeDisabledServers (JObj claudeJson') projectPath) ∧
  (∀ other projectPath, other ≠ serverId →
     other ∈ getClaudeDisabledServers (JObj claudeJson') projectPath
     ↔ other ∈ getClaudeDisabledServers (JObj claudeJson) projectPath).
Proof.
  unfold deleteClaudeMcpServer.
  destruct (claudeJson !! "mcpServers") as [[| | | | |servers]|] eqn:Hs;
    try discriminate.
  cbv zeta. rewrite lookup_insert_ne by done.
  set (c1 := <["mcpServers" := JObj (delete serverId servers)]> claudeJson).
  set (c2 := match claudeJson !! "disabledMcpServers" with
             | Some (JArr l) =>
                 <["disabledMcpServers" := JArr (withoutServer serverId l)]> c1
             | _ => c1
             end).
  assert (c2 !! "mcpServers" = Some (JObj (delete serverId servers))) as Hm2.
  { unfold c2, c1. destruct (claudeJson !! "disabledMcpServers") as [[]|];
      rewrite ?(lookup_insert_ne _ "disabledMcpServers") by done;
      by rewrite lookup_insert_eq. }
  assert (c2 !! "projects" = claudeJson !! "projects") as Hp2.
  { unfold c2, c1. destruct (claudeJson !! "disabledMcpServers") as [[]|];
      by rewrite !lookup_insert_ne by done. }
  assert (globalSet c2 = globalSet claudeJson ∖ {[serverId]}) as Hg2.
  { unfold globalSet, c2, c1.
    destruct (claudeJson !! "disabledMcpServers") as [v|] eqn:Hd.
    - destruct v; try (rewrite lookup_insert_ne by done; rewrite Hd;
                       apply empty_minus).
      rewrite lookup_insert_eq. apply without_strings.
    - rewrite lookup_insert_ne by done. rewrite Hd. apply empty_minus. }
  rewrite Hp2. intros [= <-].
  set (c3 := match claudeJson !! "projects" with
             | Some (JObj projects) =>
                 <["projects" := JObj (purgeProject serverId <$> projects)]> c2
             | Some (JArr projects) =>
                 <["projects" := JArr (purgeProject serverId <$> projects)]> c2
             | _ => c2
             end).
  assert (c3 !! "mcpServers" = Some (JObj (delete serverId servers))) as Hm3.
  { unfold c3. destruct (claudeJson !! "projects") as [[]|];
      by rewrite ?lookup_insert_ne by done. }
  assert (globalSet c3 = globalSet claudeJson ∖ {[serverId]}) as Hg3.
  { rewrite <- Hg2. unfold globalSet, c3.
    destruct (claudeJson !! "projects") as [[]|];
      by rewrite ?lookup_insert_ne by done. }
  assert (∀ path, projectSet c3 path
                  = projectSet claudeJson path ∖ {[serverId]}) as Hp3.
  { intros path. unfold projectSet, c3.
    destruct (claudeJson !! "projects") as [v|] eqn:Hp;
      [|rewrite Hp2, ?Hp; apply empty_minus].
    destruct v; try (rewrite Hp2, ?Hp; cbn [isObject]; apply empty_minus).
    - rewrite lookup_insert_eq. cbn [isObject]. rewrite array_fmap.
      apply purged_project_set; exact path.
    - rewrite lookup_insert_eq. cbn [isObject].
      change (prop (JObj (purgeProject serverId <$> m)) path)
        with ((purgeProject serverId <$> m) !! path).
      rewrite lookup_fmap. apply purged_project_set; exact path. }
  assert (∀ p, getClaudeDisabledServers (JObj c3) p
               = getClaudeDisabledServers (JObj claudeJson) p ∖ {[serverId]})
    as Hall.
  { intros p. rewrite !disabled_sets, Hg3.
    destruct (given p) as [path|]; cbn [from_option].
    - rewrite Hp3. apply set_eq. intros x.
      rewrite elem_of_difference, !elem_of_union, !elem_of_difference. tauto.
    - by rewrite !(right_id_L ∅ (∪)). }
  split; [by eexists|]. split.
  - intros p. rewrite Hall, elem_of_difference, elem_of_singleton. tauto.
  - intros other p Hne.
    rewrite Hall, elem_of_difference, elem_of_singleton. tauto.
Qed.

Lemma X21_deleted_server_leaves_no_trace_witness :
  let claudeJson : gmap string json :=
    {[ "mcpServers" := JObj {[ "git" := JObj ∅ ]};
       "disabledMcpServers" := JArr [JStr "git"] ]} in
  ∃ claudeJson',
    deleteClaudeMcpServer claudeJson "git" = Some claudeJson' ∧
    "git" ∉ getClaudeDisabledServers (JObj claudeJson') None.
Proof.
  cbv zeta.
  assert (is_Some (deleteClaudeMcpServer
                     {[ "mcpServers" := JObj {[ "git" := JObj ∅ ]};
                        "disabledMcpServers" := JArr [JStr "git"] ]} "git"))
    as [claudeJson' Hdel] by (eexists; reflexivity).
  exists claudeJson'. split; [exact Hdel|].
  destruct (X21_deleted_server_leaves_no_trace _ _ _ Hdel) as (_ & Hgone & _).
  apply Hgone.
Defined.

End Mcp.

(* ===================================================================== *)
(** * The rollups of the usage statistics                                 *)
(* ===================================================================== *)

Module UsageLaws.

Import Usage.
Local Open Scope Z_scope.

Definition sumOf {A} (f : A → Z) (l : list A) : Z :=
  foldr (λ x acc, f x + acc) 0 l.

Lemma sumOf_app {A} (f : A → Z) (l1 l2 : list A) :
  sumOf f (l1 ++ l2) = sumOf f l1 + sumOf f l2.
Proof. induction l1 as [|x l1 IH]; simpl; [done|]. rewrite IH. lia. Qed.

Lemma sumOf_perm {A} (f : A → Z) (l1 l2 : list A) :
  l1 ≡ₚ l2 → sumOf f l1 = sumOf f l2.
Proof. induction 1; simpl; lia. Qed.

Lemma sumOf_fmap {A B} (g : A → B) (f : B → Z) (l : list A) :
  sumOf f (g <$> l) = sumOf (f ∘ g) l.
Proof.
  induction l as [|x l IH]; [done|].
  change (sumOf f (g <$> x :: l)) with (f (g x) + sumOf f (g <$> l)).
  by rewrite IH.
Qed.

(** ** An insertion-ordered map updated by [mapUpsert] *)

Section Upsert.
Context {K V : Type} `{EqDecision K}.
Context (init : K → V) (add : V → V).

Lemma mapUpsert_keys_old (key : K) (m : list (K * V)) :
  key ∈ m.*1 → (mapUpsert key (init key) add m).*1 = m.*1.
Proof.
  induction m as [|[k v] m IH]; intros Hin; [by apply elem_of_nil in Hin|].
  cbn [mapUpsert]. destruct (decide (k = key)) as [->|Hne]; [done|].
  rewrite !fmap_cons. rewrite IH; [done|].
  rewrite fmap_cons in Hin. apply elem_of_cons in Hin as [Heq|Hin]; [|done].
  simpl in Heq. congruence.
Qed.

Lemma mapUpsert_keys_new (key : K) (m : list (K * V)) :
  key ∉ m.*1 → (mapUpsert key (init key) add m).*1 = m.*1 ++ [key].
Proof.
  induction m as [|[k v] m IH]; intros Hnin; [done|].
  rewrite fmap_cons in Hnin. apply not_elem_of_cons in Hnin as [Hne Hnin].
  cbn [mapUpsert]. rewrite decide_False by (simpl in Hne; congruence).
  rewrite !fmap_cons. by rewrite IH.
Qed.

Lemma mapUpsert_NoDup (key : K) (m : list (K * V)) :
  NoDup m.*1 → NoDup (mapUpsert key (init key) add m).*1.
Proof.
  intros Hnd. destruct (decide (key ∈ m.*1)) as [Hin|Hnin].
  - by rewrite mapUpsert_keys_old.
  - rewrite mapUpsert_keys_new by done.
    apply NoDup_app. split; [done|]. split; [|apply NoDup_singleton].
    intros x Hx ->%list_elem_of_singleton. done.
Qed.

Lemma mapUpsert_member (key k : K) (m : list (K * V)) :
  k ∈ (mapUpsert key (init key) add m).*1 ↔ k ∈ m.*1 ∨ k = key.
Proof.
  destruct (decide (key ∈ m.*1)) as [Hin|Hnin].
  - rewrite mapUpsert_keys_old by done. split; [by left|].
    intros [Hk | ->]; done.
  - rewrite mapUpsert_keys_new by done.
    rewrite elem_of_app, list_elem_of_singleton. tauto.
Qed.

(** A measure that [add] raises by [d] and that is 0 on a new entry. *)
Lemma mapUpsert_sum (g : V → Z) (d : Z) (key : K) (m : list (K * V)) :
  (∀ v, g (add v) = g v + d) → g (init key) = 0 →
  sumOf g (mapUpsert key (init key) add m).*2 = sumOf g m.*2 + d.
Proof.
  intros Hadd Hinit. induction m as [|[k v] m IH].
  - simpl. rewrite Hadd, Hinit. lia.
  - cbn [mapUpsert]. destruct (decide (k = key)).
    + simpl. rewrite Hadd. lia.
    + rewrite !fmap_cons.
      change (sumOf g (?x :: ?l)) with (g x + sumOf g l).
      rewrite IH. simpl. lia.
Qed.

(** A property of the entries that [add] keeps and new entries have. *)
Lemma mapUpsert_Forall (P : K → V → Prop) (key : K) (m : list (K * V)) :
  (∀ k v, P k v → P k (add v)) → P key (add (init key)) →
  Forall (λ kv, P kv.1 kv.2) m →
  Forall (λ kv, P kv.1 kv.2) (mapUpsert key (init key) add m).
Proof.
  intros Hadd Hinit. induction 1 as [|[k v] m Hkv Hm IH]; simpl.
  - by repeat constructor.
  - destruct (decide (k = key)); constructor; simpl in *; auto.
Qed.

End Upsert.

(** ** The per-model rollup *)

Definition modelStep (m : list (string * ModelStat)) (s : Session)
  : list (string * ModelStat) :=
  mapUpsert (model s) (newModelStat (model s)) (addToModelStat s) m.

Lemma claude_models (now : Z) (ss : list Session) :
  ∀ acc, accModels (foldl (claudeLoopBody now) acc ss)
         = foldl modelStep (accModels acc) ss.
Proof. induction ss as [|s ss IH]; intros acc; [done|]. simpl. by rewrite IH. Qed.

Lemma codex_models (ss : list Session) :
  ∀ acc, (foldl codexRollup acc ss).2 = foldl modelStep acc.2 ss.
Proof. induction ss as [|s ss IH]; intros acc; [done|]. simpl. by rewrite IH. Qed.

Record modelsSound (m : list (string * ModelStat)) : Prop := mkModelsSound {
  models_distinct : NoDup m.*1;
  models_named : Forall (λ kv, statModel kv.2 = kv.1) m;
}.

Lemma modelStep_sound (m : list (string * ModelStat)) (s : Session) :
  modelsSound m → modelsSound (modelStep m s).
Proof.
  intros [Hnd Hnamed]. split.
  - by apply (mapUpsert_NoDup newModelStat).
  - by apply (mapUpsert_Forall newModelStat _ (λ k v, statModel v = k)).
Qed.

Lemma models_fold (ss : list Session) :
  ∀ m, modelsSound m →
    modelsSound (foldl modelStep m ss) ∧
    sumOf sessionCount (foldl modelStep m ss).*2
    = sumOf sessionCount m.*2 + Z.of_nat (length ss) ∧
    sumOf statTotalTokens (foldl modelStep m ss).*2
    = sumOf statTotalTokens m.*2 + sumOf (λ s, totalTokens (usage s)) ss ∧
    ∀ k, k ∈ (foldl modelStep m ss).*1 ↔ k ∈ m.*1 ∨ k ∈ model <$> ss.
Proof.
  induction ss as [|s ss IH]; intros m Hm.
  - simpl. split; [done|]. split; [lia|]. split; [lia|].
    intros k. rewrite elem_of_nil. tauto.
  - destruct (IH _ (modelStep_sound m s Hm)) as (Hs & Hc & Ht & Hk).
    cbn [foldl]. split; [done|]. split; [|split].
    + rewrite Hc. unfold modelStep.
      rewrite (mapUpsert_sum newModelStat _ sessionCount 1); [|done..].
      rewrite length_cons. lia.
    + rewrite Ht. unfold modelStep.
      rewrite (mapUpsert_sum newModelStat _ statTotalTokens
                 (totalTokens (usage s))); [|done..].
      simpl. lia.
    + intros k. rewrite Hk. unfold modelStep.
      rewrite (mapUpsert_member newModelStat). rewrite fmap_cons, elem_of_cons.
      tauto.
Qed.

Lemma names_of (m : list (string * ModelStat)) :
  Forall (λ kv, statModel kv.2 = kv.1) m → statModel <$> m.*2 = m.*1.
Proof.
  induction 1 as [|[k v] m Hkv _ IH]; [done|].
  rewrite !fmap_cons. simpl in *. by rewrite IH, Hkv.
Qed.

(** The breakdown by model that [handleGetUsageStatistics] sends, from the
    rollup it is sorted from. *)
Lemma byModel_of (p : provider) (now : Z) (scanned : list Session) :
  ∃ ss, ss ≡ₚ scanned ∧
        byModel (handleGetUsageStatistics p now scanned)
        = sortBy costliestFirst (foldl modelStep [] ss).*2.
Proof.
  destruct p; simpl.
  - exists scanned. split; [done|].
    unfold getClaudeProjectStatistics, processClaudeSessions. simpl.
    by rewrite claude_models.
  - exists (sortBy newestFirst scanned). split; [apply sortBy_perm|].
    unfold getCodexProjectStatistics, processCodexSessions,
      readCodexSessionSummaries. simpl.
    by rewrite codex_models.
Qed.

(** Where the sums of the model are the sums of the code: the counts are
    not negative and add up to at most [2 ^ 53], so that every partial sum
    is an integer that a double holds exactly. *)
Definition exactSum (f : Session → Z) (l : list Session) : Prop :=
  Forall (λ s, 0 ≤ f s) l ∧ sumOf f l ≤ 2 ^ 53.

(** Two sessions of one model on one day and one of another model on the
    next day. *)
Definition threeSessions : list Session :=
  [ mkSession "a" 1700000000000 "opus" (mkUsage 10 5 0 0 15) 0 None;
    mkSession "b" 1700000600000 "opus" (mkUsage 20 5 0 0 25) 0 None;
    mkSession "c" 1700090000000 "haiku" (mkUsage 1 1 0 0 2) 0 None ].

(** X22.  The breakdown by model partitions the sessions, for both
    providers: every model of a session has exactly one entry and the
    session counts of the entries add up to the number of sessions scanned.
    When the token totals of the sessions are not negative and add up to at
    most [2 ^ 53] (no addition of the source is rounded), the token totals
    of the entries add up to the tokens of all sessions. *)
Theorem X22_by_model_partitions_sessions (p : provider) (now : Z)
    (scanned : list Session) :
  let stats := handleGetUsageStatistics p now scanned in
  NoDup (statModel <$> byModel stats) ∧
  (∀ m, m ∈ statModel <$> byModel stats ↔ m ∈ model <$> scanned) ∧
  sumOf sessionCount (byModel stats) = Z.of_nat (length scanned) ∧
  (exactSum (λ s, totalTokens (usage s)) scanned →
   sumOf statTotalTokens (byModel stats)
   = sumOf (λ s, totalTokens (usage s)) scanned).
Proof.
  cbv zeta. destruct (byModel_of p now scanned) as (ss & Hperm & ->).
  destruct (models_fold ss [] (mkModelsSound [] (NoDup_nil_2) (Forall_nil_2 _)))
    as ([Hnd Hnamed] & Hc & Ht & Hk).
  set (m := foldl modelStep [] ss) in *.
  pose proof (sortBy_perm costliestFirst m.*2) as Hsorted.
  assert (statModel <$> sortBy costliestFirst m.*2 ≡ₚ m.*1) as Hnames.
  { rewrite Hsorted. by rewrite names_of. }
  split; [by rewrite Hnames|]. split; [|split].
  - intros k. rewrite Hnames, Hk, elem_of_nil, Hperm. tauto.
  - rewrite (sumOf_perm _ _ _ Hsorted), Hc. simpl. by rewrite Hperm.
  - intros _. rewrite (sumOf_perm _ _ _ Hsorted), Ht. simpl.
    by apply sumOf_perm.
Qed.

Lemma X22_by_model_partitions_sessions_witness :
  let stats := handleGetUsageStatistics Claude 1700100000000 threeSessions in
  sumOf sessionCount (byModel stats) = 3 ∧
  sumOf statTotalTokens (byModel stats) = 42.
Proof.
  destruct (X22_by_model_partitions_sessions Claude 1700100000000
              threeSessions) as (_ & _ & Hcount & Htokens).
  split; [exact Hcount|]. apply Htokens.
  split; [repeat constructor; simpl; lia|simpl; lia].
Defined.

(** ** The daily rollup *)

Definition dayOf (s : Session) : Z := dateKey (timestamp s).

Definition dailyStep (add : Session → DailyUsage → DailyUsage)
    (m : list (Z * DailyUsage)) (s : Session) : list (Z * DailyUsage) :=
  mapUpsert (dayOf s) (newDaily (dayOf s)) (add s) m.

Lemma claude_daily (now : Z) (ss : list Session) :
  ∀ acc, accDaily (foldl (claudeLoopBody now) acc ss)
         = foldl (dailyStep addToDailyClaude) (accDaily acc) ss.
Proof. induction ss as [|s ss IH]; intros acc; [done|]. simpl. by rewrite IH. Qed.

Lemma codex_daily (ss : list Session) :
  ∀ acc, (foldl codexRollup acc ss).1
         = foldl (dailyStep addToDailyCodex) acc.1 ss.
Proof. induction ss as [|s ss IH]; intros acc; [done|]. simpl. by rewrite IH. Qed.

(** What the two ways of adding a session to a day have in common. *)
Definition countsSession (add : Session → DailyUsage → DailyUsage) : Prop :=
  ∀ s d,
    date (add s d) = date d ∧
    dailySessions (add s d) = dailySessions d + 1 ∧
    inputTokens (dailyUsageData (add s d))
    = inputTokens (dailyUsageData d) + inputTokens (usage s).

Lemma addToDailyClaude_counts : countsSession addToDailyClaude.
Proof. by intros s d. Qed.

Lemma addToDailyCodex_counts : countsSession addToDailyCodex.
Proof. by intros s d. Qed.

Record dailySound (m : list (Z * DailyUsage)) : Prop := mkDailySound {
  days_distinct : NoDup m.*1;
  days_dated : Forall (λ kv, date kv.2 = kv.1) m;
}.

Lemma daily_fold (add : Session → DailyUsage → DailyUsage)
    (ss : list Session) :
  countsSession add →
  ∀ m, dailySound m →
    dailySound (foldl (dailyStep add) m ss) ∧
    sumOf dailySessions (foldl (dailyStep add) m ss).*2
    = sumOf dailySessions m.*2 + Z.of_nat (length ss) ∧
    sumOf (λ d, inputTokens (dailyUsageData d)) (foldl (dailyStep add) m ss).*2
    = sumOf (λ d, inputTokens (dailyUsageData d)) m.*2
      + sumOf (λ s, inputTokens (usage s)) ss ∧
    ∀ k, k ∈ (foldl (dailyStep add) m ss).*1 ↔ k ∈ m.*1 ∨ k ∈ dayOf <$> ss.
Proof.
  intros Hadd. induction ss as [|s ss IH]; intros m Hm.
  - simpl. split; [done|]. split; [lia|]. split; [lia|].
    intros k. rewrite elem_of_nil. tauto.
  - assert (dailySound (dailyStep add m s)) as Hstep.
    { destruct Hm as [Hnd Hdated]. split.
      - by apply (mapUpsert_NoDup newDaily).
      - apply (mapUpsert_Forall newDaily _ (λ k v, date v = k));
          [| |exact Hdated].
        + intros k v Hv. by rewrite (proj1 (Hadd s v)).
        + by rewrite (proj1 (Hadd s _)). }
    destruct (IH _ Hstep) as (Hs & Hc & Ht & Hk).
    cbn [foldl]. split; [done|]. split; [|split].
    + rewrite Hc. unfold dailyStep.
      rewrite (mapUpsert_sum newDaily _ dailySessions 1);
        [|intros v; apply (Hadd s v)|done].
      rewrite length_cons. lia.
    + rewrite Ht. unfold dailyStep.
      rewrite (mapUpsert_sum newDaily _ (λ d, inputTokens (dailyUsageData d))
                 (inputTokens (usage s)));
        [|intros v; apply (Hadd s v)|done].
      simpl. lia.
    + intros k. rewrite Hk. unfold dailyStep.
      rewrite (mapUpsert_member newDaily). rewrite fmap_cons, elem_of_cons.
      tauto.
Qed.

Lemma dates_of (m : list (Z * DailyUsage)) :
  Forall (λ kv, date kv.2 = kv.1) m → date <$> m.*2 = m.*1.
Proof.
  induction 1 as [|[k v] m Hkv _ IH]; [done|].
  rewrite !fmap_cons. simpl in *. by rewrite IH, Hkv.
Qed.

Lemma byDate_total (a b : DailyUsage) : byDate a b = false → byDate b a = true.
Proof. unfold byDate. lia. Qed.

(** A list sorted by date whose dates are distinct is strictly sorted. *)
Lemma Sorted_strict (l : list DailyUsage) :
  Sorted (λ a b, byDate a b = true) l → NoDup (date <$> l) →
  Sorted (λ a b, date a < date b) l.
Proof.
  induction 1 as [|a l Hs IH Hd]; intros Hnd; [constructor|].
  rewrite fmap_cons in Hnd. apply NoDup_cons in Hnd as [Hfresh Hnd].
  constructor; [by apply IH|].
  destruct Hd as [|b l Hab]; constructor.
  unfold byDate in Hab. apply Z.leb_le in Hab.
  assert (date a ≠ date b); [|lia].
  intros Heq. apply Hfresh. rewrite Heq, fmap_cons. apply list_elem_of_here.
Qed.

(** The daily rollup that [handleGetUsageStatistics] sends. *)
Lemma dailyUsage_of (p : provider) (now : Z) (scanned : list Session) :
  ∃ ss, ss ≡ₚ scanned ∧
        dailyUsage (handleGetUsageStatistics p now scanned)
        = sortBy byDate
            (foldl (dailyStep match p with
                              | Claude => addToDailyClaude
                              | Codex => addToDailyCodex
                              end) [] ss).*2.
Proof.
  destruct p; simpl.
  - exists scanned. split; [done|].
    unfold getClaudeProjectStatistics, processClaudeSessions. simpl.
    by rewrite claude_daily.
  - exists (sortBy newestFirst scanned). split; [apply sortBy_perm|].
    unfold getCodexProjectStatistics, processCodexSessions,
      readCodexSessionSummaries. simpl.
    by rewrite codex_daily.
Qed.

(** The timestamps of the years 0000 to 9999, from
    [0000-01-01T00:00:00.000Z] to [9999-12-31T23:59:59.999Z]: those for
    which [dateKey] stands for the key the source computes. *)
Definition fourDigitYear (ts : Z) : Prop :=
  -62167219200000 ≤ ts ≤ 253402300799999.

(** X23.  The daily rollup, for both providers, of sessions that started
    in the years 0000 to 9999: one entry for each UTC day on which a
    scanned session started, in strictly ascending order of the day, and
    the session counts of the days add up to the number of sessions
    scanned.  When the input tokens of the sessions are not negative and
    add up to at most [2 ^ 53], the input tokens of the days add up to the
    input tokens of all sessions. *)
Theorem X23_daily_rollup_partitions_sessions (p : provider) (now : Z)
    (scanned : list Session) :
  Forall (λ s, fourDigitYear (timestamp s)) scanned →
  let stats := handleGetUsageStatistics p now scanned in
  Sorted (λ a b, date a < date b) (dailyUsage stats) ∧
  (∀ day, day ∈ date <$> dailyUsage stats ↔ day ∈ dayOf <$> scanned) ∧
  sumOf dailySessions (dailyUsage stats) = Z.of_nat (length scanned) ∧
  (exactSum (λ s, inputTokens (usage s)) scanned →
   sumOf (λ d, inputTokens (dailyUsageData d)) (dailyUsage stats)
   = sumOf (λ s, inputTokens (usage s)) scanned).
Proof.
  intros _. cbv zeta.
  destruct (dailyUsage_of p now scanned) as (ss & Hperm & ->).
  set (add := match p with
              | Claude => addToDailyClaude
              | Codex => addToDailyCodex
              end).
  assert (countsSession add) as Hadd
    by (destruct p; [apply addToDailyClaude_counts|apply addToDailyCodex_counts]).
  destruct (daily_fold add ss Hadd []
              (mkDailySound [] (NoDup_nil_2) (Forall_nil_2 _)))
    as ([Hnd Hdated] & Hc & Ht & Hk).
  set (m := foldl (dailyStep add) [] ss) in *.
  pose proof (sortBy_perm byDate m.*2) as Hsorted.
  assert (date <$> sortBy byDate m.*2 ≡ₚ m.*1) as Hdates.
  { rewrite Hsorted. by rewrite dates_of. }
  split; [|split; [|split]].
  - apply Sorted_strict; [apply (sortBy_Sorted byDate byDate_total)|].
    by rewrite Hdates.
  - intros k. rewrite Hdates, Hk, elem_of_nil, Hperm. tauto.
  - rewrite (sumOf_perm _ _ _ Hsorted), Hc. simpl. by rewrite Hperm.
  - intros _. rewrite (sumOf_perm _ _ _ Hsorted), Ht. simpl.
    by apply sumOf_perm.
Qed.

Lemma X23_daily_rollup_partitions_sessions_witness :
  let stats := handleGetUsageStatistics Claude 1700100000000 threeSessions in
  date <$> dailyUsage stats = [19675; 19676] ∧
  sumOf dailySessions (dailyUsage stats) = 3 ∧
  sumOf (λ d, inputTokens (dailyUsageData d)) (dailyUsage stats) = 31.
Proof.
  destruct (X23_daily_rollup_partitions_sessions Claude 1700100000000
              threeSessions) as (_ & _ & Hcount & Htokens).
  { repeat constructor; unfold fourDigitYear; simpl; lia. }
  split; [vm_compute; reflexivity|]. split; [exact Hcount|].
  apply Htokens. split; [repeat constructor; simpl; lia|simpl; lia].
Defined.

(** X24.  The two providers roll the tokens of a day up differently.  On
    the Claude path a day only collects input and output tokens: its
    [totalTokens] and both cache counts stay 0 whatever the sessions hold.
    On the Codex path the [totalTokens] of the days add up to the total of
    all sessions, when the token totals of the sessions are not negative
    and add up to at most [2 ^ 53]. *)
Theorem X24_daily_tokens_differ_by_provider (now : Z)
    (scanned : list Session) :
  Forall (λ d, totalTokens (dailyUsageData d) = 0 ∧
               cacheWriteTokens (dailyUsageData d) = 0 ∧
               cacheReadTokens (dailyUsageData d) = 0)
         (dailyUsage (handleGetUsageStatistics Claude now scanned)) ∧
  (exactSum (λ s, totalTokens (usage s)) scanned →
   sumOf (λ d, totalTokens (dailyUsageData d))
         (dailyUsage (handleGetUsageStatistics Codex now scanned))
   = sumOf (λ s, totalTokens (usage s)) scanned).
Proof.
  split.
  - destruct (dailyUsage_of Claude now scanned) as (ss & _ & ->).
    rewrite (sortBy_perm byDate). apply Forall_fmap.
    generalize (@nil (Z * DailyUsage))
               (Forall_nil_2 (λ kv : Z * DailyUsage,
                  totalTokens (dailyUsageData kv.2) = 0 ∧
                  cacheWriteTokens (dailyUsageData kv.2) = 0 ∧
                  cacheReadTokens (dailyUsageData kv.2) = 0)).
    induction ss as [|s ss IH]; intros m Hm; [exact Hm|].
    cbn [foldl]. apply IH. unfold dailyStep.
    by apply (mapUpsert_Forall newDaily _
                (λ _ v, totalTokens (dailyUsageData v) = 0 ∧
                        cacheWriteTokens (dailyUsageData v) = 0 ∧
                        cacheReadTokens (dailyUsageData v) = 0)).
  - intros _.
    destruct (dailyUsage_of Codex now scanned) as (ss & Hperm & ->).
    rewrite (sumOf_perm _ _ _ (sortBy_perm byDate _)).
    rewrite <- (sumOf_perm _ _ _ Hperm).
    assert (∀ m, sumOf (λ d, totalTokens (dailyUsageData d))
                   (foldl (dailyStep addToDailyCodex) m ss).*2
                 = sumOf (λ d, totalTokens (dailyUsageData d)) m.*2
                   + sumOf (λ s, totalTokens (usage s)) ss) as Hsum.
    { clear Hperm. induction ss as [|s ss IH]; intros m; [simpl; lia|].
      cbn [foldl]. rewrite IH. unfold dailyStep.
      rewrite (mapUpsert_sum newDaily _
                 (λ d, totalTokens (dailyUsageData d))
                 (totalTokens (usage s))); [|done|done].
      simpl. lia. }
    rewrite Hsum. simpl. lia.
Qed.

Lemma X24_daily_tokens_differ_by_provider_witness :
  sumOf (λ d, totalTokens (dailyUsageData d))
        (dailyUsage (handleGetUsageStatistics Codex 1700100000000 threeSessions))
  = 42.
Proof.
  destruct (X24_daily_tokens_differ_by_provider 1700100000000 threeSessions)
    as [_ Htokens].
  apply Htokens. split; [repeat constructor; simpl; lia|simpl; lia].
Defined.

(** ** The weekly comparison *)

Definition tally {A} (P : A → Prop) `{∀ x, Decision (P x)} (l : list A) : Z :=
  Z.of_nat (length (filter P l)).

Lemma tally_cons {A} (P : A → Prop) `{∀ x, Decision (P x)} (x : A)
    (l : list A) :
  tally P (x :: l) = (if decide (P x) then 1 else 0) + tally P l.
Proof.
  unfold tally. destruct (decide (P x)).
  - rewrite filter_cons_True by done. rewrite length_cons. lia.
  - rewrite filter_cons_False by done. lia.
Qed.

Lemma tally_perm {A} (P : A → Prop) `{∀ x, Decision (P x)} (l1 l2 : list A) :
  l1 ≡ₚ l2 → tally P l1 = tally P l2.
Proof. intros Hp. unfold tally. by rewrite Hp. Qed.

Lemma claude_weeks (now : Z) (ss : list Session) :
  ∀ acc,
    weekSessions (accCurrent (foldl (claudeLoopBody now) acc ss))
    = weekSessions (accCurrent acc)
      + tally (λ s, now - weekMs < timestamp s) ss ∧
    weekSessions (accLast (foldl (claudeLoopBody now) acc ss))
    = weekSessions (accLast acc)
      + tally (λ s, now - 2 * weekMs < timestamp s ≤ now - weekMs) ss.
Proof.
  induction ss as [|s ss IH]; intros acc.
  - unfold tally. simpl. lia.
  - cbn [foldl]. destruct (IH (claudeLoopBody now acc s)) as [-> ->].
    rewrite !tally_cons. unfold claudeLoopBody. simpl.
    destruct (now - weekMs <? timestamp s) eqn:H1;
      [apply Z.ltb_lt in H1|apply Z.ltb_ge in H1].
    + rewrite decide_True by done. rewrite decide_False by lia. simpl. lia.
    + rewrite decide_False by lia.
      destruct (now - 2 * weekMs <? timestamp s) eqn:H2;
        [apply Z.ltb_lt in H2|apply Z.ltb_ge in H2].
      * rewrite decide_True by lia. simpl. lia.
      * rewrite decide_False by lia. simpl. lia.
Qed.

Lemma codex_weeks (now : Z) (ss : list Session) :
  ∀ acc,
    weekSessions (foldl (codexWeeks now) acc ss).1
    = weekSessions acc.1 + tally (λ s, now - weekMs ≤ timestamp s) ss ∧
    weekSessions (foldl (codexWeeks now) acc ss).2
    = weekSessions acc.2
      + tally (λ s, now - 2 * weekMs ≤ timestamp s < now - weekMs) ss.
Proof.
  induction ss as [|s ss IH]; intros acc.
  - unfold tally. simpl. lia.
  - cbn [foldl]. destruct (IH (codexWeeks now acc s)) as [-> ->].
    rewrite !tally_cons. unfold codexWeeks. cbv zeta.
    destruct (now - weekMs <=? timestamp s) eqn:H1;
      [apply Z.leb_le in H1|apply Z.leb_gt in H1].
    + rewrite decide_True by done. rewrite decide_False by lia. simpl. lia.
    + rewrite decide_False by lia.
      destruct (now - 2 * weekMs <=? timestamp s) eqn:H2;
        [apply Z.leb_le in H2|apply Z.leb_gt in H2].
      * rewrite decide_True by lia. simpl. lia.
      * rewrite decide_False by lia. simpl. lia.
Qed.

(** X25.  The weekly comparison counts, for both providers, the sessions of
    the last seven days and those of the seven days before, but the two
    paths put the boundaries on different sides: a session that started
    exactly seven (or fourteen) days before [now] belongs to the older
    window on the Claude path and to the newer one on the Codex path. *)
Theorem X25_weekly_windows (now : Z) (scanned : list Session) :
  let claude := handleGetUsageStatistics Claude now scanned in
  let codex := handleGetUsageStatistics Codex now scanned in
  weekSessions (currentWeek claude)
  = tally (λ s, now - weekMs < timestamp s) scanned ∧
  weekSessions (lastWeek claude)
  = tally (λ s, now - 2 * weekMs < timestamp s ≤ now - weekMs) scanned ∧
  weekSessions (currentWeek codex)
  = tally (λ s, now - weekMs ≤ timestamp s) scanned ∧
  weekSessions (lastWeek codex)
  = tally (λ s, now - 2 * weekMs ≤ timestamp s < now - weekMs) scanned.
Proof.
  cbv zeta. simpl.
  unfold getClaudeProjectStatistics, processClaudeSessions,
    getCodexProjectStatistics, processCodexSessions,
    readCodexSessionSummaries. simpl.
  destruct (claude_weeks now scanned
              (mkClaudeAcc createUsageData 0 [] [] emptyWeek emptyWeek))
    as [-> ->].
  destruct (codex_weeks now (sortBy newestFirst scanned)
              (emptyWeek, emptyWeek)) as [-> ->].
  simpl. rewrite !(tally_perm _ _ _ (sortBy_perm newestFirst scanned)).
  repeat split; lia.
Qed.

End UsageLaws.

(* ===================================================================== *)
(** * The hash that names the skill directory of a workspace              *)
(* ===================================================================== *)

Module Hash.

Local Open Scope Z_scope.

(** [x | 0]: the 32-bit two's complement integer of an integer. *)
Definition toInt32 (x : Z) : Z := (x + 2 ^ 31) mod 2 ^ 32 - 2 ^ 31.

(** [x >>> 0]. *)
Definition toUint32 (x : Z) : Z := x mod 2 ^ 32.

(** [javaStringHash(value)], on the code units of [value].  The products
    stay far below 2^53, so the doubles of the source hold them exactly. *)
Definition javaStringHash (value : list Z) : Z :=
  foldl (λ hash code, toInt32 (hash * 31 + code)) 0 value.

(** [n.toString(16)]. *)
Definition toString16 (n : N) : string :=
  HexadecimalString.NilEmpty.string_of_uint (N.to_hex_uint n).

Definition javaHashHex (value : list Z) : string :=
  toString16 (Z.to_N (toUint32 (javaStringHash value))).

(** The hash without the wrap-around: [s[0]*31^(n-1) + ... + s[n-1]]. *)
Definition polynomial (value : list Z) : Z :=
  foldl (λ hash code, hash * 31 + code) 0 value.

Lemma toInt32_range (x : Z) : - 2 ^ 31 ≤ toInt32 x < 2 ^ 31.
Proof.
  unfold toInt32. pose proof (Z.mod_pos_bound (x + 2 ^ 31) (2 ^ 32)). lia.
Qed.

Lemma toInt32_congruent (x : Z) : toInt32 x mod 2 ^ 32 = x mod 2 ^ 32.
Proof.
  unfold toInt32.
  rewrite Zminus_mod, Zmod_mod, <- Zminus_mod.
  f_equal. lia.
Qed.

Lemma toInt32_small (x : Z) : - 2 ^ 31 ≤ x < 2 ^ 31 → toInt32 x = x.
Proof. intros Hx. unfold toInt32. rewrite Z.mod_small; lia. Qed.

Lemma hash_fold (value : list Z) :
  ∀ h p, h mod 2 ^ 32 = p mod 2 ^ 32 →
    foldl (λ hash code, toInt32 (hash * 31 + code)) h value mod 2 ^ 32
    = foldl (λ hash code, hash * 31 + code) p value mod 2 ^ 32.
Proof.
  induction value as [|c value IH]; intros h p Hhp; [done|].
  simpl. apply IH. rewrite toInt32_congruent.
  rewrite (Zplus_mod (h * 31)), (Zplus_mod (p * 31)).
  rewrite (Zmult_mod h), (Zmult_mod p), Hhp. reflexivity.
Qed.

Lemma hash_range (value : list Z) :
  - 2 ^ 31 ≤ javaStringHash value < 2 ^ 31.
Proof.
  unfold javaStringHash.
  destruct value as [|c value _] using rev_ind; [simpl; lia|].
  rewrite foldl_app. simpl. apply toInt32_range.
Qed.

Lemma toString16_inj (n m : N) : toString16 n = toString16 m → n = m.
Proof.
  unfold toString16. intros H.
  apply HexadecimalN.Unsigned.to_uint_inj.
  apply (f_equal HexadecimalString.NilEmpty.uint_of_string) in H.
  rewrite !HexadecimalString.NilEmpty.usu in H. by injection H.
Qed.

(** X26.  [javaStringHash] is Java's [String.hashCode]: a signed 32-bit
    integer congruent modulo 2^32 to [s[0]*31^(n-1) + ... + s[n-1]].  The
    hexadecimal name [javaHashHex] derives from it loses nothing: two strings
    get the same name exactly when they have the same hash. *)
Theorem X26_java_hash (value other : list Z) :
  - 2 ^ 31 ≤ javaStringHash value < 2 ^ 31 ∧
  javaStringHash value mod 2 ^ 32 = polynomial value mod 2 ^ 32 ∧
  (javaHashHex value = javaHashHex other
   ↔ javaStringHash value = javaStringHash other).
Proof.
  split; [apply hash_range|]. split; [by apply hash_fold|].
  split; [|by unfold javaHashHex; intros ->].
  unfold javaHashHex, toUint32. intros H%toString16_inj.
  apply Z2N.inj in H; try (apply Z.mod_pos_bound; lia).
  pose proof (hash_range value). pose proof (hash_range other).
  rewrite <- (toInt32_small (javaStringHash value)) by done.
  rewrite <- (toInt32_small (javaStringHash other)) by done.
  unfold toInt32. f_equal.
  rewrite (Zplus_mod (javaStringHash value)).
  rewrite (Zplus_mod (javaStringHash other)).
  by rewrite H.
Qed.

(** The hash of ["ab"] is 97 * 31 + 98 = 3105, in hexadecimal [c21]. *)
Example hash_ab : javaStringHash [97; 98] = 3105 ∧ javaHashHex [97; 98] = "c21"%string.
Proof. split; reflexivity. Qed.

End Hash.

(* ===================================================================== *)
(** * The agents file                                                     *)
(* ===================================================================== *)

Module Agents.

Import Json.
Local Open Scope string_scope.

(** [typeof agent.id === 'string' && agent.id ? agent.id
     : `agent_${Date.now()}`]; [stamp] is the value of [Date.now()]. *)
Definition agentId (stamp : Z) (agent : json) : string :=
  match prop agent "id" with
  | Some (JStr s) => if decide (s = "") then "agent_" +:+ pretty stamp else s
  | _ => "agent_" +:+ pretty stamp
  end.

(** [{ ...agent, id }]. *)
Definition agentEntry (id : string) (agent : json) : json :=
  JObj (<["id" := JStr id]> (ownProperties agent)).

(** One step of the loop over a legacy array of agents; [clock i] is the
    time at the [i]-th element.  [agentMap[id] = { ...agent, id }] is an
    assignment with a computed key: for the id [__proto__] it runs the
    setter of [Object.prototype] and stores nothing. *)
Definition agentStep (clock : nat → Z) (agentMap : object)
    (element : nat * json) : object :=
  if isObject element.2 then
    let id := agentId (clock element.1) element.2 in
    assign agentMap id (agentEntry id element.2)
  else agentMap.

(** The loop, from [const agentMap = {}]. *)
Definition agentMapFrom (clock : nat → Z) (agents : list json) : object :=
  foldl (agentStep clock) (newObject ∅) (imap pair agents).

(** [normalizeAgentsConfig(raw)]: the own properties of the object it
    returns, and of its [agents] member, as [saveJsonFile] writes them. *)
Definition normalizeAgentsConfig (clock : nat → Z) (raw : json)
  : gmap string json :=
  let config := if isObject raw then ownProperties raw else ∅ in
  match config !! "agents" with
  | Some (JObj agents) => <["agents" := JObj agents]> config
  | Some (JArr agents) =>
      <["agents" := JObj (members (agentMapFrom clock agents))]> config
  | _ => <["agents" := JObj ∅]> config
  end.

Lemma agentEntry_id (id : string) (agent : json) :
  prop (agentEntry id agent) "id" = Some (JStr id).
Proof. unfold prop, agentEntry. cbn [ownProperties]. apply lookup_insert_eq. Qed.

Lemma assign_members_cases (o : object) (key : string) (value : json) :
  members (assign o key value) = members o ∨
  members (assign o key value) = <[key := value]> (members o).
Proof.
  unfold assign. destruct (_ && _); [|by right]. left. by destruct value.
Qed.

(** Every stored agent carries the id it is stored under. *)
Lemma agentMap_ids (clock : nat → Z) (elements : list (nat * json)) :
  ∀ o : object,
    (∀ id v, members o !! id = Some v → prop v "id" = Some (JStr id)) →
    ∀ id v,
      members (foldl (agentStep clock) o elements) !! id = Some v →
      prop v "id" = Some (JStr id).
Proof.
  induction elements as [|[i a] elements IH]; intros o Ho; [exact Ho|].
  cbn [foldl]. apply IH. unfold agentStep. cbn [fst snd].
  destruct (isObject a); [|exact Ho].
  intros id v.
  destruct (assign_members_cases o (agentId (clock i) a)
              (agentEntry (agentId (clock i) a) a)) as [->| ->]; [apply Ho|].
  destruct (decide (id = agentId (clock i) a)) as [->|Hne].
  - rewrite lookup_insert_eq. intros [= <-]. apply agentEntry_id.
  - rewrite lookup_insert_ne by done. apply Ho.
Qed.

(** An id that no later element has keeps its entry. *)
Lemma agentMap_untouched (clock : nat → Z) (id : string)
    (elements : list (nat * json)) :
  (∀ k j b, elements !! k = Some (j, b) → isObject b = true →
            agentId (clock j) b ≠ id) →
  ∀ o, members (foldl (agentStep clock) o elements) !! id = members o !! id.
Proof.
  induction elements as [|[j b] elements IH]; intros Hlater o; [done|].
  cbn [foldl]. rewrite IH.
  - unfold agentStep. cbn [fst snd]. destruct (isObject b) eqn:Hb; [|done].
    apply assign_members_ne. intros ->. by apply (Hlater 0%nat j b).
  - intros k j' b' Hk. by apply (Hlater (S k)).
Qed.

(** The last element with a given id, other than [__proto__], is the one
    stored under it. *)
Lemma agentMap_last (clock : nat → Z) (elements : list (nat * json)) :
  ∀ (k i : nat) (a : json) (o : object),
    elements !! k = Some (i, a) → isObject a = true →
    agentId (clock i) a ≠ "__proto__" →
    (∀ k' j b, (k < k')%nat → elements !! k' = Some (j, b) →
               isObject b = true → agentId (clock j) b ≠ agentId (clock i) a) →
    members (foldl (agentStep clock) o elements) !! agentId (clock i) a
    = Some (agentEntry (agentId (clock i) a) a).
Proof.
  induction elements as [|e elements IH]; intros k i a o Hk Ha Hid Hlater.
  { by rewrite lookup_nil in Hk. }
  cbn [foldl]. destruct k as [|k].
  - injection Hk as ->. rewrite agentMap_untouched.
    + unfold agentStep. cbn [fst snd]. rewrite Ha.
      apply assign_members_eq. by left.
    + intros k' j b Hk'. apply (Hlater (S k')); [lia|done].
  - apply (IH k); [done..|].
    intros k' j b Hlt Hk'. apply (Hlater (S k')); [lia|done].
Qed.

(** Whatever has an entry was there before or is the id of an element. *)
Lemma agentMap_origin (clock : nat → Z) (id : string)
    (elements : list (nat * json)) :
  ∀ o, is_Some (members (foldl (agentStep clock) o elements) !! id) →
       is_Some (members o !! id) ∨
       ∃ k i a, elements !! k = Some (i, a) ∧ isObject a = true ∧
                agentId (clock i) a = id.
Proof.
  induction elements as [|[i a] elements IH]; intros o Hid; [by left|].
  cbn [foldl] in Hid. destruct (IH _ Hid) as [Hstep|(k & j & b & Hk & Hb & Hj)].
  - unfold agentStep in Hstep. cbn [fst snd] in Hstep.
    destruct (isObject a) eqn:Ha; [|by left].
    destruct (decide (id = agentId (clock i) a)) as [->|Hne].
    + right. by exists 0%nat, i, a.
    + left. by rewrite assign_members_ne in Hstep.
  - right. by exists (S k), j, b.
Qed.

Lemma elements_lookup (legacy : list json) (k i : nat) (a : json) :
  imap pair legacy !! k = Some (i, a) ↔ k = i ∧ legacy !! i = Some a.
Proof.
  rewrite list_lookup_imap. split.
  - destruct (legacy !! k) as [x|] eqn:Hx; [|done].
    intros [= <- <-]. done.
  - intros [-> ->]. done.
Qed.

(** X27.  [normalizeAgentsConfig] always returns a configuration whose
    [agents] member is an object, and it leaves such a configuration as it
    is (normalizing twice is normalizing once, whatever the clock).  From a
    legacy array it keeps the elements that are objects, each under its id
    (its own non-empty string [id], else [agent_] and the time): every
    stored agent carries the id it is stored under; an element whose id no
    later element has is stored as [{ ...agent, id }], unless the id is
    [__proto__], for which the assignment runs the setter of
    [Object.prototype]; and nothing is stored that is not the id of an
    element. *)
Theorem X27_normalize_agents (clock clock' : nat → Z) (raw : json) :
  (∃ agents, normalizeAgentsConfig clock raw !! "agents" = Some (JObj agents)) ∧
  normalizeAgentsConfig clock' (JObj (normalizeAgentsConfig clock raw))
  = normalizeAgentsConfig clock raw ∧
  (∀ legacy, prop raw "agents" = Some (JArr legacy) → isObject raw = true →
     ∃ agents,
       normalizeAgentsConfig clock raw !! "agents" = Some (JObj agents) ∧
       (∀ id agent, agents !! id = Some agent →
                    prop agent "id" = Some (JStr id)) ∧
       (∀ (i : nat) (a : json),
          legacy !! i = Some a → isObject a = true →
          agentId (clock i) a ≠ "__proto__" →
          (∀ (j : nat) (b : json),
             (i < j)%nat → legacy !! j = Some b → isObject b = true →
             agentId (clock j) b ≠ agentId (clock i) a) →
          agents !! agentId (clock i) a
          = Some (agentEntry (agentId (clock i) a) a)) ∧
       (∀ id, is_Some (agents !! id) →
              ∃ (i : nat) (a : json),
                legacy !! i = Some a ∧ isObject a = true ∧
                agentId (clock i) a = id)).
Proof.
  assert (∃ agents,
            normalizeAgentsConfig clock raw !! "agents" = Some (JObj agents))
    as [agents Hagents].
  { unfold normalizeAgentsConfig. cbv zeta.
    set (config := if isObject raw then ownProperties raw else ∅).
    destruct (config !! "agents") as [[]|]; rewrite lookup_insert_eq; eauto. }
  split; [eauto|]. split.
  - unfold normalizeAgentsConfig at 1. cbn [isObject ownProperties].
    rewrite Hagents. by apply insert_id.
  - intros legacy Hlegacy Hobj. unfold normalizeAgentsConfig. rewrite Hobj.
    unfold prop in Hlegacy. rewrite Hlegacy, lookup_insert_eq.
    eexists. split; [reflexivity|]. unfold agentMapFrom.
    split; [|split].
    + apply agentMap_ids. intros id v. simpl. by rewrite lookup_empty.
    + intros i a Hi Ha Hid Hlater.
      apply (agentMap_last clock _ i i a); [by apply elements_lookup|done..|].
      intros k' j b Hlt Hk'. apply elements_lookup in Hk' as [-> Hj].
      by apply Hlater.
    + intros id Hid.
      apply agentMap_origin in Hid as [[x Hx]|(k & i & a & Hk & Ha & Hi)].
      { simpl in Hx. by rewrite lookup_empty in Hx. }
      apply elements_lookup in Hk as [-> Hk]. by exists i, a.
Qed.

Definition firstAgent : json := JObj {[ "id" := JStr "a1"; "name" := JStr "A" ]}.

Definition legacyAgents : json :=
  JObj {[ "agents" := JArr [firstAgent; JNull; JObj ∅] ]}.

Lemma X27_normalize_agents_witness :
  ∃ agents,
    normalizeAgentsConfig (λ _, 5%Z) legacyAgents !! "agents"
    = Some (JObj agents) ∧
    agents !! agentId 5 firstAgent
    = Some (agentEntry (agentId 5 firstAgent) firstAgent).
Proof.
  destruct (X27_normalize_agents (λ _, 5%Z) (λ _, 6%Z) legacyAgents)
    as (_ & _ & Hlegacy).
  destruct (Hlegacy [firstAgent; JNull; JObj ∅] eq_refl eq_refl)
    as (agents & Hagents & _ & Hstored & _).
  exists agents. split; [exact Hagents|].
  apply (Hstored 0%nat firstAgent); [reflexivity|reflexivity| |].
  - vm_compute. discriminate.
  - intros j b Hlt Hj Hb.
    destruct j as [|[|[|j]]]; [lia| | |discriminate Hj].
    + injection Hj as <-. discriminate Hb.
    + injection Hj as <-. vm_compute. discriminate.
Defined.

Example normalize_legacy_agents :
  normalizeAgentsConfig (λ _, 5%Z) legacyAgents
  = {[ "agents" :=
         JObj {[ "a1" := JObj {[ "id" := JStr "a1"; "name" := JStr "A" ]};
                 "agent_5" := JObj {[ "id" := JStr "agent_5" ]} ]} ]}.
Proof. vm_compute. reflexivity. Qed.

(** A legacy agent with the id [__proto__] is dropped. *)
Example normalize_agents_proto :
  normalizeAgentsConfig (λ _, 5%Z)
    (JObj {[ "agents" := JArr [JObj {[ "id" := JStr "__proto__" ]}] ]})
  = {[ "agents" := JObj ∅ ]}.
Proof. vm_compute. reflexivity. Qed.

End Agents.

(* ===================================================================== *)
(** * Two settings of settings.json                                       *)
(* ===================================================================== *)

Module Flags.

Import Json Settings.
Local Open Scope string_scope.

Inductive flagReply :=
| StreamingEnabledLoaded (streamingEnabled : bool)
| StreamingEnabledUpdated (streamingEnabled : bool)
| SendShortcutLoaded (shortcut : json)
| SendShortcutUpdated (shortcut : json).

(** [x !== false]. *)
Definition notFalse (x : option json) : bool :=
  match x with
  | Some (JBool false) => false
  | _ => true
  end.

(** [handleGetStreamingEnabled]. *)
Definition handleGetStreamingEnabled (f : Files) : flagReply :=
  StreamingEnabledLoaded
    (notFalse (otherSettings (loadSettings f) !! "streamingEnabled")).

(** The value [handleSetStreamingEnabled] reads from its payload. *)
Definition desiredStreaming (content : json) : bool :=
  if isObject content then
    match prop content "streamingEnabled" with
    | Some (JBool b) => b
    | _ => notFalse (prop content "enabled")
    end
  else true.

Definition setSetting (key : string) (v : json) (f : Files) : Files :=
  let settings := loadSettings f in
  saveSettings
    (mkSettings (activeClaudeProviderId settings)
                (<[key := v]> (otherSettings settings))) f.

(** [handleSetStreamingEnabled]. *)
Definition handleSetStreamingEnabled (content : json) (f : Files)
  : Files * flagReply :=
  let desired := desiredStreaming content in
  (setSetting "streamingEnabled" (JBool desired) f,
   StreamingEnabledUpdated desired).

(** [x || 'Enter']. *)
Definition orEnter (x : option json) : json :=
  match x with
  | Some v => if truthy v then v else JStr "Enter"
  | None => JStr "Enter"
  end.

(** [handleGetSendShortcut] and [handleSetSendShortcut]. *)
Definition handleGetSendShortcut (f : Files) : flagReply :=
  SendShortcutLoaded (orEnter (otherSettings (loadSettings f) !! "sendShortcut")).

Definition handleSetSendShortcut (content : json) (f : Files)
  : Files * flagReply :=
  let shortcut := orEnter (prop content "shortcut") in
  (setSetting "sendShortcut" shortcut f, SendShortcutUpdated shortcut).

Lemma notFalse_false (x : option json) :
  notFalse x = false ↔ x = Some (JBool false).
Proof. destruct x as [[|[]| | | |]|]; simpl; split; (done || congruence). Qed.

Lemma orEnter_truthy (x : option json) : truthy (orEnter x) = true.
Proof. destruct x as [v|]; [|done]. simpl. by destruct (truthy v) eqn:Hv. Qed.

(** X28.  What the two setters answer is what the getters read afterwards.
    Streaming is switched off only by an explicit [false]: by
    [streamingEnabled: false], or by [enabled: false] when
    [streamingEnabled] is not a boolean.  The shortcut stored is never
    falsy: a missing or empty one is stored as [Enter].  Every other
    setting is left as it was. *)
Theorem X28_setters_then_getters (content : json) (f : Files) :
  let streaming := handleSetStreamingEnabled content f in
  let shortcut := handleSetSendShortcut content f in
  streaming.2 = StreamingEnabledUpdated (desiredStreaming content) ∧
  handleGetStreamingEnabled streaming.1
  = StreamingEnabledLoaded (desiredStreaming content) ∧
  (desiredStreaming content = false ↔
   isObject content = true ∧
   (prop content "streamingEnabled" = Some (JBool false) ∨
    ((∀ b, prop content "streamingEnabled" ≠ Some (JBool b)) ∧
     prop content "enabled" = Some (JBool false)))) ∧
  (∃ s, shortcut.2 = SendShortcutUpdated s ∧
        handleGetSendShortcut shortcut.1 = SendShortcutLoaded s ∧
        truthy s = true) ∧
  (∀ key, key ≠ "streamingEnabled" →
     otherSettings (loadSettings streaming.1) !! key
     = otherSettings (loadSettings f) !! key) ∧
  (∀ key, key ≠ "sendShortcut" →
     otherSettings (loadSettings shortcut.1) !! key
     = otherSettings (loadSettings f) !! key) ∧
  activeClaudeProviderId (loadSettings streaming.1)
  = activeClaudeProviderId (loadSettings f).
Proof.
  cbv zeta. split; [done|]. split.
  { unfold handleGetStreamingEnabled, handleSetStreamingEnabled, setSetting.
    simpl. rewrite lookup_insert_eq. by destruct (desiredStreaming content). }
  split.
  { unfold desiredStreaming. destruct (isObject content);
      [|split; [done|by intros [? _]]].
    assert (∀ v, (∀ b, v ≠ Some (JBool b)) →
              notFalse (prop content "enabled") = false ↔
              true = true ∧
              (v = Some (JBool false) ∨
               ((∀ b, v ≠ Some (JBool b)) ∧
                prop content "enabled" = Some (JBool false)))) as Hother.
    { intros v Hv. rewrite notFalse_false. split.
      - intros He. split; [done|]. right. by split.
      - intros [_ [H|[_ H]]]; [by apply Hv in H|done]. }
    destruct (prop content "streamingEnabled") as [v|] eqn:Hs;
      [|by apply Hother].
    destruct v as [|b| | | |]; try (by apply Hother). split.
    - intros ->. split; [done|by left].
    - intros [_ [[= ->]|[Hno _]]]; [done|]. by destruct (Hno b). }
  split.
  { exists (orEnter (prop content "shortcut")). split; [done|]. split.
    - unfold handleGetSendShortcut, handleSetSendShortcut, setSetting. simpl.
      rewrite lookup_insert_eq. simpl. by rewrite orEnter_truthy.
    - apply orEnter_truthy. }
  split; [|split; [|done]].
  - intros key Hne. unfold handleSetStreamingEnabled, setSetting. simpl.
    by rewrite lookup_insert_ne.
  - intros key Hne. unfold handleSetSendShortcut, setSetting. simpl.
    by rewrite lookup_insert_ne.
Qed.

End Flags.
